(** * Shallow embedding of the AIshA shell core (execution engine, tokenizer,
    validator, expansion stores, glob matcher and line editor). *)

From Stdlib Require Import ZArith List String Ascii Bool Lia.
Import ListNotations.
Open Scope Z_scope.

(* ------------------------------------------------------------------ *)
(** ** Pipeline exit status (src/src/execute.c, execute_pipeline) *)

Module Pipeline.

(** Outcome of [waitpid(pids[i], &status, WUNTRACED)] for one stage. *)
Inductive wait_outcome :=
  | WaitFailed                (* waitpid returned < 0 *)
  | Exited (code : Z)         (* WIFEXITED, WEXITSTATUS = code (0..255) *)
  | Signaled (sig : Z)        (* WIFSIGNALED, WTERMSIG = sig *)
  | Stopped (sig : Z).        (* WIFSTOPPED (WUNTRACED) *)

Definition SHELL_SUCCESS : Z := 0.
Definition SHELL_FAILURE : Z := 1.

(** One iteration of the parent's wait loop (lines 124-134). *)
Definition wait_step (exit_status : Z) (w : wait_outcome) : Z :=
  match w with
  | WaitFailed => SHELL_FAILURE
  | Exited c => if negb (c =? 0) then c else exit_status
  | Signaled s => 128 + s
  | Stopped _ => exit_status
  end.

(** The exit status computed for a pipeline of N >= 2 stages, given the wait
    outcomes of its stages in order. *)
Definition pipeline_status (ws : list wait_outcome) : Z :=
  fold_left wait_step ws SHELL_SUCCESS.

(** Status a single stage contributes, if any: [None] when it leaves the
    running status untouched. *)
Definition stage_code (w : wait_outcome) : option Z :=
  match w with
  | WaitFailed => Some SHELL_FAILURE
  | Exited c => if c =? 0 then None else Some c
  | Signaled s => Some (128 + s)
  | Stopped _ => None
  end.

(** Code of the last stage that contributes one, scanning left to right. *)
Fixpoint last_code (ws : list wait_outcome) : option Z :=
  match ws with
  | [] => None
  | w :: ws' =>
      match last_code ws' with
      | Some c => Some c
      | None => stage_code w
      end
  end.

(** The pipeline rule as the claim words it: if some stage was signaled, 128
    plus the signal of the last signaled stage; otherwise the status of the
    last stage that exited non-zero; otherwise zero. *)
Fixpoint last_signaled (ws : list wait_outcome) : option Z :=
  match ws with
  | [] => None
  | w :: ws' =>
      match last_signaled ws' with
      | Some s => Some s
      | None => match w with Signaled s => Some s | _ => None end
      end
  end.

Fixpoint last_nonzero_exit (ws : list wait_outcome) : option Z :=
  match ws with
  | [] => None
  | w :: ws' =>
      match last_nonzero_exit ws' with
      | Some c => Some c
      | None => match w with Exited c => if c =? 0 then None else Some c | _ => None end
      end
  end.

Definition claimed_status (ws : list wait_outcome) : Z :=
  match last_signaled ws with
  | Some s => 128 + s
  | None => match last_nonzero_exit ws with Some c => c | None => 0 end
  end.

End Pipeline.

(* ------------------------------------------------------------------ *)
(** ** Tokens and the tokenizer (unnamed/part_003, tokenize_input) *)

Module Token.

Inductive token_type :=
  | TOKEN_WORD | TOKEN_PIPE | TOKEN_SEMICOLON | TOKEN_AMPERSAND
  | TOKEN_AND | TOKEN_OR | TOKEN_INPUT_REDIRECT | TOKEN_OUTPUT_REDIRECT
  | TOKEN_OUTPUT_APPEND | TOKEN_HEREDOC | TOKEN_HERESTRING
  | TOKEN_LPAREN | TOKEN_RPAREN | TOKEN_NEWLINE | TOKEN_EOF.

Definition token_type_eqb (a b : token_type) : bool :=
  match a, b with
  | TOKEN_WORD, TOKEN_WORD | TOKEN_PIPE, TOKEN_PIPE
  | TOKEN_SEMICOLON, TOKEN_SEMICOLON | TOKEN_AMPERSAND, TOKEN_AMPERSAND
  | TOKEN_AND, TOKEN_AND | TOKEN_OR, TOKEN_OR
  | TOKEN_INPUT_REDIRECT, TOKEN_INPUT_REDIRECT
  | TOKEN_OUTPUT_REDIRECT, TOKEN_OUTPUT_REDIRECT
  | TOKEN_OUTPUT_APPEND, TOKEN_OUTPUT_APPEND | TOKEN_HEREDOC, TOKEN_HEREDOC
  | TOKEN_HERESTRING, TOKEN_HERESTRING | TOKEN_LPAREN, TOKEN_LPAREN
  | TOKEN_RPAREN, TOKEN_RPAREN | TOKEN_NEWLINE, TOKEN_NEWLINE
  | TOKEN_EOF, TOKEN_EOF => true
  | _, _ => false
  end.

(** [token_t]: type, textual payload and the quoted marker. *)
Record token := mk_token { ttype : token_type; value : string; quoted : bool }.

Definition is_type (t : token) (ty : token_type) : bool := token_type_eqb (ttype t) ty.

End Token.

Module Tokenizer.
Import Token.

Definition MAX_TOKENS : nat := 1024.
Definition MAX_TOKEN_LENGTH : nat := 1024.

Definition NUL : ascii := "000".
Definition BSLASH : ascii := "092".
Definition DQUOTE : ascii := "034".
Definition SQUOTE : ascii := "039".

(** C's [isspace] in the "C" locale: space, \t, \n, \v, \f, \r. *)
Definition isspace (c : ascii) : bool :=
  let n := nat_of_ascii c in
  (n =? 32)%nat || (n =? 9)%nat || (n =? 10)%nat || (n =? 11)%nat
  || (n =? 12)%nat || (n =? 13)%nat.

Definition is_newline (c : ascii) : bool := Ascii.eqb c "010".

(** [*p] on a C string: the terminating NUL once the list is exhausted. *)
Definition peek (l : list ascii) : ascii :=
  match l with [] => NUL | c :: _ => c end.

Definition tail (l : list ascii) : list ascii :=
  match l with [] => [] | _ :: r => r end.

(** [while (isspace( *curr) && *curr != '\n') curr++;] *)
Fixpoint skip_blanks (l : list ascii) : list ascii :=
  match l with
  | c :: r => if isspace c && negb (is_newline c) then skip_blanks r else l
  | [] => []
  end.

(** [while ( *curr && *curr != '\n') curr++;] *)
Fixpoint skip_comment (l : list ascii) : list ascii :=
  match l with
  | c :: r => if Ascii.eqb c NUL || is_newline c then l else skip_comment r
  | [] => []
  end.

(** Escape translation inside double quotes (lines 166-178). *)
Definition dq_escape (c : ascii) : list ascii :=
  if Ascii.eqb c "n" then ["010"%char]
  else if Ascii.eqb c "t" then ["009"%char]
  else if Ascii.eqb c "r" then ["013"%char]
  else if Ascii.eqb c BSLASH then [BSLASH]
  else if Ascii.eqb c DQUOTE then [DQUOTE]
  else if Ascii.eqb c "$" then ["$"%char]
  else if Ascii.eqb c "`" then ["`"%char]
  else [BSLASH; c].

(** Body of a quoted word (lines 163-183): returns the payload (reversed) and
    the input left at the closing quote or at the end of the string. *)
Fixpoint quoted_loop (fuel : nat) (quote : ascii) (is_double : bool)
    (len : nat) (acc : list ascii) (l : list ascii) : list ascii * list ascii :=
  match fuel with
  | O => (acc, l)
  | S fuel' =>
    match l with
    | c :: r =>
        if negb (Ascii.eqb c NUL) && negb (Ascii.eqb c quote)
           && (len <? MAX_TOKEN_LENGTH - 1)%nat then
          if Ascii.eqb c BSLASH && is_double && negb (Ascii.eqb (peek r) NUL) then
            let e := dq_escape (peek r) in
            quoted_loop fuel' quote is_double (len + List.length e) (rev e ++ acc) (tail r)
          else quoted_loop fuel' quote is_double (S len) (c :: acc) r
        else (acc, l)
    | [] => (acc, l)
    end
  end.

Definition is_word_stop (c : ascii) : bool :=
  Ascii.eqb c "|" || Ascii.eqb c "&" || Ascii.eqb c ";" || Ascii.eqb c "<"
  || Ascii.eqb c ">" || Ascii.eqb c "(" || Ascii.eqb c ")" || Ascii.eqb c "#".

(** Body of an unquoted word (lines 195-210). *)
Fixpoint word_loop (fuel : nat) (len : nat) (acc : list ascii) (l : list ascii)
    : list ascii * list ascii :=
  match fuel with
  | O => (acc, l)
  | S fuel' =>
    match l with
    | c :: r =>
        if negb (Ascii.eqb c NUL) && negb (isspace c) && (len <? MAX_TOKEN_LENGTH - 1)%nat then
          if is_word_stop c then (acc, l)
          else if Ascii.eqb c BSLASH && negb (Ascii.eqb (peek r) NUL) then
            word_loop fuel' (S len) (peek r :: acc) (tail r)
          else word_loop fuel' (S len) (c :: acc) r
        else (acc, l)
    | [] => (acc, l)
    end
  end.

Definition op (ty : token_type) (s : string) : token := mk_token ty s false.

(** The main scanning loop (lines 62-217); [cnt] is [token_cnt], tokens are
    accumulated in reverse. *)
Fixpoint tok_loop (fuel : nat) (max_tokens : nat) (cnt : nat) (acc : list token)
    (l : list ascii) : nat * list token :=
  match fuel with
  | O => (cnt, acc)
  | S fuel' =>
    if Ascii.eqb (peek l) NUL || negb (cnt <? max_tokens - 1)%nat then (cnt, acc) else
    let l := skip_blanks l in
    let c := peek l in
    if Ascii.eqb c NUL then (cnt, acc) else
    if is_newline c then
      tok_loop fuel' max_tokens (S cnt) (op TOKEN_NEWLINE "\n" :: acc) (tail l)
    else if Ascii.eqb c "#" then
      tok_loop fuel' max_tokens cnt acc (skip_comment l)
    else if Ascii.eqb c "|" then
      if Ascii.eqb (peek (tail l)) "|" then
        tok_loop fuel' max_tokens (S cnt) (op TOKEN_OR "||" :: acc) (tail (tail l))
      else tok_loop fuel' max_tokens (S cnt) (op TOKEN_PIPE "|" :: acc) (tail l)
    else if Ascii.eqb c "&" then
      if Ascii.eqb (peek (tail l)) "&" then
        tok_loop fuel' max_tokens (S cnt) (op TOKEN_AND "&&" :: acc) (tail (tail l))
      else tok_loop fuel' max_tokens (S cnt) (op TOKEN_AMPERSAND "&" :: acc) (tail l)
    else if Ascii.eqb c ";" then
      tok_loop fuel' max_tokens (S cnt) (op TOKEN_SEMICOLON ";" :: acc) (tail l)
    else if Ascii.eqb c "(" then
      tok_loop fuel' max_tokens (S cnt) (op TOKEN_LPAREN "(" :: acc) (tail l)
    else if Ascii.eqb c ")" then
      tok_loop fuel' max_tokens (S cnt) (op TOKEN_RPAREN ")" :: acc) (tail l)
    else if Ascii.eqb c "<" then
      if Ascii.eqb (peek (tail l)) "<" then
        if Ascii.eqb (peek (tail (tail l))) "<" then
          tok_loop fuel' max_tokens (S cnt) (op TOKEN_HERESTRING "<<<" :: acc) (tail (tail (tail l)))
        else tok_loop fuel' max_tokens (S cnt) (op TOKEN_HEREDOC "<<" :: acc) (tail (tail l))
      else tok_loop fuel' max_tokens (S cnt) (op TOKEN_INPUT_REDIRECT "<" :: acc) (tail l)
    else if Ascii.eqb c ">" then
      if Ascii.eqb (peek (tail l)) ">" then
        tok_loop fuel' max_tokens (S cnt) (op TOKEN_OUTPUT_APPEND ">>" :: acc) (tail (tail l))
      else tok_loop fuel' max_tokens (S cnt) (op TOKEN_OUTPUT_REDIRECT ">" :: acc) (tail l)
    else if Ascii.eqb c DQUOTE || Ascii.eqb c SQUOTE then
      let '(v, rest) := quoted_loop (List.length l) c (Ascii.eqb c DQUOTE) 0 [] (tail l) in
      let rest := if Ascii.eqb (peek rest) c then tail rest else rest in
      tok_loop fuel' max_tokens (S cnt)
        (mk_token TOKEN_WORD (string_of_list_ascii (rev v)) true :: acc) rest
    else if negb (isspace c) then
      let '(v, rest) := word_loop (List.length l) 0 [] l in
      tok_loop fuel' max_tokens (S cnt)
        (mk_token TOKEN_WORD (string_of_list_ascii (rev v)) false :: acc) rest
    else tok_loop fuel' max_tokens cnt acc l
  end.

(** [tokenize_input(input, tokens, max_tokens)]: the token array and the
    returned count (lines 58-228). *)
Definition tokenize_input (input : string) (max_tokens : nat) : nat * list token :=
  let '(cnt, acc) := tok_loop (S (String.length input)) max_tokens 0 [] (list_ascii_of_string input) in
  if (cnt <? max_tokens)%nat
  then (S cnt, rev (mk_token TOKEN_EOF EmptyString false :: acc))
  else (cnt, rev acc).

Definition tokens_of (input : string) : list token := snd (tokenize_input input MAX_TOKENS).

End Tokenizer.

(* ------------------------------------------------------------------ *)
(** ** Grammar validator (unnamed/part_003, validate_* and
    shell_validate_syntax).  A position [pos] into the token array is
    represented by the suffix of the array starting at [pos]; [Some rest] is
    [PARSE_SUCCESS] with [*pos] advanced to [rest], [None] is
    [PARSE_SYNTAX_ERROR]. *)

Module Validator.
Import Token Tokenizer.

Definition PARSE_SUCCESS : Z := 0.
Definition PARSE_SYNTAX_ERROR : Z := 1.
Definition PARSE_TOO_MANY_TOKENS : Z := 2.

Definition is_at_end (ts : list token) : bool :=
  match ts with
  | [] => true
  | t :: _ => is_type t TOKEN_EOF || is_type t TOKEN_NEWLINE
  end.

Definition is_operator_token (ty : token_type) : bool :=
  token_type_eqb ty TOKEN_PIPE || token_type_eqb ty TOKEN_SEMICOLON
  || token_type_eqb ty TOKEN_AMPERSAND || token_type_eqb ty TOKEN_AND
  || token_type_eqb ty TOKEN_OR.

Definition validate_name (ts : list token) : option (list token) :=
  if is_at_end ts then None else
  match ts with
  | t :: r => if is_type t TOKEN_WORD then Some r else None
  | [] => None
  end.

Definition validate_input (ts : list token) : option (list token) :=
  if is_at_end ts then None else
  match ts with
  | t :: r => if is_type t TOKEN_INPUT_REDIRECT then validate_name r else None
  | [] => None
  end.

Definition validate_output (ts : list token) : option (list token) :=
  if is_at_end ts then None else
  match ts with
  | t :: r =>
      if is_type t TOKEN_OUTPUT_REDIRECT || is_type t TOKEN_OUTPUT_APPEND
      then validate_name r else None
  | [] => None
  end.

(** The [while] loop of [validate_atomic] (lines 293-318). *)
Fixpoint atomic_loop (fuel : nat) (ts : list token) : option (list token) :=
  match fuel with
  | O => Some ts
  | S fuel' =>
    if is_at_end ts then Some ts else
    match ts with
    | t :: _ =>
      if is_operator_token (ttype t) || is_type t TOKEN_LPAREN || is_type t TOKEN_RPAREN
      then Some ts
      else if is_type t TOKEN_INPUT_REDIRECT then
        match validate_input ts with Some r => atomic_loop fuel' r | None => None end
      else if is_type t TOKEN_OUTPUT_REDIRECT || is_type t TOKEN_OUTPUT_APPEND then
        match validate_output ts with Some r => atomic_loop fuel' r | None => None end
      else if is_type t TOKEN_WORD then
        match validate_name ts with Some r => atomic_loop fuel' r | None => None end
      else None
    | [] => Some ts
    end
  end.

Definition validate_atomic (ts : list token) : option (list token) :=
  if is_at_end ts then None else
  match validate_name ts with
  | Some r => atomic_loop (List.length r) r
  | None => None
  end.

Fixpoint pipeline_loop (fuel : nat) (ts : list token) : option (list token) :=
  match fuel with
  | O => Some ts
  | S fuel' =>
    if is_at_end ts then Some ts else
    match ts with
    | t :: r =>
      if is_type t TOKEN_PIPE then
        if is_at_end r then None else
        match r with
        | u :: _ =>
          if negb (is_type u TOKEN_WORD) then None else
          match validate_atomic r with Some r' => pipeline_loop fuel' r' | None => None end
        | [] => None
        end
      else Some ts
    | [] => Some ts
    end
  end.

Definition validate_pipeline (ts : list token) : option (list token) :=
  match ts with
  | t :: _ => if negb (is_at_end ts) && is_type t TOKEN_PIPE then None else
      match validate_atomic ts with Some r => pipeline_loop (List.length r) r | None => None end
  | [] => match validate_atomic ts with Some r => pipeline_loop (List.length r) r | None => None end
  end.

Fixpoint and_or_loop (fuel : nat) (ts : list token) : option (list token) :=
  match fuel with
  | O => Some ts
  | S fuel' =>
    if is_at_end ts then Some ts else
    match ts with
    | t :: r =>
      if is_type t TOKEN_AND || is_type t TOKEN_OR then
        if is_at_end r then None else
        match validate_pipeline r with Some r' => and_or_loop fuel' r' | None => None end
      else Some ts
    | [] => Some ts
    end
  end.

Definition validate_and_or (ts : list token) : option (list token) :=
  match validate_pipeline ts with Some r => and_or_loop (List.length r) r | None => None end.

(** The top-level loop of [validate_shell_cmd] (lines 392-409); it returns
    the final parse result. *)
Fixpoint shell_cmd_loop (fuel : nat) (ts : list token) : Z :=
  match fuel with
  | O => PARSE_SUCCESS
  | S fuel' =>
    if is_at_end ts then PARSE_SUCCESS else
    match ts with
    | t :: r =>
      if is_type t TOKEN_AMPERSAND || is_type t TOKEN_SEMICOLON then
        if is_at_end r then PARSE_SUCCESS else
        match validate_and_or r with
        | Some r' => shell_cmd_loop fuel' r'
        | None => PARSE_SYNTAX_ERROR
        end
      else PARSE_SYNTAX_ERROR
    | [] => PARSE_SUCCESS
    end
  end.

Definition validate_shell_cmd (ts : list token) : Z :=
  if is_at_end ts then PARSE_SUCCESS else
  match validate_and_or ts with
  | Some r => shell_cmd_loop (List.length r) r
  | None => PARSE_SYNTAX_ERROR
  end.

Definition shell_validate_syntax (input : string) : Z :=
  let '(cnt, ts) := tokenize_input input MAX_TOKENS in
  if (MAX_TOKENS <=? cnt)%nat then PARSE_TOO_MANY_TOKENS
  else validate_shell_cmd ts.

End Validator.

(* ------------------------------------------------------------------ *)
(** ** And-or lists and sequential lists (src/src/execute.c,
    execute_and_or_list, execute_sequential_commands,
    execute_shell_command_with_operators). *)

Module Exec.
Import Token.

Section Executor.

(** The shell state threaded through execution (variables, jobs, output...). *)
Variable St : Type.

(** Executing one segment without [&&], [||], [;], [&]: lines 309-321 of
    execute_and_or_list (and 378-390 of execute_sequential_commands), i.e.
    [parse_pipeline_from_tokens] + [execute_pipeline] when the segment has a
    pipe, [parse_command_from_tokens] + [execute_single_command] otherwise.
    [None] is a parse that returned NULL: nothing runs and [last_result] is
    kept. *)
Variable exec_segment : St -> list token -> St * option Z.

(** [execute_background_command] on a segment terminated by [&]. *)
Variable exec_background : St -> list token -> St * Z.

Definition run_seg (seg : list token) (last_result : Z) (s : St) : St * Z :=
  match seg with
  | [] => (s, last_result)                     (* segment_length == 0 *)
  | _ =>
    match exec_segment s seg with
    | (s', Some r) => (s', r)
    | (s', None) => (s', last_result)
    end
  end.

(** Where the index [i] of the [for] loop of execute_and_or_list is: scanning
    normally, or inside one of the two inner skip loops (lines 329-334 and
    341-346). *)
Inductive scan_mode := Scan | SkipUntilOr | SkipUntilAnd.

Definition is_seq_sep (t : token) : bool :=
  is_type t TOKEN_SEMICOLON || is_type t TOKEN_AMPERSAND.

(** [execute_and_or_list]: [seg] holds [tokens[start..i)], [ts] holds
    [tokens[i..token_count)]. *)
Fixpoint and_or_loop (mode : scan_mode) (seg : list token) (ts : list token)
    (last_result : Z) (s : St) : St * Z :=
  match mode with
  | Scan =>
    match ts with
    | [] => run_seg seg last_result s
    | t :: ts' =>
      if is_type t TOKEN_EOF then run_seg seg last_result s
      else if is_type t TOKEN_AND || is_type t TOKEN_OR then
        let '(s1, r1) := run_seg seg last_result s in
        if is_type t TOKEN_AND && negb (r1 =? 0) then and_or_loop SkipUntilOr [] ts' r1 s1
        else if is_type t TOKEN_OR && (r1 =? 0) then and_or_loop SkipUntilAnd [] ts' r1 s1
        else and_or_loop Scan [] ts' r1 s1
      else and_or_loop Scan (seg ++ [t]) ts' last_result s
    end
  | SkipUntilOr =>
    match ts with
    | [] => (s, last_result)
    | t :: ts' =>
      if is_type t TOKEN_OR || is_seq_sep t then and_or_loop Scan [] ts' last_result s
      else and_or_loop SkipUntilOr [] ts' last_result s
    end
  | SkipUntilAnd =>
    match ts with
    | [] => (s, last_result)
    | t :: ts' =>
      if is_type t TOKEN_AND || is_seq_sep t then and_or_loop Scan [] ts' last_result s
      else and_or_loop SkipUntilAnd [] ts' last_result s
    end
  end.

Definition SHELL_SUCCESS : Z := 0.
Definition SHELL_FAILURE : Z := 1.

Definition execute_and_or_list (s : St) (tokens : list token) : St * Z :=
  and_or_loop Scan [] tokens SHELL_SUCCESS s.

Definition has_and_or (ts : list token) : bool :=
  existsb (fun t => is_type t TOKEN_AND || is_type t TOKEN_OR) ts.

Definition has_sequential_or_background (ts : list token) : bool :=
  existsb is_seq_sep ts.

(** One segment of execute_sequential_commands (lines 373-391). *)
Definition seq_segment (is_bg : bool) (seg : list token) (last_result : Z) (s : St) : St * Z :=
  match seg with
  | [] => (s, last_result)
  | _ =>
    if is_bg then exec_background s seg
    else if has_and_or seg then execute_and_or_list s seg
    else run_seg seg last_result s
  end.

Fixpoint seq_loop (seg : list token) (ts : list token) (last_result : Z) (s : St) : St * Z :=
  match ts with
  | [] => seq_segment false seg last_result s
  | t :: ts' =>
    if is_type t TOKEN_EOF then
      (* is_end: the segment runs; the loop goes on with the tokens after EOF *)
      let '(s1, r1) := seq_segment false seg last_result s in seq_loop [] ts' r1 s1
    else if is_seq_sep t then
      let '(s1, r1) := seq_segment (is_type t TOKEN_AMPERSAND) seg last_result s in
      seq_loop [] ts' r1 s1
    else seq_loop (seg ++ [t]) ts' last_result s
  end.

Definition execute_sequential_commands (s : St) (tokens : list token) : St * Z :=
  seq_loop [] tokens SHELL_SUCCESS s.

(** [execute_shell_command]: the whole token array as one segment; a parse
    failure returns SHELL_FAILURE. *)
Definition execute_shell_command (s : St) (tokens : list token) : St * Z :=
  match tokens with
  | [] => (s, SHELL_FAILURE)
  | _ => match exec_segment s tokens with
         | (s', Some r) => (s', r)
         | (s', None) => (s', SHELL_FAILURE)
         end
  end.

Definition execute_shell_command_with_operators (s : St) (tokens : list token) : St * Z :=
  match tokens with
  | [] => (s, SHELL_FAILURE)
  | _ =>
    if has_sequential_or_background tokens then execute_sequential_commands s tokens
    else if has_and_or tokens then execute_and_or_list s tokens
    else execute_shell_command s tokens
  end.

(** The and-or list as the specification describes it: pipelines
    [P1 op1 P2 ... opn Pn+1] evaluated left to right, a pipeline after [&&]
    only when the previous result is 0, after [||] only when it is non-zero,
    the result being that of the last pipeline evaluated. *)
Inductive andor_op := OpAnd | OpOr.

Definition op_token (o : andor_op) : token :=
  match o with
  | OpAnd => mk_token TOKEN_AND "&&" false
  | OpOr => mk_token TOKEN_OR "||" false
  end.

Definition should_run (o : andor_op) (prev : Z) : bool :=
  match o with OpAnd => prev =? 0 | OpOr => negb (prev =? 0) end.

Fixpoint andor_rest (rest : list (andor_op * list token)) (prev : Z) (s : St) : St * Z :=
  match rest with
  | [] => (s, prev)
  | (o, p) :: rest' =>
    if should_run o prev then
      let '(s1, r1) := run_seg p prev s in andor_rest rest' r1 s1
    else andor_rest rest' prev s
  end.

Definition andor_spec (p : list token) (rest : list (andor_op * list token)) (s : St) : St * Z :=
  let '(s1, r1) := run_seg p SHELL_SUCCESS s in andor_rest rest r1 s1.

(** The token array of such a list. *)
Definition andor_tokens (p : list token) (rest : list (andor_op * list token)) : list token :=
  p ++ flat_map (fun '(o, q) => op_token o :: q) rest.

(** A pipeline's tokens contain no list operator and no end marker. *)
Definition plain (t : token) : bool :=
  negb (is_type t TOKEN_AND || is_type t TOKEN_OR || is_seq_sep t || is_type t TOKEN_EOF).

End Executor.


End Exec.

(* ------------------------------------------------------------------ *)
(** ** The two commands of the spec's scenario [false && echo a ; echo b ||
    echo c]: [false] exits 1, [echo] prints its arguments joined by blanks
    and a newline and exits 0.  The world records every argv that was run
    and the standard output. *)

Module Scenario.
Import Token Tokenizer Exec.

Definition world : Type := (list (list string) * list string)%type.

Definition NL : string := String "010"%char EmptyString.

(** The argv built from a segment without redirections. *)
Definition argv_of (seg : list token) : list string :=
  map value (filter (fun t => is_type t TOKEN_WORD) seg).

Definition scenario_segment (w : world) (seg : list token) : world * option Z :=
  let argv := argv_of seg in
  let ran := fst w ++ [argv] in
  match argv with
  | "false"%string :: _ => ((ran, snd w), Some 1)
  | "true"%string :: _ => ((ran, snd w), Some 0)
  | "echo"%string :: args => ((ran, snd w ++ [(concat " " args ++ NL)%string]), Some 0)
  | _ => ((ran, snd w), Some 127)
  end.

Definition scenario_background (w : world) (seg : list token) : world * Z := (w, 0).

Definition run_line (line : string) : world * Z :=
  execute_shell_command_with_operators world scenario_segment scenario_background
    ([], []) (tokens_of line).

End Scenario.

(* ------------------------------------------------------------------ *)
(** ** One iteration of the main loop (src/src/core/main.c, lines 56-130)
    with its two input paths: [shell_readline] when interactive and
    [shell_read_input] (src/src/core/input.c) otherwise. *)

Module MainLoop.
Import Token Tokenizer Validator.

Record shell := mk_shell {
  last_exit_status : Z;            (* $? *)
  err : list string;               (* what was written to stderr *)
  hist : list string;              (* history_add *)
  ran : list (list token)          (* token arrays handed to the executor *)
}.

Definition eprint (s : shell) (m : string) : shell :=
  mk_shell (last_exit_status s) (err s ++ [m]) (hist s) (ran s).

Definition history_add (s : shell) (line : string) : shell :=
  mk_shell (last_exit_status s) (err s) (hist s ++ [line]) (ran s).

Inductive mode := Interactive | NonInteractive.

(** [shell_read_input] on a line read by fgets (newline stripped): a line
    the validator rejects is replaced by the empty string after the
    message. *)
Definition shell_read_input (s : shell) (line : string) : shell * string :=
  if shell_validate_syntax line =? PARSE_SYNTAX_ERROR
  then (eprint s ("Invalid Syntax!" ++ Scenario.NL)%string, EmptyString)
  else (s, line).

Section Main.

(** [preprocess_input]: alias then variable expansion. *)
Variable preprocess_input : string -> string.
(** [execute_shell_command_with_operators] on the token array, with its
    effects on the shell (including [update_exit_status]). *)
Variable execute : shell -> list token -> shell.

(** One iteration for a line that was read (the [NULL]/EOF exit is not
    part of it).  In interactive mode [shell_readline] returns the committed
    line as typed. *)
Definition main_iteration (m : mode) (line : string) (s : shell) : shell :=
  let '(s1, input_str) :=
    match m with
    | Interactive => (s, line)
    | NonInteractive => shell_read_input s line
    end in
  if String.eqb input_str EmptyString then s1 else
  let s2 := history_add s1 input_str in
  let processed := preprocess_input input_str in
  let '(token_count, tokens) := tokenize_input processed MAX_TOKENS in
  if (0 <? token_count)%nat then execute s2 tokens else s2.

End Main.

(** An executor for the scenario commands: records the token array and sets
    [$?] to the list's result. *)
Definition scenario_execute (s : shell) (ts : list token) : shell :=
  let r := snd (Exec.execute_shell_command_with_operators Scenario.world
                  Scenario.scenario_segment Scenario.scenario_background ([], []) ts) in
  mk_shell r (err s) (hist s) (ran s ++ [ts]).

Definition initial_shell : shell := mk_shell 0 [] [] [].

End MainLoop.

(* ------------------------------------------------------------------ *)
(** ** The shell variable store (src/src/builtins/builtins_ai.c, lines
    353-591 and 652-776): an open-addressing hash table of
    [MAX_VARIABLES] slots, the process environment, and the special
    parameters read by [get_variable]. *)

Module Variables.

Definition MAX_VARIABLES : Z := 1024.
Definition MAX_VAR_NAME_LENGTH : nat := 256.

Definition VAR_FLAG_EXPORTED : Z := 1.
Definition VAR_FLAG_READONLY : Z := 2.
Definition VAR_FLAG_LOCAL : Z := 4.
Definition VAR_FLAG_INTEGER : Z := 8.

(** [shell_var_t] *)
Record shell_var := mk_var { var_name : string; var_value : string; var_flags : Z }.

(** The globals of the store.  [variables] has [MAX_VARIABLES] slots, a
    [NULL] slot being [None]; [environ] is the process environment as an
    ordered list of (name, value) pairs; [verr] collects what is written to
    stderr.  [g_positional_args] is [None] for a [NULL] array, its element 0
    being [$0]. *)
Record vstate := mk_vstate {
  variables : list (option shell_var);
  variable_count : Z;
  environ : list (string * string);
  g_last_exit_status : Z;
  g_shell_pid : Z;
  g_last_background_pid : Z;
  g_arg_count : Z;
  g_positional_args : option (list string);
  verr : list string
}.

Definition with_variables (st : vstate) (tbl : list (option shell_var)) (cnt : Z) : vstate :=
  mk_vstate tbl cnt (environ st) (g_last_exit_status st) (g_shell_pid st)
    (g_last_background_pid st) (g_arg_count st) (g_positional_args st) (verr st).

Definition with_environ (st : vstate) (env : list (string * string)) : vstate :=
  mk_vstate (variables st) (variable_count st) env (g_last_exit_status st) (g_shell_pid st)
    (g_last_background_pid st) (g_arg_count st) (g_positional_args st) (verr st).

Definition veprint (st : vstate) (m : string) : vstate :=
  mk_vstate (variables st) (variable_count st) (environ st) (g_last_exit_status st)
    (g_shell_pid st) (g_last_background_pid st) (g_arg_count st) (g_positional_args st)
    (verr st ++ [m]).

(** [variables[i]] *)
Definition slot (tbl : list (option shell_var)) (i : Z) : option shell_var :=
  nth (Z.to_nat i) tbl None.

(** [variables[i] = x] *)
Fixpoint set_slot (tbl : list (option shell_var)) (i : nat) (x : option shell_var)
    : list (option shell_var) :=
  match tbl, i with
  | [], _ => []
  | _ :: r, O => x :: r
  | y :: r, S i' => y :: set_slot r i' x
  end.

(** [int c = *name++]: a plain [char] is signed on the targets the shell is
    built for, so bytes above 127 enter the hash as negative values. *)
Definition char_code (c : ascii) : Z :=
  let n := Z.of_nat (nat_of_ascii c) in if n <? 128 then n else n - 256.

(** [hash = ((hash << 5) + hash) + c] on an [unsigned int]. *)
Fixpoint djb2 (hash : Z) (s : string) : Z :=
  match s with
  | EmptyString => hash
  | String c s' => djb2 ((Z.shiftl hash 5 + hash + char_code c) mod 2 ^ 32) s'
  end.

Definition hash_name (name : string) : Z := djb2 5381 name mod MAX_VARIABLES.

(** The probe loop of [find_variable]: stops at a [NULL] slot, at the name,
    or when the index comes back to [start].  [MAX_VARIABLES] rounds are
    enough for the last case, so the fuel never runs out first. *)
Fixpoint find_loop (fuel : nat) (tbl : list (option shell_var)) (name : string)
    (start index : Z) : option (Z * shell_var) :=
  match fuel with
  | O => None
  | S f =>
      match slot tbl index with
      | None => None
      | Some v =>
          if String.eqb (var_name v) name then Some (index, v) else
          let index' := (index + 1) mod MAX_VARIABLES in
          if index' =? start then None else find_loop f tbl name start index'
      end
  end.

(** [find_variable]: the slot holding the entry, and the entry. *)
Definition find_variable (st : vstate) (name : string) : option (Z * shell_var) :=
  let h := hash_name name in
  find_loop (Z.to_nat MAX_VARIABLES) (variables st) name h h.

(** [while (variables[index] != NULL) index = (index + 1) % MAX_VARIABLES;]
    in [set_variable]: [None] when all [MAX_VARIABLES] slots are taken, where
    the C loop never ends. *)
Fixpoint free_loop (fuel : nat) (tbl : list (option shell_var)) (index : Z) : option Z :=
  match fuel with
  | O => None
  | S f =>
      match slot tbl index with
      | None => Some index
      | Some _ => free_loop f tbl ((index + 1) mod MAX_VARIABLES)
      end
  end.

(** The removal loop of [unset_variable]: the first slot from [index] on
    holding [name], before a [NULL] slot. *)
Fixpoint unset_loop (fuel : nat) (tbl : list (option shell_var)) (name : string)
    (index : Z) : option Z :=
  match fuel with
  | O => None
  | S f =>
      match slot tbl index with
      | None => None
      | Some v =>
          if String.eqb (var_name v) name then Some index
          else unset_loop f tbl name ((index + 1) mod MAX_VARIABLES)
      end
  end.

(** [getenv], [setenv(name, value, 1)] and [unsetenv] on the environment. *)
Fixpoint getenv (env : list (string * string)) (name : string) : option string :=
  match env with
  | [] => None
  | (n, v) :: r => if String.eqb n name then Some v else getenv r name
  end.

Fixpoint setenv (env : list (string * string)) (name value : string) : list (string * string) :=
  match env with
  | [] => [(name, value)]
  | (n, v) :: r => if String.eqb n name then (n, value) :: r else (n, v) :: setenv r name value
  end.

Definition unsetenv (env : list (string * string)) (name : string) : list (string * string) :=
  filter (fun p => negb (String.eqb (fst p) name)) env.

Definition has_flag (flags bit : Z) : bool := negb (Z.land flags bit =? 0).

(** [set_variable(name, value, flags)] for non-NULL [name] and [value]
    (allocation assumed to succeed): the return code and the new store, or
    [None] where the insertion loop runs forever. *)
Definition set_variable (st : vstate) (name value : string) (flags : Z) : option (Z * vstate) :=
  let export (st' : vstate) :=
    if has_flag flags VAR_FLAG_EXPORTED
    then with_environ st' (setenv (environ st') name value) else st' in
  match find_variable st name with
  | Some (i, existing) =>
      if has_flag (var_flags existing) VAR_FLAG_READONLY
      then Some (-1, veprint st (name ++ ": readonly variable" ++ String "010" EmptyString))
      else
        let v := mk_var (var_name existing) value (Z.lor (var_flags existing) flags) in
        Some (0, export (with_variables st (set_slot (variables st) (Z.to_nat i) (Some v))
                                          (variable_count st)))
  | None =>
      if MAX_VARIABLES <=? variable_count st
      then Some (-1, veprint st ("Too many variables" ++ String "010" EmptyString))
      else
        match free_loop (Z.to_nat MAX_VARIABLES) (variables st) (hash_name name) with
        | None => None
        | Some i =>
            let v := mk_var name value flags in
            Some (0, export (with_variables st (set_slot (variables st) (Z.to_nat i) (Some v))
                                              (variable_count st + 1)))
        end
  end.

(** [unset_variable(name)] for a non-NULL [name].  When [find_variable]
    finds the name, the removal loop walks the same probe sequence and
    reaches it, so its [None] case only arises for names not in the table. *)
Definition unset_variable (st : vstate) (name : string) : Z * vstate :=
  match find_variable st name with
  | None => (0, with_environ st (unsetenv (environ st) name))
  | Some (_, var) =>
      if has_flag (var_flags var) VAR_FLAG_READONLY
      then (-1, veprint st (name ++ ": readonly variable" ++ String "010" EmptyString))
      else
        let st1 :=
          match unset_loop (Z.to_nat MAX_VARIABLES) (variables st) name (hash_name name) with
          | Some i => with_variables st (set_slot (variables st) (Z.to_nat i) None)
                                         (variable_count st - 1)
          | None => st
          end in
        (0, with_environ st1 (unsetenv (environ st1) name))
  end.

(** [snprintf(buf, .., "%d", n)] *)
Fixpoint digits_rev (fuel : nat) (n : Z) : list ascii :=
  match fuel with
  | O => []
  | S f =>
      let d := ascii_of_nat (48 + Z.to_nat (n mod 10)) in
      if n <? 10 then [d] else d :: digits_rev f (n / 10)
  end.

Definition Z_to_dec (z : Z) : string :=
  string_of_list_ascii ((if z <? 0 then ["-"%char] else []) ++ rev (digits_rev 32 (Z.abs z))).

(** C's [isdigit] and [isalnum] in the "C" locale. *)
Definition isdigit (c : ascii) : bool :=
  let n := nat_of_ascii c in (48 <=? n)%nat && (n <=? 57)%nat.

Definition isalnum (c : ascii) : bool :=
  let n := nat_of_ascii c in
  isdigit c || ((65 <=? n)%nat && (n <=? 90)%nat) || ((97 <=? n)%nat && (n <=? 122)%nat).

Definition is_varname_char (c : ascii) : bool := isalnum c || Ascii.eqb c "_".

(** [get_variable(name)] for a non-NULL [name]; [None] is [NULL]. *)
Definition get_variable (st : vstate) (name : string) : option string :=
  if String.eqb name "?" then Some (Z_to_dec (g_last_exit_status st))
  else if String.eqb name "$" then Some (Z_to_dec (g_shell_pid st))
  else if String.eqb name "!" then Some (Z_to_dec (g_last_background_pid st))
  else if String.eqb name "#" then Some (Z_to_dec (g_arg_count st))
  else if String.eqb name "0" then
    Some (match g_positional_args st with
          | Some args => nth 0 args EmptyString
          | None => "cshell"%string
          end)
  else
  match name with
  | String c EmptyString =>
      if isdigit c then
        let index := Z.of_nat (nat_of_ascii c) - 48 in
        Some (match g_positional_args st with
              | Some args =>
                  if (0 <? index) && (index <=? g_arg_count st)
                  then nth (Z.to_nat index) args EmptyString else EmptyString
              | None => EmptyString
              end)
      else if String.eqb name "@" || String.eqb name "*" then Some EmptyString
      else match find_variable st name with
           | Some (_, var) => Some (var_value var)
           | None => getenv (environ st) name
           end
  | _ =>
      match find_variable st name with
      | Some (_, var) => Some (var_value var)
      | None => getenv (environ st) name
      end
  end.

(** [strchr(start, '}')] as an offset. *)
Fixpoint index_of (c : ascii) (l : list ascii) : option nat :=
  match l with
  | [] => None
  | x :: r => if Ascii.eqb x c then Some O else option_map S (index_of c r)
  end.

Fixpoint take_while (p : ascii -> bool) (l : list ascii) : list ascii :=
  match l with [] => [] | x :: r => if p x then x :: take_while p r else [] end.

Fixpoint drop_while (p : ascii -> bool) (l : list ascii) : list ascii :=
  match l with [] => [] | x :: r => if p x then drop_while p r else l end.

Definition str (l : list ascii) : string := string_of_list_ascii l.

(** [expand_variable_reference(ref, &consumed)] on the characters of [ref]:
    the store afterwards, the returned string ([None] for [NULL]) and
    [consumed]; [None] where [set_variable] runs forever. *)
Definition expand_variable_reference (st : vstate) (ref : list ascii)
    : option (vstate * option string * nat) :=
  match ref with
  | "$"%char :: start =>
      match start with
      | "{"%char :: s =>
          match index_of "}"%char s with
          | None => Some (st, Some "$"%string, 1%nat)
          | Some e =>
              let inner := firstn e s in
              let get_length := match inner with "#"%char :: _ => true | _ => false end in
              let body := if get_length then tl inner else inner in
              let name_chars := take_while is_varname_char body in
              let p := drop_while is_varname_char body in
              let varname := str (firstn (MAX_VAR_NAME_LENGTH - 1) name_chars) in
              let '(use_default, assign_default, default_value) :=
                match p with
                | ":"%char :: "-"%char :: d => (true, false, Some (str d))
                | ":"%char :: "="%char :: d => (false, true, Some (str d))
                | _ => (false, false, None)
                end in
              let consumed := (e + 3)%nat in
              let value := get_variable st varname in
              let unset_case :=
                match assign_default, use_default, default_value with
                | true, _, Some d =>
                    match set_variable st varname d 0 with
                    | Some (_, st') => Some (st', Some d, consumed)
                    | None => None
                    end
                | _, true, Some d => Some (st, Some d, consumed)
                | _, _, _ => Some (st, Some EmptyString, consumed)
                end in
              if get_length then
                Some (st, Some (Z_to_dec (match value with
                                          | Some v => Z.of_nat (String.length v)
                                          | None => 0 end)), consumed)
              else
              match value with
              | Some v => if negb (String.eqb v EmptyString) then Some (st, Some v, consumed)
                          else unset_case
              | None => unset_case
              end
          end
      | c :: _ =>
          if existsb (Ascii.eqb c) ["?"; "$"; "!"; "#"; "@"; "*"; "0"]%char || isdigit c then
            let value := get_variable st (String c EmptyString) in
            Some (st, Some (match value with Some v => v | None => EmptyString end), 2%nat)
          else if is_varname_char c then
            let name_chars := take_while is_varname_char start in
            let namelen := Nat.min (List.length name_chars) (MAX_VAR_NAME_LENGTH - 1) in
            let value := get_variable st (str (firstn namelen name_chars)) in
            Some (st, Some (match value with Some v => v | None => EmptyString end), S namelen)
          else Some (st, Some "$"%string, 1%nat)
      | [] => Some (st, Some "$"%string, 1%nat)
      end
  | _ => Some (st, None, 0%nat)
  end.

(** The store right after [variables_init]'s [memset] with the given
    environment, before [sync_from_environment]. *)
Definition empty_store (env : list (string * string)) : vstate :=
  mk_vstate (repeat None (Z.to_nat MAX_VARIABLES)) 0 env 0 0 0 0 None [].

(** [sync_from_environment]: every [NAME=value] entry of [environ] is
    assigned with [VAR_FLAG_EXPORTED]. *)
Fixpoint sync_loop (env : list (string * string)) (st : vstate) : option vstate :=
  match env with
  | [] => Some st
  | (n, v) :: r =>
      match set_variable st n v VAR_FLAG_EXPORTED with
      | Some (_, st') => sync_loop r st'
      | None => None
      end
  end.

Definition sync_from_environment (st : vstate) : option vstate := sync_loop (environ st) st.

(** [is_variable_exported(name)] *)
Definition is_variable_exported (st : vstate) (name : string) : bool :=
  match find_variable st name with
  | Some (_, var) => has_flag (var_flags var) VAR_FLAG_EXPORTED
  | None => false
  end.

(** A store whose table holds a read-only [BA] behind a slot emptied by
    [unset_variable]: [Ab] and [BA] hash to the same slot, [Ab] is set, then
    [BA] with [VAR_FLAG_READONLY], then [Ab] is unset. *)
Definition readonly_behind_hole : option vstate :=
  match set_variable (empty_store []) "Ab" "1" 0 with
  | Some (_, s1) =>
      match set_variable s1 "BA" "2" VAR_FLAG_READONLY with
      | Some (_, s2) => Some (snd (unset_variable s2 "Ab"))
      | None => None
      end
  | None => None
  end.

End Variables.

(* ------------------------------------------------------------------ *)
(** ** Alias expansion (src/unnamed/part_005, lines 473-516), as called
    once by [preprocess_input] (src/unnamed/part_003, lines 42-54). *)

Module Aliases.

Section Expand.

(** [get_alias]: the value stored for a name in the alias table, [None]
    for [NULL]. *)
Variable get_alias : string -> option string.

(** [while ( *cmd_start && isspace( *cmd_start)) cmd_start++;] *)
Fixpoint split_blanks (l : list ascii) : list ascii * list ascii :=
  match l with
  | c :: r =>
      if Tokenizer.isspace c then let '(p, s) := split_blanks r in (c :: p, s)
      else ([], l)
  | [] => ([], [])
  end.

(** [while ( *cmd_end && !isspace( *cmd_end)) cmd_end++;] *)
Fixpoint split_word (l : list ascii) : list ascii * list ascii :=
  match l with
  | c :: r =>
      if Tokenizer.isspace c then ([], l)
      else let '(w, s) := split_word r in (c :: w, s)
  | [] => ([], [])
  end.

(** [expand_aliases(input)] (allocations assumed to succeed). *)
Definition expand_aliases (input : string) : string :=
  let '(prefix, cmd_start) := split_blanks (list_ascii_of_string input) in
  match cmd_start with
  | [] => input
  | _ =>
      let '(cmd, cmd_end) := split_word cmd_start in
      match get_alias (string_of_list_ascii cmd) with
      | Some alias_value =>
          string_of_list_ascii (prefix ++ list_ascii_of_string alias_value ++ cmd_end)
      | None => input
      end
  end.

End Expand.

(** An alias table given by its (name, value) entries. *)
Fixpoint lookup_alias (tbl : list (string * string)) (name : string) : option string :=
  match tbl with
  | [] => None
  | (n, v) :: r => if String.eqb n name then Some v else lookup_alias r name
  end.

End Aliases.

(* ------------------------------------------------------------------ *)
(** ** Glob pattern matching (src/unnamed/part_007, lines 63-132). *)

Module Glob.

(** The bracket expression loop: [d] is [*str], [p] the pattern after the
    optional negation; returns [matched] and the pattern left at the closing
    bracket or at the end.  [char] comparisons are signed. *)
Fixpoint class_loop (d : ascii) (p : list ascii) (matched : bool) : bool * list ascii :=
  match p with
  | [] => (matched, [])
  | c :: r =>
      if Ascii.eqb c "]" then (matched, p) else
      match r with
      | "-"%char :: e :: r' =>
          if Ascii.eqb e "]" then class_loop d r (matched || Ascii.eqb d c)
          else
            class_loop d r'
              (matched || ((Variables.char_code c <=? Variables.char_code d)
                           && (Variables.char_code d <=? Variables.char_code e)))
      | _ => class_loop d r (matched || Ascii.eqb d c)
      end
  end.

Fixpoint skip_stars (p : list ascii) : list ascii :=
  match p with
  | "*"%char :: r => skip_stars r
  | _ => p
  end.

(** [match_pattern(pattern, str)] with a fuel bound on the recursion: every
    round of the loop and every recursive call consumes at least one
    pattern character, so [S (length pattern)] is enough. *)
Fixpoint match_pattern_fuel (fuel : nat) (pattern str : list ascii) : bool :=
  match fuel with
  | O => false
  | S f =>
      match pattern, str with
      | c :: p', d :: s' =>
          if Ascii.eqb c "*" then
            let p'' := skip_stars pattern in
            match p'' with
            | [] => true
            | _ =>
                (fix try_at (s : list ascii) : bool :=
                   match s with
                   | [] => match_pattern_fuel f p'' []
                   | _ :: s1 => match_pattern_fuel f p'' s || try_at s1
                   end) str
            end
          else if Ascii.eqb c "?" then match_pattern_fuel f p' s'
          else if Ascii.eqb c "[" then
            let '(negated, p1) :=
              match p' with
              | x :: r => if Ascii.eqb x "!" || Ascii.eqb x "^" then (true, r) else (false, p')
              | [] => (false, [])
              end in
            let '(matched, p2) := class_loop d p1 false in
            let p3 := match p2 with "]"%char :: r => r | _ => p2 end in
            if (if negated then matched else negb matched) then false
            else match_pattern_fuel f p3 s'
          else if Ascii.eqb c d then match_pattern_fuel f p' s'
          else false
      | _, _ =>
          match skip_stars pattern, str with
          | [], [] => true
          | _, _ => false
          end
      end
  end.

Definition match_pattern (pattern str : list ascii) : bool :=
  match_pattern_fuel (S (List.length pattern)) pattern str.

(** [glob_match(pattern, str)] for non-NULL arguments, as 0/1. *)
Definition glob_match (pattern str : string) : Z :=
  if match_pattern (list_ascii_of_string pattern) (list_ascii_of_string str) then 1 else 0.

(** A character with no meaning to [match_pattern]. *)
Definition literal (c : ascii) : bool :=
  negb (Ascii.eqb c "*" || Ascii.eqb c "?" || Ascii.eqb c "[").

End Glob.

(* ------------------------------------------------------------------ *)
(** ** Raw mode around the line editor (src/unnamed/part_009:
    [enable_raw_mode] and [disable_raw_mode], lines 49-82, and
    [shell_readline], lines 232-538). *)

Module Readline.

Definition KEY_CTRL_C : Z := 3.
Definition KEY_CTRL_D : Z := 4.
Definition KEY_CTRL_J : Z := 10.
Definition KEY_ENTER : Z := 13.

Section Terminal.

(** [struct termios] and the change [enable_raw_mode] makes to it. *)
Variable termios : Type.
Variable make_raw : termios -> termios.
(** What the system calls report: [isatty(STDIN_FILENO)], [tcgetattr]
    succeeding, [tcsetattr] of the raw settings succeeding, and [tcsetattr]
    of the saved settings succeeding. *)
Variable isatty : bool.
Variable tcgetattr_ok : bool.
Variable tcsetattr_raw_ok : bool.
Variable tcsetattr_restore_ok : bool.
(** The line editor's own state (buffer, cursor, history index, kill
    buffer), its reset at the start of [shell_readline], [line_length], and
    the effect of every key handler that does not return (delete, cursor
    moves, history, kill and yank, completion, insertion); none of them
    touches the terminal settings. *)
Variable line_state : Type.
Variable reset_line : line_state -> line_state.
Variable line_length : line_state -> Z.
Variable edit : line_state -> Z -> line_state.

Record tstate := mk_tstate {
  term : termios;                 (* the settings the terminal has *)
  raw_mode_enabled : bool;
  orig_termios : termios;
  line : line_state
}.

Definition with_line (s : tstate) (l : line_state) : tstate :=
  mk_tstate (term s) (raw_mode_enabled s) (orig_termios s) l.

Definition enable_raw_mode (s : tstate) : tstate :=
  if raw_mode_enabled s then s
  else if negb isatty then s
  else if negb tcgetattr_ok then s
  else
    let orig := term s in
    if tcsetattr_raw_ok then mk_tstate (make_raw orig) true orig (line s)
    else mk_tstate (term s) false orig (line s).

Definition disable_raw_mode (s : tstate) : tstate :=
  if raw_mode_enabled s then
    mk_tstate (if tcsetattr_restore_ok then orig_termios s else term s) false
      (orig_termios s) (line s)
  else s.

(** What [shell_readline] returns: [NULL], a copy of the line buffer, the
    empty string after Ctrl-C, or the line [fgets] read when stdin is not a
    terminal. *)
Inductive rl_result := RLNull | RLLine (l : line_state) | RLInterrupted | RLFgets.

(** The [while (1)] loop over the keys [read_key] returns ([-1] on a read
    error); [None] while it is still waiting for a key. *)
Fixpoint readline_loop (keys : list Z) (s : tstate) : option (rl_result * tstate) :=
  match keys with
  | [] => None
  | key :: ks =>
      if key =? -1 then Some (RLNull, disable_raw_mode s)
      else if (key =? KEY_ENTER) || (key =? KEY_CTRL_J) then
        Some (RLLine (line s), disable_raw_mode s)
      else if (key =? KEY_CTRL_D) && (line_length (line s) =? 0) then
        Some (RLNull, disable_raw_mode s)
      else if key =? KEY_CTRL_C then Some (RLInterrupted, disable_raw_mode s)
      else readline_loop ks (with_line s (edit (line s) key))
  end.

Definition shell_readline (keys : list Z) (s : tstate) : option (rl_result * tstate) :=
  let s0 := with_line s (reset_line (line s)) in
  if negb isatty then Some (RLFgets, s0)
  else readline_loop keys (enable_raw_mode s0).

End Terminal.

End Readline.

(* ------------------------------------------------------------------ *)
(** ** The line editor's buffer, kill buffer and history (src/unnamed/part_009:
    [insert_char], [delete_char], [backspace_char], lines 174-205,
    [set_line_from_history], lines 208-218, the key handlers of
    [shell_readline], lines 277-538, and [history_add], [history_get],
    lines 540-572). *)

Module LineEditor.

Local Open Scope nat_scope.

Definition LINE_BUFFER_SIZE : nat := 4096.
Definition HISTORY_SIZE : nat := 1000.

Definition KEY_CTRL_A : Z := 1.
Definition KEY_CTRL_B : Z := 2.
Definition KEY_CTRL_D : Z := 4.
Definition KEY_CTRL_E : Z := 5.
Definition KEY_CTRL_F : Z := 6.
Definition KEY_CTRL_H : Z := 8.
Definition KEY_TAB : Z := 9.
Definition KEY_CTRL_K : Z := 11.
Definition KEY_CTRL_N : Z := 14.
Definition KEY_CTRL_P : Z := 16.
Definition KEY_CTRL_T : Z := 20.
Definition KEY_CTRL_U : Z := 21.
Definition KEY_CTRL_W : Z := 23.
Definition KEY_CTRL_Y : Z := 25.
Definition KEY_BACKSPACE : Z := 127.
Definition KEY_ARROW_UP : Z := 1000.
Definition KEY_ARROW_DOWN : Z := 1001.
Definition KEY_ARROW_RIGHT : Z := 1002.
Definition KEY_ARROW_LEFT : Z := 1003.
Definition KEY_HOME : Z := 1004.
Definition KEY_END : Z := 1005.
Definition KEY_DELETE : Z := 1006.

Definition nonnul (c : ascii) : bool := negb (Ascii.eqb c Tokenizer.NUL).

(** The bytes of a C string before its terminator ([strlen] of it). *)
Definition cstr (l : list ascii) : list ascii := Variables.take_while nonnul l.

(** The [n] bytes [strncpy(dst, src, n)] writes: [src] up to its
    terminator, then NUL padding. *)
Definition strncpy (src : list ascii) (n : nat) : list ascii :=
  let t := cstr (firstn n src) in t ++ repeat Tokenizer.NUL (n - List.length t).

(** The editor's static state: [line_buffer] holds the [line_length] bytes
    before its terminator, and [kill_buffer] the [kill_len] bytes a yank
    inserts. *)
Record editor := mk_editor {
  line_buffer : list ascii;
  cursor_pos : nat;
  history_index : nat;
  kill_buffer : list ascii
}.

Definition line_length (e : editor) : nat := List.length (line_buffer e).

Definition set_buffer (e : editor) (b : list ascii) (cur : nat) : editor :=
  mk_editor b cur (history_index e) (kill_buffer e).

(** [insert_char]; the [memmove] of the bytes from the cursor on is the
    [skipn]. *)
Definition insert_char (c : ascii) (e : editor) : editor :=
  if LINE_BUFFER_SIZE - 1 <=? line_length e then e
  else set_buffer e (firstn (cursor_pos e) (line_buffer e) ++
                     c :: skipn (cursor_pos e) (line_buffer e)) (S (cursor_pos e)).

Definition delete_char (e : editor) : editor :=
  if cursor_pos e <? line_length e then
    set_buffer e (firstn (cursor_pos e) (line_buffer e) ++
                  skipn (S (cursor_pos e)) (line_buffer e)) (cursor_pos e)
  else e.

Definition backspace_char (e : editor) : editor :=
  if 0 <? cursor_pos e then
    delete_char (set_buffer e (line_buffer e) (pred (cursor_pos e)))
  else e.

(** [while (pos > 0 && p(line_buffer[pos - 1])) pos--;] *)
Fixpoint skip_back (p : ascii -> bool) (buf : list ascii) (pos : nat) : nat :=
  match pos with
  | O => O
  | S m => if p (nth m buf Tokenizer.NUL) then skip_back p buf m else pos
  end.

Definition is_space_char (c : ascii) : bool := Ascii.eqb c " ".

Section Keys.

(** [history[0 .. history_len - 1]], oldest first. *)
Variable history : list (list ascii).
(** [get_completions(line_buffer, cursor_pos)]: [None] for a NULL result,
    else the completions and their common prefix ([count] is the length of
    the list). *)
Variable get_completions : list ascii -> nat -> option (list (list ascii) * list ascii).

Definition history_len : nat := List.length history.

Definition set_line_from_history (index : Z) (e : editor) : editor :=
  if ((index <? 0) || (Z.of_nat history_len <=? index))%Z then e
  else
    let hist := nth (Z.to_nat (Z.of_nat history_len - 1 - index)%Z) history [] in
    let b := cstr (firstn (LINE_BUFFER_SIZE - 1) hist) in
    set_buffer e b (List.length b).

(** Replace the word before the cursor (from [word_start]) by [text]. *)
Definition replace_word (e : editor) (word_start : nat) (text : list ascii) : editor :=
  set_buffer e (firstn word_start (line_buffer e) ++ text ++
                skipn (cursor_pos e) (line_buffer e)) (word_start + List.length text).

(** The [KEY_TAB] case. When [comp_len] is 0 the source reads
    [completion[-1]]; that byte is taken here as NUL (not ['/']). *)
Definition complete_key (e : editor) : editor :=
  match get_completions (line_buffer e) (cursor_pos e) with
  | Some (comps, common_prefix) =>
      if 0 <? List.length comps then
        let word_start := skip_back (fun c => negb (Ascii.eqb c " "%char) &&
                                              negb (Ascii.eqb c "009"%char))
                                    (line_buffer e) (cursor_pos e) in
        let word_len := cursor_pos e - word_start in
        if List.length comps =? 1 then
          let completion := cstr (nth 0 comps []) in
          let comp_len := List.length completion in
          let new_length := line_length e - word_len + comp_len in
          if new_length <? LINE_BUFFER_SIZE then
            let e1 := replace_word e word_start completion in
            if negb (Ascii.eqb (nth (comp_len - 1) completion Tokenizer.NUL) "/"%char) then
              if line_length e1 <? LINE_BUFFER_SIZE - 1 then
                set_buffer e1 (firstn (cursor_pos e1) (line_buffer e1) ++
                               " "%char :: skipn (cursor_pos e1) (line_buffer e1))
                           (S (cursor_pos e1))
              else e1
            else e1
          else e
        else
          let prefix := cstr common_prefix in
          let prefix_len := List.length prefix in
          if word_len <? prefix_len then
            let new_length := line_length e - word_len + prefix_len in
            if new_length <? LINE_BUFFER_SIZE then replace_word e word_start prefix
            else e
          else e
      else e
  | None => e
  end.

(** One pass of the [switch (key)] for the keys that do not return from
    [shell_readline] (those are handled by [Readline.readline_loop]:
    [-1], Enter, Ctrl-J, Ctrl-D on an empty line and Ctrl-C). *)
Definition edit_key (e : editor) (key : Z) : editor :=
  if Z.eqb key KEY_CTRL_D then delete_char e
  else if (Z.eqb key KEY_BACKSPACE) || (Z.eqb key KEY_CTRL_H) then backspace_char e
  else if Z.eqb key KEY_DELETE then delete_char e
  else if (Z.eqb key KEY_ARROW_LEFT) || (Z.eqb key KEY_CTRL_B) then
    if 0 <? cursor_pos e then set_buffer e (line_buffer e) (pred (cursor_pos e)) else e
  else if (Z.eqb key KEY_ARROW_RIGHT) || (Z.eqb key KEY_CTRL_F) then
    if cursor_pos e <? line_length e then set_buffer e (line_buffer e) (S (cursor_pos e))
    else e
  else if (Z.eqb key KEY_ARROW_UP) || (Z.eqb key KEY_CTRL_P) then
    if 0 <? history_index e then
      let e1 := mk_editor (line_buffer e) (cursor_pos e) (pred (history_index e))
                          (kill_buffer e) in
      set_line_from_history (Z.of_nat history_len - 1 - Z.of_nat (history_index e1))%Z e1
    else e
  else if (Z.eqb key KEY_ARROW_DOWN) || (Z.eqb key KEY_CTRL_N) then
    if history_index e <? history_len then
      let e1 := mk_editor (line_buffer e) (cursor_pos e) (S (history_index e))
                          (kill_buffer e) in
      if history_index e1 =? history_len then set_buffer e1 [] 0
      else set_line_from_history (Z.of_nat history_len - 1 - Z.of_nat (history_index e1))%Z e1
    else e
  else if (Z.eqb key KEY_HOME) || (Z.eqb key KEY_CTRL_A) then set_buffer e (line_buffer e) 0
  else if (Z.eqb key KEY_END) || (Z.eqb key KEY_CTRL_E) then
    set_buffer e (line_buffer e) (line_length e)
  else if Z.eqb key KEY_CTRL_K then
    if cursor_pos e <? line_length e then
      mk_editor (firstn (cursor_pos e) (line_buffer e)) (cursor_pos e) (history_index e)
        (firstn (line_length e - cursor_pos e)
           (strncpy (skipn (cursor_pos e) (line_buffer e)) LINE_BUFFER_SIZE))
    else e
  else if Z.eqb key KEY_CTRL_U then
    if 0 <? cursor_pos e then
      mk_editor (skipn (cursor_pos e) (line_buffer e)) 0 (history_index e)
        (strncpy (line_buffer e) (cursor_pos e))
    else e
  else if Z.eqb key KEY_CTRL_W then
    if 0 <? cursor_pos e then
      let old_pos := cursor_pos e in
      let p1 := skip_back is_space_char (line_buffer e) old_pos in
      let p := skip_back (fun c => negb (is_space_char c)) (line_buffer e) p1 in
      let deleted := old_pos - p in
      mk_editor (firstn p (line_buffer e) ++ skipn old_pos (line_buffer e)) p
        (history_index e) (strncpy (skipn p (line_buffer e)) deleted)
    else e
  else if Z.eqb key KEY_CTRL_Y then
    if 0 <? List.length (kill_buffer e) then
      fold_left (fun e' c => insert_char c e') (kill_buffer e) e
    else e
  else if Z.eqb key KEY_CTRL_T then
    if (0 <? cursor_pos e) && (cursor_pos e <? line_length e) then
      let b := line_buffer e in
      let i := cursor_pos e in
      set_buffer e (firstn (pred i) b ++ nth i b Tokenizer.NUL ::
                    nth (pred i) b Tokenizer.NUL :: skipn (S i) b) (S i)
    else e
  else if Z.eqb key KEY_TAB then complete_key e
  else if (32 <=? key)%Z && (key <? 127)%Z then insert_char (ascii_of_nat (Z.to_nat key)) e
  else e.

(** The state [shell_readline] starts from: empty line, cursor 0,
    [history_index = history_len]; the kill buffer is kept. *)
Definition reset_line (e : editor) : editor :=
  mk_editor [] 0 history_len (kill_buffer e).

End Keys.

(** [history_add]: the new history, oldest first. *)
Definition history_add (history : list (list ascii)) (line : list ascii) : list (list ascii) :=
  match cstr line with
  | [] => history
  | l =>
      if (0 <? List.length history) &&
         (if list_eq_dec ascii_dec (last history []) l then true else false)
      then history
      else (if HISTORY_SIZE <=? List.length history then tl history else history) ++ [l]
  end.

Definition history_get (history : list (list ascii)) (index : Z) : option (list ascii) :=
  if ((index <? 0) || (Z.of_nat (List.length history) <=? index))%Z then None
  else Some (nth (Z.to_nat index) history []).

End LineEditor.

(* ------------------------------------------------------------------ *)
(** ** More of the variable store (src/src/builtins/builtins_ai.c:
    [export_variable], lines 557-569, [variable_exists], lines 581-583, and
    [expand_variables], lines 603-650). *)

Module VariableOps.
Import Variables.

(** [export_variable(name)] for a non-NULL [name]: an existing entry gets
    [VAR_FLAG_EXPORTED] and its value goes to the environment; a missing
    name is set to the empty string with [VAR_FLAG_EXPORTED] (the result of
    that [set_variable] is not looked at).  [None] where [set_variable]
    runs forever. *)
Definition export_variable (st : vstate) (name : string) : option (Z * vstate) :=
  match find_variable st name with
  | Some (i, var) =>
      let v := mk_var (var_name var) (var_value var)
                 (Z.lor (var_flags var) VAR_FLAG_EXPORTED) in
      let st1 := with_variables st (set_slot (variables st) (Z.to_nat i) (Some v))
                   (variable_count st) in
      Some (0, with_environ st1 (setenv (environ st1) name (var_value var)))
  | None =>
      match set_variable st name EmptyString VAR_FLAG_EXPORTED with
      | Some (_, st') => Some (0, st')
      | None => None
      end
  end.

(** [variable_exists(name)] *)
Definition variable_exists (st : vstate) (name : string) : bool :=
  match find_variable st name with
  | Some _ => true
  | None => match getenv (environ st) name with Some _ => true | None => false end
  end.

(** [strlen] of a C string held in a Rocq string: its bytes before the
    first NUL. *)
Definition c_bytes (s : string) : list ascii :=
  take_while (fun c => negb (Ascii.eqb c Tokenizer.NUL)) (list_ascii_of_string s).

(** The [while (i < input_len)] loop of [expand_variables]: [input] is what
    is left of the input ([input + i]), [acc] what has been written to
    [result].  Every round consumes at least one byte, so [S (length input)]
    rounds are enough; [None] where [set_variable] runs forever. *)
Fixpoint expand_loop (fuel : nat) (st : vstate) (input acc : list ascii)
    : option (vstate * list ascii) :=
  match fuel with
  | O => Some (st, acc)
  | S f =>
      match input with
      | [] => Some (st, acc)
      | "\"%char :: c :: r => expand_loop f st r (acc ++ ["\"%char; c])
      | "$"%char :: r =>
          match expand_variable_reference st input with
          | None => None
          | Some (st', Some expanded, consumed) =>
              expand_loop f st' (skipn consumed input) (acc ++ c_bytes expanded)
          | Some (st', None, _) => expand_loop f st' r (acc ++ ["$"%char])
          end
      | c :: r => expand_loop f st r (acc ++ [c])
      end
  end.

(** [expand_variables(input)] for a non-NULL [input] (allocation assumed to
    succeed): the store afterwards and the bytes of the result. *)
Definition expand_variables (st : vstate) (input : list ascii) : option (vstate * list ascii) :=
  expand_loop (S (List.length input)) st input [].

End VariableOps.

(** The alias store behind [alias.h]: a hash table with linear probing. *)
Module AliasTable.

Definition MAX_ALIASES : Z := 256.

(** [alias_t] *)
Record alias_t := mk_alias { alias_name : string; alias_value : string }.

(** The statics of the alias store: [aliases] has [MAX_ALIASES] slots, a
    [NULL] slot being [None]; [aerr] collects what is written to stderr. *)
Record astate := mk_astate {
  aliases : list (option alias_t);
  alias_count : Z;
  aerr : list string
}.

Definition with_aliases (st : astate) (tbl : list (option alias_t)) (cnt : Z) : astate :=
  mk_astate tbl cnt (aerr st).

Definition aeprint (st : astate) (m : string) : astate :=
  mk_astate (aliases st) (alias_count st) (aerr st ++ [m]).

(** [aliases[i]] *)
Definition aslot (tbl : list (option alias_t)) (i : Z) : option alias_t :=
  nth (Z.to_nat i) tbl None.

(** [aliases[i] = x] *)
Fixpoint set_aslot (tbl : list (option alias_t)) (i : nat) (x : option alias_t)
    : list (option alias_t) :=
  match tbl, i with
  | [], _ => []
  | _ :: r, O => x :: r
  | y :: r, S i' => y :: set_aslot r i' x
  end.

(** [alias_init()]: every slot [NULL], no alias. *)
Definition alias_init (st : astate) : astate :=
  with_aliases st (repeat None (Z.to_nat MAX_ALIASES)) 0.

(** [hash_alias]: the djb2 loop of [hash_name] (same [unsigned int]
    arithmetic, same signed [char]), reduced modulo [MAX_ALIASES]. *)
Definition hash_alias (name : string) : Z := Variables.djb2 5381 name mod MAX_ALIASES.

(** The probe loop of [find_alias] (and of [unset_alias], which walks the
    same sequence): stops at a [NULL] slot, at the name, or when the index
    comes back to [start]; [MAX_ALIASES] rounds reach the last case, so the
    fuel never runs out first. *)
Fixpoint probe_loop (fuel : nat) (tbl : list (option alias_t)) (name : string)
    (start index : Z) : option (Z * alias_t) :=
  match fuel with
  | O => None
  | S f =>
      match aslot tbl index with
      | None => None
      | Some a =>
          if String.eqb (alias_name a) name then Some (index, a) else
          let index' := (index + 1) mod MAX_ALIASES in
          if index' =? start then None else probe_loop f tbl name start index'
      end
  end.

(** [find_alias(name)]: the slot of the entry and the entry. *)
Definition find_alias (st : astate) (name : string) : option (Z * alias_t) :=
  let h := hash_alias name in
  probe_loop (Z.to_nat MAX_ALIASES) (aliases st) name h h.

(** [while (aliases[index] != NULL) index = (index + 1) % MAX_ALIASES;] in
    [set_alias]: [None] when all slots are taken, where the C loop never
    ends. *)
Fixpoint insert_loop (fuel : nat) (tbl : list (option alias_t)) (index : Z) : option Z :=
  match fuel with
  | O => None
  | S f =>
      match aslot tbl index with
      | None => Some index
      | Some _ => insert_loop f tbl ((index + 1) mod MAX_ALIASES)
      end
  end.

(** [set_alias(name, value)] for non-NULL arguments (allocations assumed to
    succeed): the return code and the new store, [None] where the insertion
    loop runs forever. *)
Definition set_alias (st : astate) (name value : string) : option (Z * astate) :=
  match find_alias st name with
  | Some (i, existing) =>
      Some (0, with_aliases st
                 (set_aslot (aliases st) (Z.to_nat i) (Some (mk_alias (alias_name existing) value)))
                 (alias_count st))
  | None =>
      if MAX_ALIASES <=? alias_count st
      then Some (-1, aeprint st ("alias: too many aliases" ++ String "010" EmptyString))
      else
        match insert_loop (Z.to_nat MAX_ALIASES) (aliases st) (hash_alias name) with
        | None => None
        | Some i =>
            Some (0, with_aliases st (set_aslot (aliases st) (Z.to_nat i) (Some (mk_alias name value)))
                                     (alias_count st + 1))
        end
  end.

(** [unset_alias(name)] for a non-NULL [name]. *)
Definition unset_alias (st : astate) (name : string) : Z * astate :=
  let h := hash_alias name in
  match probe_loop (Z.to_nat MAX_ALIASES) (aliases st) name h h with
  | Some (i, _) =>
      (0, with_aliases st (set_aslot (aliases st) (Z.to_nat i) None) (alias_count st - 1))
  | None => (-1, st)
  end.

(** [get_alias(name)], [NULL] being [None]. *)
Definition get_alias (st : astate) (name : string) : option string :=
  match find_alias st name with
  | Some (_, a) => Some (alias_value a)
  | None => None
  end.

(** [alias_exists(name)] *)
Definition alias_exists (st : astate) (name : string) : bool :=
  match find_alias st name with Some _ => true | None => false end.

End AliasTable.

(* ================================================================== *)
(** * Theorems *)

Module PipelineProofs.
Import Pipeline.

Lemma wait_step_stage_code : forall acc w,
  wait_step acc w = match stage_code w with Some c => c | None => acc end.
Proof.
  intros acc [| c | s | s]; simpl; try reflexivity.
  destruct (c =? 0); reflexivity.
Qed.

Lemma fold_wait_step : forall ws acc,
  fold_left wait_step ws acc =
  match last_code ws with Some c => c | None => acc end.
Proof.
  induction ws as [| w ws IH]; intros acc; simpl; [reflexivity|].
  rewrite IH, wait_step_stage_code.
  destruct (last_code ws); reflexivity.
Qed.

(** C1 (counterexample): a first stage killed by SIGKILL (9) followed by a
    last stage exiting with 1 gives the pipeline status 1, not 128 + 9. *)
Lemma pipeline_status_signal_not_prioritised :
  pipeline_status [Signaled 9; Exited 1] = 1 /\
  claimed_status [Signaled 9; Exited 1] = 137.
Proof. split; reflexivity. Qed.

(** C1 (amended): the pipeline status is the status contributed by the last
    stage that contributes one (a non-zero exit code, 128 + signal for a
    signaled stage, 1 for a failed wait); stages that exited 0 or stopped
    contribute nothing, and the status is 0 when no stage contributes. *)
Theorem pipeline_status_last_contributing : forall ws,
  pipeline_status ws = match last_code ws with Some c => c | None => 0 end.
Proof. intros ws. unfold pipeline_status. apply fold_wait_step. Qed.

End PipelineProofs.

Module ExecProofs.
Import Token Exec.

Section AndOrProofs.
Variable St : Type.
Variable exec_segment : St -> list token -> St * option Z.

Lemma plain_inv : forall t, plain t = true ->
  is_type t TOKEN_AND = false /\ is_type t TOKEN_OR = false /\
  is_seq_sep t = false /\ is_type t TOKEN_EOF = false.
Proof.
  intros t H. unfold plain in H. apply negb_true_iff in H.
  repeat rewrite orb_false_iff in H. tauto.
Qed.

Lemma scan_plain : forall q seg ts last s, forallb plain q = true ->
  and_or_loop St exec_segment Scan seg (q ++ ts) last s =
  and_or_loop St exec_segment Scan (seg ++ q) ts last s.
Proof.
  induction q as [| t q IH]; intros seg ts last s Hq; simpl.
  - rewrite app_nil_r. reflexivity.
  - apply andb_true_iff in Hq as [Ht Hq].
    destruct (plain_inv t Ht) as (Ha & Ho & Hs & He).
    rewrite He, Ha, Ho. simpl. rewrite IH by exact Hq.
    rewrite <- app_assoc. reflexivity.
Qed.

Lemma skip_or_plain : forall q ts last s, forallb plain q = true ->
  and_or_loop St exec_segment SkipUntilOr [] (q ++ ts) last s =
  and_or_loop St exec_segment SkipUntilOr [] ts last s.
Proof.
  induction q as [| t q IH]; intros ts last s Hq; simpl; [reflexivity|].
  apply andb_true_iff in Hq as [Ht Hq].
  destruct (plain_inv t Ht) as (Ha & Ho & Hs & He).
  rewrite Ho, Hs. simpl. apply IH, Hq.
Qed.

Lemma skip_and_plain : forall q ts last s, forallb plain q = true ->
  and_or_loop St exec_segment SkipUntilAnd [] (q ++ ts) last s =
  and_or_loop St exec_segment SkipUntilAnd [] ts last s.
Proof.
  induction q as [| t q IH]; intros ts last s Hq; simpl; [reflexivity|].
  apply andb_true_iff in Hq as [Ht Hq].
  destruct (plain_inv t Ht) as (Ha & Ho & Hs & He).
  rewrite Ha, Hs. simpl. apply IH, Hq.
Qed.

Definition eof_token : token := mk_token TOKEN_EOF EmptyString false.

Definition list_end (tl : list token) : Prop := tl = [] \/ tl = [eof_token].

Lemma and_or_loop_correct : forall rest tl, list_end tl ->
  Forall (fun oq => forallb plain (snd oq) = true) rest ->
  (forall q last s, forallb plain q = true ->
     and_or_loop St exec_segment Scan [] (q ++ flat_map (fun '(o, q) => op_token o :: q) rest ++ tl) last s
     = let '(s1, r1) := run_seg St exec_segment q last s in andor_rest St exec_segment rest r1 s1) /\
  (forall q last s, forallb plain q = true -> last <> 0 ->
     and_or_loop St exec_segment SkipUntilOr [] (q ++ flat_map (fun '(o, q) => op_token o :: q) rest ++ tl) last s
     = andor_rest St exec_segment rest last s) /\
  (forall q last s, forallb plain q = true -> last = 0 ->
     and_or_loop St exec_segment SkipUntilAnd [] (q ++ flat_map (fun '(o, q) => op_token o :: q) rest ++ tl) last s
     = andor_rest St exec_segment rest last s).
Proof.
  intros rest tl Htl. induction rest as [| [o q'] rest IH]; intros Hall; simpl.
  - destruct Htl as [-> | ->]; repeat split; intros q last s Hq;
      try intros _; simpl.
    + rewrite scan_plain by exact Hq. simpl. idtac.
      destruct (run_seg St exec_segment q last s); reflexivity.
    + rewrite skip_or_plain by exact Hq. reflexivity.
    + rewrite skip_and_plain by exact Hq. reflexivity.
    + rewrite scan_plain by exact Hq. simpl.
      destruct (run_seg St exec_segment q last s); reflexivity.
    + rewrite skip_or_plain by exact Hq. reflexivity.
    + rewrite skip_and_plain by exact Hq. reflexivity.
  - inversion Hall as [| ? ? Hq' Hrest]; subst. simpl in Hq'.
    destruct (IH Hrest) as (IHscan & IHor & IHand).
    repeat split; intros q last s Hq; try intros Hlast;
      rewrite <- app_assoc; simpl.
    + rewrite scan_plain by exact Hq. simpl. rewrite ?app_nil_l.
      destruct o; simpl;
      destruct (run_seg St exec_segment q last s) as [s1 r1];
      destruct (r1 =? 0) eqn:Er; simpl.
      * apply IHscan, Hq'.
      * apply IHor; [exact Hq' | apply Z.eqb_neq, Er].
      * apply IHand; [exact Hq' | apply Z.eqb_eq, Er].
      * apply IHscan, Hq'.
    + rewrite skip_or_plain by exact Hq.
      apply Z.eqb_neq in Hlast.
      destruct o; simpl; rewrite Hlast; simpl.
      * apply IHor; [exact Hq' | apply Z.eqb_neq, Hlast].
      * rewrite IHscan by exact Hq'. reflexivity.
    + rewrite skip_and_plain by exact Hq.
      apply Z.eqb_eq in Hlast.
      destruct o; simpl; rewrite Hlast; simpl.
      * rewrite IHscan by exact Hq'. reflexivity.
      * apply IHand; [exact Hq' | apply Z.eqb_eq, Hlast].
Qed.

End AndOrProofs.

Import Tokenizer Scenario.

(** C2: an and-or list [P1 op1 P2 ... opn Pn+1] is executed left to right;
    a pipeline after [&&] runs only if the previous result is 0, after [||]
    only if it is non-zero, and the list's result is that of the last
    pipeline that ran (token loop of execute_and_or_list = [andor_spec], for
    the token array with or without the trailing EOF token).  On the line
    [false && echo a ; echo b || echo c] exactly [false] and [echo b] run and
    the output is [b] followed by a newline. *)
Theorem and_or_list_short_circuit :
  (forall (St : Type) (exec_segment : St -> list token -> St * option Z)
          p rest tl s,
     forallb plain p = true ->
     Forall (fun oq => forallb plain (snd oq) = true) rest ->
     list_end tl ->
     execute_and_or_list St exec_segment s (andor_tokens p rest ++ tl)
     = andor_spec St exec_segment p rest s) /\
  run_line "false && echo a ; echo b || echo c"%string
  = (([["false"%string]; ["echo"%string; "b"%string]], [("b" ++ NL)%string]), 0).
Proof.
  split.
  - intros St exec_segment p rest tl s Hp Hrest Htl.
    unfold execute_and_or_list, andor_tokens, andor_spec.
    rewrite <- app_assoc.
    destruct (and_or_loop_correct St exec_segment rest tl Htl Hrest) as [Hscan _].
    apply Hscan, Hp.
  - vm_compute. reflexivity.
Qed.

(** C2 witness: the and-or part instantiated with the scenario commands on
    the token array of [false || echo b && echo c]. *)
Lemma and_or_list_short_circuit_witness :
  let w := fun x => mk_token TOKEN_WORD x false in
  execute_and_or_list world scenario_segment ([], [])
    (andor_tokens [w "false"%string]
       [(OpOr, [w "echo"%string; w "b"%string]); (OpAnd, [w "echo"%string; w "c"%string])]
     ++ [eof_token])
  = andor_spec world scenario_segment [w "false"%string]
      [(OpOr, [w "echo"%string; w "b"%string]); (OpAnd, [w "echo"%string; w "c"%string])]
      ([], []).
Proof.
  intros w.
  apply (proj1 and_or_list_short_circuit).
  - reflexivity.
  - repeat constructor.
  - right. reflexivity.
Defined.
End ExecProofs.

Module MainLoopProofs.
Import Token Tokenizer Validator MainLoop.

(** Claim C3 (code bug): the line [| ls] is rejected by the validator.  In
    interactive mode the line read by [shell_readline] is not validated: no
    message is printed, the line is recorded and its token array is handed
    to the executor.  In non-interactive mode [shell_read_input] prints
    "Invalid Syntax!" and nothing runs, but [$?] stays 0. *)
Theorem rejected_line_not_discarded :
  let l := "| ls"%string in
  let si := main_iteration (fun x => x) scenario_execute Interactive l initial_shell in
  let sn := main_iteration (fun x => x) scenario_execute NonInteractive l initial_shell in
  shell_validate_syntax l = PARSE_SYNTAX_ERROR /\
  err si = [] /\ hist si = [l] /\ ran si = [snd (tokenize_input l MAX_TOKENS)] /\
  err sn = [("Invalid Syntax!" ++ Scenario.NL)%string] /\ ran sn = [] /\
  last_exit_status sn = 0.
Proof. vm_compute. repeat split; reflexivity. Qed.

End MainLoopProofs.

Module TokenizerProofs.
Import Token Tokenizer MainLoop.

(** C4 (counterexample): the line [echo], blank, double quote, [abc] (the
    quote is never closed) tokenizes without any error into [echo], the quoted word [abc] and EOF,
    and the line is executed. *)
Lemma unterminated_quote_accepted :
  tokenize_input ("echo " ++ String DQUOTE "abc")%string MAX_TOKENS
  = (3%nat, [mk_token TOKEN_WORD "echo" false; mk_token TOKEN_WORD "abc" true;
             mk_token TOKEN_EOF EmptyString false]) /\
  ran (main_iteration (fun x => x) scenario_execute NonInteractive ("echo " ++ String DQUOTE "abc")%string initial_shell)
  = [[mk_token TOKEN_WORD "echo" false; mk_token TOKEN_WORD "abc" true;
      mk_token TOKEN_EOF EmptyString false]].
Proof. split; vm_compute; reflexivity. Qed.

End TokenizerProofs.

Module VariablesProofs.
Import Variables.

Lemma nth_set_slot_same : forall tbl i x,
  (i < List.length tbl)%nat -> nth i (set_slot tbl i x) None = x.
Proof.
  induction tbl as [| y r IH]; intros [| i] x H; simpl in *; try lia; auto.
  apply IH; lia.
Qed.

Lemma nth_set_slot_other : forall tbl i j x,
  i <> j -> nth j (set_slot tbl i x) None = nth j tbl None.
Proof.
  induction tbl as [| y r IH]; intros [| i] [| j] x H; simpl; auto; try congruence.
Qed.

Lemma set_slot_length : forall tbl i x, List.length (set_slot tbl i x) = List.length tbl.
Proof. induction tbl as [| y r IH]; intros [| i] x; simpl; auto. Qed.

Lemma next_index_range : forall idx, 0 <= (idx + 1) mod MAX_VARIABLES < MAX_VARIABLES.
Proof. intros; apply Z.mod_pos_bound; unfold MAX_VARIABLES; lia. Qed.

Lemma hash_name_range : forall name, 0 <= hash_name name < MAX_VARIABLES.
Proof. intros; apply Z.mod_pos_bound; unfold MAX_VARIABLES; lia. Qed.

Lemma find_loop_found : forall n tbl name start idx i v,
  find_loop n tbl name start idx = Some (i, v) ->
  slot tbl i = Some v /\ var_name v = name /\ (0 <= idx < MAX_VARIABLES -> 0 <= i < MAX_VARIABLES).
Proof.
  induction n as [| n IH]; intros tbl name start idx i v H; simpl in H; try discriminate.
  destruct (slot tbl idx) as [w |] eqn:Hs; try discriminate.
  destruct (String.eqb (var_name w) name) eqn:Heq.
  - inversion H; subst. apply String.eqb_eq in Heq. auto.
  - destruct ((idx + 1) mod MAX_VARIABLES =? start); try discriminate.
    destruct (IH _ _ _ _ _ _ H) as (H1 & H2 & H3).
    split; [exact H1 | split; [exact H2 | intros _; apply H3, next_index_range]].
Qed.

Lemma free_loop_found : forall n tbl idx j,
  free_loop n tbl idx = Some j ->
  slot tbl j = None /\ (0 <= idx < MAX_VARIABLES -> 0 <= j < MAX_VARIABLES).
Proof.
  induction n as [| n IH]; intros tbl idx j H; simpl in H; try discriminate.
  destruct (slot tbl idx) eqn:Hs.
  - destruct (IH _ _ _ H) as [H1 H2]. split; auto. intros _; apply H2, next_index_range.
  - inversion H; subst; auto.
Qed.

Lemma slot_set_slot : forall tbl i j x,
  List.length tbl = Z.to_nat MAX_VARIABLES ->
  0 <= i < MAX_VARIABLES -> 0 <= j < MAX_VARIABLES ->
  slot (set_slot tbl (Z.to_nat i) x) j = if i =? j then x else slot tbl j.
Proof.
  intros tbl i j x Hl Hi Hj. unfold slot.
  destruct (Z.eqb_spec i j) as [-> | Hne].
  - apply nth_set_slot_same. rewrite Hl. unfold MAX_VARIABLES in *; lia.
  - apply nth_set_slot_other. lia.
Qed.

(** Replacing the entry [find_variable] reached keeps it reachable. *)
Lemma find_loop_update : forall n tbl name start idx i v v',
  List.length tbl = Z.to_nat MAX_VARIABLES -> 0 <= idx < MAX_VARIABLES ->
  find_loop n tbl name start idx = Some (i, v) -> var_name v' = name ->
  find_loop n (set_slot tbl (Z.to_nat i) (Some v')) name start idx = Some (i, v').
Proof.
  induction n as [| n IH]; intros tbl name start idx i v v' Hl Hidx H Hn; [discriminate |].
  pose proof (find_loop_found _ _ _ _ _ _ _ H) as (Hsi & Hvi & Hri).
  specialize (Hri Hidx).
  simpl in H |- *.
  rewrite (slot_set_slot tbl i idx (Some v') Hl Hri Hidx).
  destruct (slot tbl idx) as [w |] eqn:Hs; try discriminate.
  destruct (String.eqb (var_name w) name) eqn:Heq.
  - inversion H; subst. rewrite Z.eqb_refl, String.eqb_refl. reflexivity.
  - destruct (Z.eqb_spec i idx) as [-> | Hne].
    + apply String.eqb_neq in Heq. congruence.
    + rewrite Heq.
      destruct ((idx + 1) mod MAX_VARIABLES =? start); try discriminate.
      apply (IH _ _ _ _ _ v); auto using next_index_range.
Qed.

(** Steps left before the probe index comes back to [start]. *)
Definition dist (idx start : Z) : Z := (start - idx - 1) mod MAX_VARIABLES + 1.

Lemma dist_next : forall idx start,
  0 <= idx < MAX_VARIABLES -> 0 <= start < MAX_VARIABLES ->
  (idx + 1) mod MAX_VARIABLES <> start ->
  dist ((idx + 1) mod MAX_VARIABLES) start = dist idx start - 1 /\ 1 < dist idx start.
Proof.
  unfold dist, MAX_VARIABLES. intros idx start Hi Hs Hne.
  Z.to_euclidean_division_equations. lia.
Qed.

(** A new entry put in the first free slot of its probe sequence is found
    by the next lookup. *)
Lemma find_loop_insert : forall n tbl name start idx j x,
  List.length tbl = Z.to_nat MAX_VARIABLES ->
  0 <= idx < MAX_VARIABLES -> 0 <= start < MAX_VARIABLES ->
  Z.of_nat n <= dist idx start ->
  find_loop n tbl name start idx = None ->
  free_loop n tbl idx = Some j -> var_name x = name ->
  find_loop n (set_slot tbl (Z.to_nat j) (Some x)) name start idx = Some (j, x).
Proof.
  induction n as [| n IH]; intros tbl name start idx j x Hl Hidx Hst Hd Hf Hfree Hn;
    [discriminate |].
  pose proof (free_loop_found _ _ _ _ Hfree) as [Hsj Hrj]. specialize (Hrj Hidx).
  simpl in Hf, Hfree |- *.
  rewrite (slot_set_slot tbl j idx (Some x) Hl Hrj Hidx).
  destruct (slot tbl idx) as [w |] eqn:Hs.
  - destruct (Z.eqb_spec j idx) as [-> | Hne]; [congruence |].
    destruct (String.eqb (var_name w) name) eqn:Heq; [discriminate |].
    destruct (Z.eqb_spec ((idx + 1) mod MAX_VARIABLES) start) as [He | He].
    + exfalso. destruct n; [discriminate |].
      unfold dist in Hd. rewrite <- He in Hd.
      unfold MAX_VARIABLES in *. Z.to_euclidean_division_equations. lia.
    + destruct (dist_next idx start Hidx Hst He) as [Hd1 Hd2].
      apply IH; auto using next_index_range. lia.
  - inversion Hfree; subst. rewrite Z.eqb_refl, String.eqb_refl. reflexivity.
Qed.

(** A successful [set_variable] leaves the name bound to the new value. *)
Lemma set_variable_binds : forall st name value flags st',
  List.length (variables st) = Z.to_nat MAX_VARIABLES ->
  set_variable st name value flags = Some (0, st') ->
  exists i v, find_variable st' name = Some (i, v) /\ var_value v = value.
Proof.
  intros st name value flags st' Hl H. unfold set_variable in H.
  destruct (find_variable st name) as [[i existing] |] eqn:Hf.
  - destruct (has_flag (var_flags existing) VAR_FLAG_READONLY); [discriminate |].
    inversion H; subst; clear H.
    exists i, (mk_var (var_name existing) value (Z.lor (var_flags existing) flags)).
    split; [| reflexivity].
    pose proof (find_loop_found _ _ _ _ _ _ _ Hf) as (_ & Hn & _).
    unfold find_variable in *.
    destruct (has_flag flags VAR_FLAG_EXPORTED); cbn [variables with_environ with_variables];
      apply (find_loop_update _ _ _ _ _ _ existing); auto using hash_name_range.
  - destruct (MAX_VARIABLES <=? variable_count st); [discriminate |].
    destruct (free_loop (Z.to_nat MAX_VARIABLES) (variables st) (hash_name name)) as [j |] eqn:Hfree;
      [| discriminate].
    inversion H; subst; clear H.
    exists j, (mk_var name value flags). split; [| reflexivity].
    unfold find_variable in *.
    destruct (has_flag flags VAR_FLAG_EXPORTED); cbn [variables with_environ with_variables];
      apply find_loop_insert; auto using hash_name_range;
      unfold dist, MAX_VARIABLES; rewrite Z.sub_diag, Z2Nat.id by lia; reflexivity.
Qed.
Lemma varname_not_brace : forall c, is_varname_char c = true -> Ascii.eqb c "}" = false.
Proof.
  intros c H. destruct (Ascii.eqb_spec c "}") as [-> | ]; [discriminate | reflexivity].
Qed.


Lemma index_of_app : forall c l1 l2, index_of c l1 = None ->
  index_of c (l1 ++ l2) = option_map (Nat.add (List.length l1)) (index_of c l2).
Proof.
  induction l1 as [| x r IH]; intros l2 H; simpl in *.
  - destruct (index_of c l2); reflexivity.
  - destruct (Ascii.eqb x c); [discriminate |].
    destruct (index_of c r); [discriminate |]. rewrite IH by reflexivity.
    destruct (index_of c l2); reflexivity.
Qed.

Lemma index_of_name : forall name, forallb is_varname_char name = true ->
  index_of "}" name = None.
Proof.
  induction name as [| x r IH]; intros H; simpl in *; auto.
  apply andb_prop in H as [H1 H2]. rewrite varname_not_brace, IH; auto.
Qed.

Lemma take_while_name : forall name l, forallb is_varname_char name = true ->
  take_while is_varname_char (name ++ ":" :: l)%char = name.
Proof.
  induction name as [| x r IH]; intros l H; simpl in *; auto.
  apply andb_prop in H as [H1 H2]. rewrite H1, IH; auto.
Qed.

Lemma drop_while_name : forall name l, forallb is_varname_char name = true ->
  drop_while is_varname_char (name ++ ":" :: l)%char = (":" :: l)%char.
Proof.
  induction name as [| x r IH]; intros l H; simpl in *; auto.
  apply andb_prop in H as [H1 H2]. rewrite H1, IH; auto.
Qed.

Lemma firstn_prefix : forall (a b : list ascii), firstn (List.length a) (a ++ b) = a.
Proof. induction a as [| x r IH]; intros b; simpl; f_equal; auto. Qed.

Lemma hash_head : forall l : list ascii,
  match l with "#"%char :: _ => true | _ => false end
  = match l with x :: _ => Ascii.eqb x "#" | [] => false end.
Proof.
  intros [| x r]; [reflexivity |].
  destruct x as [[] [] [] [] [] [] [] []]; reflexivity.
Qed.

Lemma name_head_not_hash : forall name l, forallb is_varname_char name = true ->
  match (name ++ ":" :: l)%char with x :: _ => Ascii.eqb x "#" | [] => false end = false.
Proof.
  intros [| x r] l H; [reflexivity |]. simpl in *.
  apply andb_prop in H as [H1 _].
  destruct (Ascii.eqb_spec x "#") as [-> | ]; [discriminate | reflexivity].
Qed.

Lemma expand_assign_default : forall st name d rest,
  forallb is_varname_char name = true ->
  index_of "}" d = None ->
  let c := (List.length name + List.length d + 5)%nat in
  let assign :=
    match set_variable st (str (firstn (MAX_VAR_NAME_LENGTH - 1) name)) (str d) 0 with
    | Some (_, st') => Some (st', Some (str d), c)
    | None => None
    end in
  expand_variable_reference st ("$" :: "{" :: name ++ ":" :: "=" :: d ++ "}" :: rest)%char
  = match get_variable st (str (firstn (MAX_VAR_NAME_LENGTH - 1) name)) with
    | Some v => if String.eqb v EmptyString then assign else Some (st, Some v, c)
    | None => assign
    end.
Proof.
  intros st name d rest Hn Hd c assign.
  set (inner := (name ++ ":" :: "=" :: d)%char).
  assert (Hs : (name ++ ":" :: "=" :: d ++ "}" :: rest)%char = inner ++ "}"%char :: rest)
    by (unfold inner; rewrite <- app_assoc; reflexivity).
  assert (Hi : index_of "}" inner = None).
  { unfold inner. rewrite index_of_app by (apply index_of_name; exact Hn).
    simpl. rewrite Hd. reflexivity. }
  assert (Hidx : index_of "}" (inner ++ "}"%char :: rest) = Some (List.length inner)).
  { rewrite index_of_app by exact Hi. simpl. rewrite Nat.add_0_r. reflexivity. }
  assert (Hli : List.length inner = (List.length name + 2 + List.length d)%nat).
  { unfold inner. rewrite length_app. simpl. lia. }
  unfold expand_variable_reference. rewrite Hs, Hidx, firstn_prefix, hash_head.
  unfold inner. rewrite name_head_not_hash by exact Hn.
  rewrite take_while_name, drop_while_name by exact Hn.
  cbv beta iota zeta.
  replace (List.length (name ++ ":" :: "=" :: d)%char + 3)%nat with c
    by (unfold c; rewrite length_app; simpl; lia).
  destruct (get_variable st (str (firstn (MAX_VAR_NAME_LENGTH - 1) name))) as [v |]; [| reflexivity].
  destruct (String.eqb v EmptyString); reflexivity.
Qed.

(** Claim C5 (code bug): reassigning an exported variable with flags 0, as
    [NAME=value] does (src/src/execute.c, line 155), updates the table entry,
    which stays exported, but [setenv] is only called when the [flags]
    argument has [VAR_FLAG_EXPORTED]: the environment children inherit keeps
    the old value. *)
Theorem exported_reassignment_not_mirrored :
  match sync_from_environment (empty_store [("X", "a")]%string) with
  | Some st1 =>
      get_variable st1 "X" = Some "a"%string /\ is_variable_exported st1 "X" = true /\
      getenv (environ st1) "X" = Some "a"%string /\
      match set_variable st1 "X" "b" 0 with
      | Some (rc, st2) =>
          rc = 0 /\ get_variable st2 "X" = Some "b"%string /\
          is_variable_exported st2 "X" = true /\
          getenv (environ st2) "X" = Some "a"%string
      | None => False
      end
  | None => False
  end.
Proof. vm_compute. repeat split; reflexivity. Qed.

(** Claim C7 (counterexample): a name of 256 characters is cut to 255 before
    lookup and assignment, so [${NAME:=d}] with [NAME] unset yields [d] but
    binds the 255-character prefix, not [NAME]. *)
Theorem long_name_default_assigned_to_prefix :
  let name := repeat "a"%char 256 in
  match expand_variable_reference (empty_store [])
          ("$" :: "{" :: name ++ ":" :: "=" :: "d" :: "}" :: [])%char with
  | Some (st', r, _) =>
      r = Some "d"%string /\ find_variable st' (str name) = None /\
      get_variable st' (str name) = None /\
      get_variable st' (str (repeat "a"%char 255)) = Some "d"%string
  | None => False
  end.
Proof. vm_compute. repeat split; reflexivity. Qed.

(** Claim C7 (amended): for a name of letters, digits and underscores and a
    default without a closing brace, write [key] for the name's first 255
    characters (the whole name when it is shorter). [${NAME:=default}]
    yields the value [get_variable] returns for [key] when it is non-empty
    and leaves the store alone; otherwise it yields the default and calls
    [set_variable(key, default, 0)], and when that call succeeds [key] is
    bound to the default in the table. *)
Theorem assign_default_expansion : forall st name d rest,
  List.length (variables st) = Z.to_nat MAX_VARIABLES ->
  forallb is_varname_char name = true ->
  index_of "}" d = None ->
  let key := str (firstn (MAX_VAR_NAME_LENGTH - 1) name) in
  let c := (List.length name + List.length d + 5)%nat in
  let assign :=
    match set_variable st key (str d) 0 with
    | Some (_, st') => Some (st', Some (str d), c)
    | None => None
    end in
  expand_variable_reference st ("$" :: "{" :: name ++ ":" :: "=" :: d ++ "}" :: rest)%char
  = match get_variable st key with
    | Some v => if String.eqb v EmptyString then assign else Some (st, Some v, c)
    | None => assign
    end
  /\ (forall st', set_variable st key (str d) 0 = Some (0, st') ->
      exists i v, find_variable st' key = Some (i, v) /\ var_value v = str d).
Proof.
  intros st name d rest Hl Hn Hd key c assign. split.
  - apply expand_assign_default; assumption.
  - intros st' Hset. exact (set_variable_binds _ _ _ _ _ Hl Hset).
Qed.

Lemma assign_default_expansion_witness :
  let st := empty_store [] in
  let name := repeat "a"%char 300 in
  let d := ["d"%char] in
  let key := str (repeat "a"%char 255) in
  List.length (variables st) = Z.to_nat MAX_VARIABLES /\
  forallb is_varname_char name = true /\
  index_of "}" d = None /\
  expand_variable_reference st ("$" :: "{" :: name ++ ":" :: "=" :: d ++ "}" :: [])%char
  = match get_variable st key with
    | Some v => if String.eqb v EmptyString
                then match set_variable st key (str d) 0 with
                     | Some (_, st') => Some (st', Some (str d), 306%nat)
                     | None => None
                     end
                else Some (st, Some v, 306%nat)
    | None => match set_variable st key (str d) 0 with
              | Some (_, st') => Some (st', Some (str d), 306%nat)
              | None => None
              end
    end.
Proof.
  intros st name d key.
  assert (Hl : List.length (variables st) = Z.to_nat MAX_VARIABLES) by (vm_compute; reflexivity).
  assert (Hn : forallb is_varname_char name = true) by (vm_compute; reflexivity).
  assert (Hd : index_of "}" d = None) by reflexivity.
  split; [exact Hl | split; [exact Hn | split; [exact Hd |]]].
  exact (proj1 (assign_default_expansion st name d [] Hl Hn Hd)).
Defined.

(** Claim C10 (code bug): [unset_variable] empties a slot inside a probe
    sequence, so a read-only entry further along it is no longer found and
    [set_variable] on its name succeeds, adding a second entry. *)
Theorem readonly_bypass_after_unset :
  hash_name "Ab" = hash_name "BA" /\
  match readonly_behind_hole with
  | Some s3 =>
      slot (variables s3) 777 = Some (mk_var "BA" "2" VAR_FLAG_READONLY) /\
      get_variable s3 "BA" = None /\
      match set_variable s3 "BA" "3" 0 with
      | Some (rc, s4) =>
          rc = 0 /\ get_variable s4 "BA" = Some "3"%string /\
          slot (variables s4) 776 = Some (mk_var "BA" "3" 0) /\
          slot (variables s4) 777 = Some (mk_var "BA" "2" VAR_FLAG_READONLY)
      | None => False
      end
  | None => False
  end.
Proof.
  split; [vm_compute; reflexivity |].
  vm_compute. repeat split; reflexivity.
Qed.

End VariablesProofs.

Module AliasesProofs.
Import Aliases.

Section Expand.
Variable get_alias : string -> option string.

Lemma split_blanks_app : forall pre l,
  forallb Tokenizer.isspace pre = true ->
  (l = [] \/ exists c r, l = c :: r /\ Tokenizer.isspace c = false) ->
  split_blanks (pre ++ l) = (pre, l).
Proof.
  induction pre as [| c r IH]; intros l Hp Hl; simpl in *.
  - destruct Hl as [-> | (c & r & -> & Hc)]; simpl; [reflexivity |]. rewrite Hc. reflexivity.
  - apply andb_prop in Hp as [H1 H2]. rewrite H1, IH by assumption. reflexivity.
Qed.

Lemma split_word_app : forall w suf,
  forallb (fun c => negb (Tokenizer.isspace c)) w = true ->
  (suf = [] \/ exists c r, suf = c :: r /\ Tokenizer.isspace c = true) ->
  split_word (w ++ suf) = (w, suf).
Proof.
  induction w as [| c r IH]; intros suf Hw Hs; simpl in *.
  - destruct Hs as [-> | (c & r & -> & Hc)]; simpl; [reflexivity |]. rewrite Hc. reflexivity.
  - apply andb_prop in Hw as [H1 H2]. apply negb_true_iff in H1.
    rewrite H1, IH by assumption. reflexivity.
Qed.

End Expand.

(** Claim C6 (counterexample): with aliases [a -> b] and [b -> c], one pass
    over the line [a] gives [b], not the fixed point [c], and running the
    pass again on that output changes it to [c]. *)
Theorem alias_single_pass :
  let tbl := [("a", "b"); ("b", "c")]%string in
  expand_aliases (lookup_alias tbl) "a" = "b"%string /\
  expand_aliases (lookup_alias tbl) "b" = "c"%string /\
  expand_aliases (lookup_alias tbl) (expand_aliases (lookup_alias tbl) "a") <>
  expand_aliases (lookup_alias tbl) "a".
Proof. vm_compute. split; [reflexivity | split; [reflexivity | discriminate]]. Qed.

(** Claim C6 (amended): the alias pass makes at most one substitution: for a
    line made of leading blanks [pre], a first word [w] and a rest [suf]
    that is empty or starts with a blank, the result is [pre], the alias
    value of [w], then [suf], when [w] has an alias, and the line unchanged
    otherwise; a line of blanks only is returned unchanged.  The alias value
    is not looked up again. *)
Theorem alias_expansion_one_substitution : forall get_alias pre w suf,
  forallb Tokenizer.isspace pre = true ->
  w <> [] ->
  forallb (fun c => negb (Tokenizer.isspace c)) w = true ->
  (suf = [] \/ exists c r, suf = c :: r /\ Tokenizer.isspace c = true) ->
  expand_aliases get_alias (string_of_list_ascii (pre ++ w ++ suf))
  = match get_alias (string_of_list_ascii w) with
    | Some v => string_of_list_ascii (pre ++ list_ascii_of_string v ++ suf)
    | None => string_of_list_ascii (pre ++ w ++ suf)
    end
  /\ expand_aliases get_alias (string_of_list_ascii pre) = string_of_list_ascii pre.
Proof.
  intros get_alias pre w suf Hp Hw Hwb Hs. split.
  - unfold expand_aliases. rewrite list_ascii_of_string_of_list_ascii.
    rewrite split_blanks_app; [| exact Hp |].
    + destruct w as [| c r]; [congruence |].
      rewrite split_word_app by assumption. reflexivity.
    + destruct w as [| c r]; [congruence |]. right. exists c, (r ++ suf).
      split; [reflexivity |]. simpl in Hwb. apply andb_prop in Hwb as [H1 _].
      apply negb_true_iff in H1. exact H1.
  - unfold expand_aliases. rewrite list_ascii_of_string_of_list_ascii.
    rewrite <- (app_nil_r pre). rewrite split_blanks_app by (auto; rewrite app_nil_r; exact Hp).
    reflexivity.
Qed.

Lemma alias_expansion_one_substitution_witness :
  let tbl := [("ll", "ls -l")]%string in
  expand_aliases (lookup_alias tbl) (string_of_list_ascii ([" "] ++ ["l"; "l"] ++ [" "; "x"])%char)
  = string_of_list_ascii ([" "] ++ list_ascii_of_string "ls -l" ++ [" "; "x"])%char
  /\ expand_aliases (lookup_alias tbl) (string_of_list_ascii [" "%char]) = string_of_list_ascii [" "%char].
Proof.
  exact (alias_expansion_one_substitution (lookup_alias [("ll", "ls -l")]%string)
           [" "%char] ["l"; "l"]%char [" "; "x"]%char
           ltac:(reflexivity) ltac:(discriminate) ltac:(reflexivity)
           ltac:(right; exists " "%char, ["x"%char]; split; reflexivity)).
Defined.

End AliasesProofs.

Module GlobProofs.
Import Glob.

Lemma literal_inv : forall c, literal c = true ->
  Ascii.eqb c "*" = false /\ Ascii.eqb c "?" = false /\ Ascii.eqb c "[" = false.
Proof.
  intros c H. unfold literal in H.
  destruct (Ascii.eqb c "*"), (Ascii.eqb c "?"), (Ascii.eqb c "["); simpl in H;
    try discriminate; auto.
Qed.

Lemma literal_prefix : forall x f p s, forallb literal x = true ->
  match_pattern_fuel (List.length x + f) (x ++ p) (x ++ s) = match_pattern_fuel f p s.
Proof.
  induction x as [| c x IH]; intros f p s H; [reflexivity |].
  simpl in H. apply andb_prop in H as [Hc Hx].
  destruct (literal_inv c Hc) as (H1 & H2 & H3).
  simpl. rewrite H1, H2, H3, Ascii.eqb_refl. apply IH, Hx.
Qed.

Lemma literal_self : forall y, forallb literal y = true ->
  match_pattern_fuel (List.length y + 1) y y = true.
Proof.
  intros y H. pose proof (literal_prefix y 1 [] [] H) as E.
  rewrite !app_nil_r in E. rewrite E. reflexivity.
Qed.

Lemma skip_stars_literal : forall y, forallb literal y = true -> skip_stars y = y.
Proof.
  intros [| c y] H; [reflexivity |]. simpl in H. apply andb_prop in H as [Hc _].
  destruct (literal_inv c Hc) as (H1 & _ & _).
  destruct (Ascii.eqb_spec c "*") as [-> | Hne]; [discriminate |].
  destruct c as [[] [] [] [] [] [] [] []]; try reflexivity; exfalso; apply Hne; reflexivity.
Qed.

Lemma try_at_suffix : forall f p pre y,
  match_pattern_fuel f p y = true -> y <> [] ->
  (fix try_at (s : list ascii) : bool :=
     match s with
     | [] => match_pattern_fuel f p []
     | _ :: s1 => match_pattern_fuel f p s || try_at s1
     end) (pre ++ y) = true.
Proof.
  intros f p pre y Hm Hy. induction pre as [| x pre IH].
  - destruct y as [| c y]; [congruence |]. simpl. rewrite Hm. reflexivity.
  - simpl. rewrite IH, orb_true_r. reflexivity.
Qed.

Lemma match_pattern_star : forall f y str, str <> [] ->
  match_pattern_fuel (S f) ("*"%char :: y) str =
  match skip_stars y with
  | [] => true
  | _ =>
      (fix try_at (s : list ascii) : bool :=
         match s with
         | [] => match_pattern_fuel f (skip_stars y) []
         | _ :: s1 => match_pattern_fuel f (skip_stars y) s || try_at s1
         end) str
  end.
Proof. intros f y [| d t] H; [congruence | reflexivity]. Qed.

(** Claim C8 (counterexample): [glob_match] accepts the pattern [a*b] on the
    path [a/b], the star covering the slash. *)
Theorem star_matches_slash : glob_match "a*b" "a/b" = 1.
Proof. vm_compute. reflexivity. Qed.

(** Claim C8 (amended): a star in [match_pattern] covers any sequence of
    characters, slashes included: between a literal prefix [x] and a literal
    suffix [y], the pattern [x*y] matches [x], then any [s], then [y]. *)
Theorem star_matches_any : forall x y s,
  forallb literal x = true -> forallb literal y = true ->
  match_pattern (x ++ "*" :: y)%char (x ++ s ++ y) = true.
Proof.
  intros x y s Hx Hy. unfold match_pattern.
  replace (S (List.length (x ++ "*"%char :: y)))
    with (List.length x + S (S (List.length y)))%nat
    by (rewrite length_app; simpl; lia).
  rewrite literal_prefix by exact Hx.
  destruct (list_eq_dec ascii_dec (s ++ y) []) as [E | E].
  - rewrite E. apply app_eq_nil in E as [-> ->]. reflexivity.
  - rewrite match_pattern_star, skip_stars_literal by assumption.
    destruct y as [| c y']; [reflexivity |].
    apply (try_at_suffix _ _ s (c :: y')); [| discriminate].
    replace (S (List.length (c :: y'))) with (List.length (c :: y') + 1)%nat by lia.
    apply literal_self, Hy.
Qed.

Lemma star_matches_any_witness :
  match_pattern (["a"] ++ "*" :: ["b"])%char (["a"] ++ ["/"; "x"] ++ ["b"])%char = true.
Proof. apply star_matches_any; reflexivity. Defined.

End GlobProofs.

Module ReadlineProofs.
Import Readline.

Section Frame.
Variable termios : Type.
Variable make_raw : termios -> termios.
Variables isatty tcgetattr_ok tcsetattr_raw_ok tcsetattr_restore_ok : bool.
Variable line_state : Type.
Variable reset_line : line_state -> line_state.
Variable line_length : line_state -> Z.
Variable edit : line_state -> Z -> line_state.

Lemma readline_loop_returns_disabled : forall keys s r s',
  readline_loop termios tcsetattr_restore_ok line_state line_length edit keys s = Some (r, s') ->
  exists l, s' = disable_raw_mode termios tcsetattr_restore_ok line_state
                   (with_line termios line_state s l).
Proof.
  induction keys as [| k ks IH]; intros s r s' H; simpl in H; [discriminate |].
  repeat match type of H with
  | context [if ?b then _ else _] => destruct b
  end;
  first [ injection H as <- <-; exists (line termios line_state s); destruct s; reflexivity
        | destruct (IH _ _ _ H) as [l ->]; exists l; reflexivity ].
Qed.

End Frame.

(** Claim C9: when raw mode is off on entry and restoring the saved settings
    succeeds, every return of [shell_readline] (Enter or Ctrl-J, Ctrl-D on an
    empty line, a read error, Ctrl-C, or the non-terminal path) leaves the
    terminal settings as they were before the call, with raw mode off. *)
Theorem readline_restores_terminal :
  forall (termios : Type) (make_raw : termios -> termios)
         (isatty tcgetattr_ok tcsetattr_raw_ok tcsetattr_restore_ok : bool)
         (line_state : Type) (reset_line : line_state -> line_state)
         (line_length : line_state -> Z) (edit : line_state -> Z -> line_state)
         keys s r s',
  raw_mode_enabled termios line_state s = false ->
  tcsetattr_restore_ok = true ->
  shell_readline termios make_raw isatty tcgetattr_ok tcsetattr_raw_ok tcsetattr_restore_ok
    line_state reset_line line_length edit keys s = Some (r, s') ->
  term termios line_state s' = term termios line_state s /\
  raw_mode_enabled termios line_state s' = false.
Proof.
  intros termios make_raw isatty tcgetattr_ok tcsetattr_raw_ok tcsetattr_restore_ok
    line_state reset_line line_length edit keys [t raw orig l] r s' Hraw Hok H.
  simpl in Hraw. subst raw tcsetattr_restore_ok.
  unfold shell_readline in H. simpl in H.
  destruct isatty; simpl in H.
  2: { inversion H; subst. split; reflexivity. }
  unfold enable_raw_mode in H. simpl in H.
  apply readline_loop_returns_disabled in H as [l' ->].
  destruct tcgetattr_ok, tcsetattr_raw_ok; simpl; split; reflexivity.
Qed.

Lemma readline_restores_terminal_witness :
  let s := mk_tstate Z (list Z) 7 false 0 [] in
  raw_mode_enabled Z (list Z) s = false /\ true = true /\
  shell_readline Z (fun t => t + 100) true true true true (list Z)
    (fun _ => []) (fun l => Z.of_nat (List.length l)) (fun l k => l ++ [k])
    [97; 98; 13] s
  = Some (RLLine (list Z) [97; 98], mk_tstate Z (list Z) 7 false 7 [97; 98]) /\
  term Z (list Z) (mk_tstate Z (list Z) 7 false 7 [97; 98]) = term Z (list Z) s /\
  raw_mode_enabled Z (list Z) (mk_tstate Z (list Z) 7 false 7 [97; 98]) = false.
Proof.
  intros s.
  assert (Hraw : raw_mode_enabled Z (list Z) s = false) by reflexivity.
  assert (Hok : true = true) by reflexivity.
  assert (Hrun : shell_readline Z (fun t => t + 100) true true true true (list Z)
    (fun _ => []) (fun l => Z.of_nat (List.length l)) (fun l k => l ++ [k])
    [97; 98; 13] s
    = Some (RLLine (list Z) [97; 98], mk_tstate Z (list Z) 7 false 7 [97; 98]))
    by (vm_compute; reflexivity).
  split; [exact Hraw | split; [exact Hok | split; [exact Hrun |]]].
  exact (readline_restores_terminal Z (fun t => t + 100) true true true true (list Z)
           (fun _ => []) (fun l => Z.of_nat (List.length l)) (fun l k => l ++ [k])
           [97; 98; 13] s _ _ Hraw Hok Hrun).
Defined.

End ReadlineProofs.

Module LineEditorProofs.
Import LineEditor.
Local Open Scope nat_scope.

Lemma forallb_firstn {A} (p : A -> bool) n l :
  forallb p l = true -> forallb p (firstn n l) = true.
Proof.
  revert l; induction n as [|n IH]; intros [|x l] H; simpl in *; auto.
  apply andb_true_iff in H as [H1 H2]; rewrite H1, IH; auto.
Qed.

Lemma forallb_skipn {A} (p : A -> bool) n l :
  forallb p l = true -> forallb p (skipn n l) = true.
Proof.
  revert l; induction n as [|n IH]; intros [|x l] H; simpl in *; auto.
  apply andb_true_iff in H as [_ H2]; auto.
Qed.

Lemma forallb_nth {A} (p : A -> bool) l i d :
  forallb p l = true -> i < List.length l -> p (nth i l d) = true.
Proof.
  intros H Hi; apply forallb_forall with (x := nth i l d) in H; auto.
  apply nth_In; exact Hi.
Qed.

Lemma take_while_all p l : forallb p l = true -> Variables.take_while p l = l.
Proof.
  induction l as [|x l IH]; simpl; auto.
  intros H; apply andb_true_iff in H as [H1 H2]; rewrite H1, IH; auto.
Qed.

Lemma take_while_forallb p l : forallb p (Variables.take_while p l) = true.
Proof.
  induction l as [|x l IH]; simpl; auto.
  destruct (p x) eqn:E; simpl; auto; rewrite E; auto.
Qed.

Lemma take_while_length p l : List.length (Variables.take_while p l) <= List.length l.
Proof.
  induction l as [|x l IH]; simpl; auto.
  destruct (p x); simpl; lia.
Qed.

Lemma cstr_id l : forallb nonnul l = true -> cstr l = l.
Proof. apply take_while_all. Qed.

Lemma strncpy_nonnul l n :
  forallb nonnul l = true ->
  strncpy l n = firstn n l ++ repeat Tokenizer.NUL (n - List.length (firstn n l)).
Proof. intros H; unfold strncpy; rewrite cstr_id by (apply forallb_firstn; auto); reflexivity. Qed.

Lemma strncpy_slice l n :
  forallb nonnul l = true -> n <= List.length l -> strncpy l n = firstn n l.
Proof.
  intros H Hn; rewrite strncpy_nonnul by exact H.
  rewrite firstn_length_le by exact Hn; rewrite Nat.sub_diag; apply app_nil_r.
Qed.

Lemma skip_back_le p b n : skip_back p b n <= n.
Proof. induction n as [|n IH]; simpl; auto. destruct (p (nth n b Tokenizer.NUL)); lia. Qed.

Lemma skip_back_stop p b n :
  skip_back p b (S n) = S n -> p (nth n b Tokenizer.NUL) = false.
Proof.
  simpl; destruct (p (nth n b Tokenizer.NUL)); auto.
  intros E; pose proof (skip_back_le p b n); lia.
Qed.

Lemma skip_back_moves p b n :
  p (nth n b Tokenizer.NUL) = true -> skip_back p b (S n) <= n.
Proof. simpl; intros ->; apply skip_back_le. Qed.

Lemma printable_nonnul k :
  (32 <= k < 127)%Z -> nonnul (ascii_of_nat (Z.to_nat k)) = true.
Proof.
  intros Hk; unfold nonnul.
  destruct (Ascii.eqb_spec (ascii_of_nat (Z.to_nat k)) Tokenizer.NUL) as [E|]; auto.
  apply (f_equal nat_of_ascii) in E.
  rewrite nat_ascii_embedding in E by lia.
  unfold Tokenizer.NUL in E; cbv [nat_of_ascii N_of_ascii N_of_digits N.to_nat N.add N.mul Pos.to_nat] in E; lia.
Qed.

Lemma firstn_snoc {A} (l1 : list A) n c r :
  List.length l1 = n -> firstn (S n) (l1 ++ c :: r) = l1 ++ [c].
Proof.
  intros <-; induction l1 as [|x l1 IH]; simpl; auto. simpl in IH; rewrite IH; auto.
Qed.

Lemma skipn_snoc {A} (l1 : list A) n c r :
  List.length l1 = n -> skipn (S n) (l1 ++ c :: r) = r.
Proof. intros <-; induction l1 as [|x l1 IH]; simpl; auto. Qed.

(** The invariant the key handlers keep: the cursor inside the line, at most
    [LINE_BUFFER_SIZE - 1] bytes, no NUL in the line or the kill buffer, and
    the history index at most [history_len]. *)
Definition inv (history : list (list ascii)) (e : editor) : Prop :=
  cursor_pos e <= line_length e /\ line_length e <= LINE_BUFFER_SIZE - 1 /\
  forallb nonnul (line_buffer e) = true /\ forallb nonnul (kill_buffer e) = true /\
  history_index e <= List.length history.

Lemma insert_at_inv h e c :
  inv h e -> line_length e < LINE_BUFFER_SIZE - 1 -> nonnul c = true ->
  inv h (set_buffer e (firstn (cursor_pos e) (line_buffer e) ++
                       c :: skipn (cursor_pos e) (line_buffer e)) (S (cursor_pos e))).
Proof.
  unfold inv, line_length, set_buffer; cbn [line_buffer cursor_pos history_index kill_buffer]; intros (H1 & H2 & H3 & H4 & H5) Hl Hc.
  rewrite length_app; simpl; rewrite firstn_length_le, length_skipn by lia.
  rewrite forallb_app; simpl; rewrite forallb_firstn, forallb_skipn, Hc by exact H3.
  repeat split; auto; unfold LINE_BUFFER_SIZE in *; lia.
Qed.

Lemma insert_char_inv h e c : inv h e -> nonnul c = true -> inv h (insert_char c e).
Proof.
  intros H Hc; unfold insert_char.
  destruct (Nat.leb_spec (LINE_BUFFER_SIZE - 1) (line_length e)); auto.
  apply insert_at_inv; auto.
Qed.

Lemma fold_insert_inv h ks e :
  inv h e -> forallb nonnul ks = true ->
  inv h (fold_left (fun e' c => insert_char c e') ks e).
Proof.
  revert e; induction ks as [|c ks IH]; simpl; auto.
  intros e H Hk; apply andb_true_iff in Hk as [Hc Hk].
  apply IH; auto; apply insert_char_inv; auto.
Qed.

Lemma delete_char_inv h e : inv h e -> inv h (delete_char e).
Proof.
  unfold delete_char; destruct (Nat.ltb_spec (cursor_pos e) (line_length e)); auto.
  unfold inv, line_length, set_buffer in *; cbn [line_buffer cursor_pos history_index kill_buffer]; intros (H1 & H2 & H3 & H4 & H5).
  rewrite length_app, firstn_length_le, length_skipn by lia.
  rewrite forallb_app, forallb_firstn, forallb_skipn by exact H3.
  repeat split; auto; lia.
Qed.

Lemma backspace_char_inv h e : inv h e -> inv h (backspace_char e).
Proof.
  unfold backspace_char; destruct (Nat.ltb_spec 0 (cursor_pos e)); auto.
  intros Hi; apply delete_char_inv.
  unfold inv, line_length, set_buffer in *; cbn [line_buffer cursor_pos history_index kill_buffer]; intuition lia.
Qed.

Lemma set_line_from_history_inv h idx e :
  inv h e -> inv h (set_line_from_history h idx e).
Proof.
  unfold set_line_from_history; destruct (_ || _)%Z; auto.
  unfold inv, line_length, set_buffer, cstr in *; cbn [line_buffer cursor_pos history_index kill_buffer]; intros (H1 & H2 & H3 & H4 & H5).
  pose proof (take_while_length nonnul
                (firstn (LINE_BUFFER_SIZE - 1) (nth (Z.to_nat (Z.of_nat (history_len h) - 1 - idx)) h []))).
  rewrite length_firstn in H.
  rewrite take_while_forallb; repeat split; auto; lia.
Qed.

Lemma replace_word_inv h e ws text :
  inv h e -> ws <= cursor_pos e -> forallb nonnul text = true ->
  line_length e - (cursor_pos e - ws) + List.length text < LINE_BUFFER_SIZE ->
  inv h (replace_word e ws text) /\
  line_length (replace_word e ws text) = line_length e - (cursor_pos e - ws) + List.length text /\
  cursor_pos (replace_word e ws text) = ws + List.length text.
Proof.
  unfold inv, line_length, replace_word, set_buffer; cbn [line_buffer cursor_pos history_index kill_buffer]; intros (H1 & H2 & H3 & H4 & H5) Hw Ht Hn.
  rewrite !length_app, firstn_length_le, length_skipn by lia.
  rewrite !forallb_app, forallb_firstn, forallb_skipn, Ht by exact H3.
  unfold LINE_BUFFER_SIZE in *; repeat split; auto; lia.
Qed.

Lemma complete_key_inv h gc e : inv h e -> inv h (complete_key gc e).
Proof.
  intros H; unfold complete_key.
  destruct (gc (line_buffer e) (cursor_pos e)) as [[comps pre]|]; auto.
  destruct (0 <? List.length comps); auto.
  set (ws := skip_back _ (line_buffer e) (cursor_pos e)).
  assert (Hws : ws <= cursor_pos e) by apply skip_back_le.
  destruct (List.length comps =? 1).
  - set (comp := cstr (nth 0 comps [])).
    assert (Hc : forallb nonnul comp = true) by apply take_while_forallb.
    destruct (Nat.ltb_spec (line_length e - (cursor_pos e - ws) + List.length comp) LINE_BUFFER_SIZE)
      as [Hn|]; auto.
    destruct (replace_word_inv h e ws comp H Hws Hc Hn) as (He1 & _ & _).
    destruct (negb _); auto.
    destruct (Nat.ltb_spec (line_length (replace_word e ws comp)) (LINE_BUFFER_SIZE - 1)); auto.
    apply insert_at_inv; auto.
  - set (pre' := cstr pre).
    assert (Hc : forallb nonnul pre' = true) by apply take_while_forallb.
    destruct (_ <? List.length pre'); auto.
    destruct (Nat.ltb_spec (line_length e - (cursor_pos e - ws) + List.length pre') LINE_BUFFER_SIZE)
      as [Hn|]; auto.
    apply (replace_word_inv h e ws pre' H Hws Hc Hn).
Qed.

Lemma kill_to_end_kill b c :
  forallb nonnul b = true -> List.length b <= LINE_BUFFER_SIZE - 1 ->
  firstn (List.length b - c) (strncpy (skipn c b) LINE_BUFFER_SIZE) = skipn c b.
Proof.
  intros H Hl; rewrite strncpy_nonnul by (apply forallb_skipn; exact H).
  rewrite (firstn_all2 (n := LINE_BUFFER_SIZE) (skipn c b))
    by (rewrite length_skipn; unfold LINE_BUFFER_SIZE in *; lia).
  rewrite firstn_app, length_skipn, Nat.sub_diag, firstn_O, app_nil_r.
  apply firstn_all2; rewrite length_skipn; lia.
Qed.

Lemma kill_word_bounds b old :
  0 < old ->
  let p1 := skip_back is_space_char b old in
  let p := skip_back (fun c => negb (is_space_char c)) b p1 in
  p < old.
Proof.
  intros Hold p1 p.
  assert (Hp1 : p1 <= old) by apply skip_back_le.
  assert (Hp : p <= p1) by apply skip_back_le.
  destruct (Nat.eq_dec p1 old) as [E|]; [|lia].
  destruct old as [|m]; [lia|].
  pose proof (skip_back_stop _ _ _ E) as Hs.
  assert (p <= m); [|lia].
  unfold p; rewrite E; apply skip_back_moves; rewrite Hs; reflexivity.
Qed.

Ltac key_neq := unfold KEY_CTRL_A, KEY_CTRL_B, KEY_CTRL_D, KEY_CTRL_E, KEY_CTRL_F,
  KEY_CTRL_H, KEY_TAB, KEY_CTRL_K, KEY_CTRL_N, KEY_CTRL_P, KEY_CTRL_T, KEY_CTRL_U,
  KEY_CTRL_W, KEY_CTRL_Y, KEY_BACKSPACE, KEY_ARROW_UP, KEY_ARROW_DOWN, KEY_ARROW_RIGHT,
  KEY_ARROW_LEFT, KEY_HOME, KEY_END, KEY_DELETE; lia.

Ltac edit_hyps :=
  repeat match goal with H : context [Z.eqb _ _] |- _ => clear H end;
  repeat match goal with
    | H : (_ && _)%bool = true |- _ => apply andb_true_iff in H as [? ?]
    | H : (_ <? _) = true |- _ => apply Nat.ltb_lt in H
    | H : (_ <? _)%Z = true |- _ => apply Z.ltb_lt in H
    | H : (_ <=? _)%Z = true |- _ => apply Z.leb_le in H
    | H : (_ =? _) = true |- _ => apply Nat.eqb_eq in H
    end.

Ltac inv_solve :=
  match goal with H : inv _ _ |- _ => destruct H as (H1 & H2 & H3 & H4 & H5) end;
  edit_hyps;
  unfold inv, set_buffer, line_length, history_len in *;
  cbn [line_buffer cursor_pos history_index kill_buffer List.length] in *;
  repeat split; auto; unfold LINE_BUFFER_SIZE in *; lia.

Lemma edit_key_inv h gc e key : inv h e -> inv h (edit_key h gc e key).
Proof.
  intros H; unfold edit_key.
  repeat match goal with |- inv _ (if ?b then _ else _) => destruct b eqn:? end;
    auto using delete_char_inv, backspace_char_inv, complete_key_inv.
  - (* left *) inv_solve.
  - (* right *) inv_solve.
  - (* up *) apply set_line_from_history_inv; inv_solve.
  - (* down past the newest entry *) inv_solve.
  - (* down *) apply set_line_from_history_inv; inv_solve.
  - (* home *) inv_solve.
  - (* end *) inv_solve.
  - (* Ctrl-K *)
    destruct H as (H1 & H2 & H3 & H4 & H5); edit_hyps; unfold inv, line_length in *; cbn [line_buffer cursor_pos history_index kill_buffer].
    rewrite kill_to_end_kill by assumption.
    rewrite firstn_length_le by lia.
    rewrite forallb_firstn, forallb_skipn by assumption.
    repeat split; auto; unfold LINE_BUFFER_SIZE in *; lia.
  - (* Ctrl-U *)
    destruct H as (H1 & H2 & H3 & H4 & H5); edit_hyps; unfold inv, line_length in *; cbn [line_buffer cursor_pos history_index kill_buffer].
    rewrite strncpy_slice by assumption.
    rewrite length_skipn, forallb_firstn, forallb_skipn by assumption.
    repeat split; auto; unfold LINE_BUFFER_SIZE in *; lia.
  - (* Ctrl-W *)
    destruct H as (H1 & H2 & H3 & H4 & H5); edit_hyps; unfold inv, line_length in *; cbn [line_buffer cursor_pos history_index kill_buffer].
    set (p1 := skip_back is_space_char (line_buffer e) (cursor_pos e)).
    set (p := skip_back (fun c => negb (is_space_char c)) (line_buffer e) p1).
    assert (p <= cursor_pos e).
    { transitivity p1; [apply skip_back_le|apply skip_back_le]. }
    rewrite strncpy_slice by (try apply forallb_skipn; auto; rewrite length_skipn; lia).
    rewrite length_app, firstn_length_le, length_skipn by lia.
    rewrite forallb_app, !forallb_firstn, !forallb_skipn by (try apply forallb_skipn; assumption).
    repeat split; auto; unfold LINE_BUFFER_SIZE in *; lia.
  - (* Ctrl-Y *)
    apply fold_insert_inv; auto; apply H.
  - (* Ctrl-T *)
    destruct H as (H1 & H2 & H3 & H4 & H5); edit_hyps; unfold inv, line_length, set_buffer in *.
    cbn [line_buffer cursor_pos history_index kill_buffer].
    rewrite length_app; cbn [List.length]; rewrite firstn_length_le, length_skipn by lia.
    rewrite forallb_app; cbn [forallb].
    rewrite forallb_firstn, forallb_skipn, !forallb_nth by (auto; lia).
    repeat split; auto; unfold LINE_BUFFER_SIZE in *; lia.
  - (* printable key *)
    edit_hyps; apply insert_char_inv; auto; apply printable_nonnul; lia.
Qed.


Ltac key_case := cbv beta iota delta [edit_key KEY_CTRL_A KEY_CTRL_B KEY_CTRL_D
  KEY_CTRL_E KEY_CTRL_F KEY_CTRL_H KEY_TAB KEY_CTRL_K KEY_CTRL_N KEY_CTRL_P KEY_CTRL_T
  KEY_CTRL_U KEY_CTRL_W KEY_CTRL_Y KEY_BACKSPACE KEY_ARROW_UP KEY_ARROW_DOWN
  KEY_ARROW_RIGHT KEY_ARROW_LEFT KEY_HOME KEY_END KEY_DELETE Z.eqb Pos.eqb orb andb].

Lemma edit_key_printable h gc e key :
  (32 <= key < 127)%Z -> edit_key h gc e key = insert_char (ascii_of_nat (Z.to_nat key)) e.
Proof.
  intros Hk; unfold edit_key.
  repeat rewrite (proj2 (Z.eqb_neq key _)) by key_neq.
  rewrite (proj2 (Z.leb_le 32 key)), (proj2 (Z.ltb_lt key 127)) by lia.
  reflexivity.
Qed.

Lemma firstn_app_len {A} (l1 r : list A) n : List.length l1 = n -> firstn n (l1 ++ r) = l1.
Proof. intros <-; induction l1 as [|x l1 IH]; simpl; f_equal; auto. Qed.

Lemma skipn_prefix {A} (l1 r : list A) n : List.length l1 = n -> skipn n (l1 ++ r) = r.
Proof. intros <-; induction l1 as [|x l1 IH]; simpl; auto. Qed.

(** A yank inserts the kill buffer at the cursor, byte by byte. *)
Lemma yank_at ks e :
  cursor_pos e <= line_length e -> line_length e + List.length ks <= LINE_BUFFER_SIZE - 1 ->
  let e' := fold_left (fun e' c => insert_char c e') ks e in
  line_buffer e' = firstn (cursor_pos e) (line_buffer e) ++ ks ++ skipn (cursor_pos e) (line_buffer e) /\
  cursor_pos e' = cursor_pos e + List.length ks.
Proof.
  revert e; induction ks as [|c ks IH]; intros e H1 H2; cbn [fold_left List.length].
  - rewrite firstn_skipn; split; [reflexivity | lia].
  - assert (Hi : insert_char c e = set_buffer e (firstn (cursor_pos e) (line_buffer e) ++
                      c :: skipn (cursor_pos e) (line_buffer e)) (S (cursor_pos e))).
    { unfold insert_char; destruct (Nat.leb_spec (LINE_BUFFER_SIZE - 1) (line_length e));
        [cbn [List.length] in H2; lia|reflexivity]. }
    rewrite Hi; unfold line_length in *.
    set (e1 := set_buffer e _ _).
    assert (Hl1 : List.length (firstn (cursor_pos e) (line_buffer e)) = cursor_pos e)
      by (apply firstn_length_le; lia).
    assert (Hlen : line_length e1 = S (List.length (line_buffer e))).
    { unfold e1, set_buffer, line_length; cbn [line_buffer].
      rewrite length_app; cbn [List.length]; rewrite length_skipn; lia. }
    destruct (IH e1) as [Hb Hc].
    + unfold e1, set_buffer, line_length in *; cbn [cursor_pos line_buffer] in *; lia.
    + cbn [List.length] in H2; unfold line_length in Hlen; lia.
    + split; [|rewrite Hc; unfold e1, set_buffer; cbn [cursor_pos List.length]; lia].
      rewrite Hb; unfold e1, set_buffer; cbn [cursor_pos line_buffer].
      rewrite (firstn_snoc _ _ _ _ Hl1), (skipn_snoc _ _ _ _ Hl1), <- app_assoc; reflexivity.
Qed.

(** Typing at the end of the line appends until the buffer is full. *)
Lemma type_at_end cs e :
  cursor_pos e = line_length e -> line_length e <= LINE_BUFFER_SIZE - 1 ->
  let e' := fold_left (fun e' c => insert_char c e') cs e in
  line_buffer e' = firstn (LINE_BUFFER_SIZE - 1) (line_buffer e ++ cs) /\
  cursor_pos e' = line_length e'.
Proof.
  revert e; induction cs as [|c cs IH]; intros e H1 H2; cbn [fold_left].
  - rewrite app_nil_r, firstn_all2 by exact H2; auto.
  - destruct (Nat.leb_spec (LINE_BUFFER_SIZE - 1) (line_length e)) as [Hf|Hf].
    + assert (Hi : insert_char c e = e)
        by (unfold insert_char; destruct (Nat.leb_spec (LINE_BUFFER_SIZE - 1) (line_length e));
            [reflexivity|lia]).
      rewrite Hi; destruct (IH e H1 H2) as [Hb Hc]; split; auto.
      rewrite Hb; unfold line_length in *.
      assert (E : LINE_BUFFER_SIZE - 1 = List.length (line_buffer e)) by lia.
      rewrite E, !(firstn_app_len _ _ _ eq_refl); reflexivity.
    + assert (Hi : insert_char c e =
                   set_buffer e (line_buffer e ++ [c]) (S (List.length (line_buffer e)))).
      { unfold insert_char; destruct (Nat.leb_spec (LINE_BUFFER_SIZE - 1) (line_length e));
          [lia|]; unfold line_length in *; rewrite H1, firstn_all, skipn_all; reflexivity. }
      rewrite Hi.
      destruct (IH (set_buffer e (line_buffer e ++ [c]) (S (List.length (line_buffer e)))))
        as [Hb Hc]; unfold set_buffer, line_length in *; cbn [cursor_pos line_buffer] in *;
        rewrite ?length_app; cbn [List.length]; try lia.
      split; auto; rewrite Hb, <- app_assoc; reflexivity.
Qed.

Lemma edit_keys_printable h gc keys e :
  Forall (fun k => (32 <= k < 127)%Z) keys ->
  fold_left (edit_key h gc) keys e =
  fold_left (fun e' c => insert_char c e') (map (fun k => ascii_of_nat (Z.to_nat k)) keys) e.
Proof.
  intros H; revert e; induction H as [|k keys Hk H IH]; intros e; simpl; auto.
  rewrite edit_key_printable by exact Hk; apply IH.
Qed.

Lemma readline_loop_typed termios ok h gc keys s :
  Forall (fun k => (32 <= k < 127)%Z) keys ->
  exists s', Readline.readline_loop termios ok editor (fun e => Z.of_nat (line_length e))
               (edit_key h gc) (keys ++ [Readline.KEY_ENTER]) s =
             Some (Readline.RLLine _ (fold_left (edit_key h gc) keys (Readline.line _ _ s)), s').
Proof.
  intros H; revert s; induction H as [|k keys Hk H IH]; intros s.
  - eexists; reflexivity.
  - cbn [app Readline.readline_loop fold_left].
    repeat rewrite (proj2 (Z.eqb_neq k _))
      by (unfold Readline.KEY_ENTER, Readline.KEY_CTRL_J, Readline.KEY_CTRL_D,
            Readline.KEY_CTRL_C; lia).
    cbn [orb andb]; apply IH.
Qed.

Lemma enable_raw_mode_line termios make_raw tty g r ls (s : Readline.tstate termios ls) :
  Readline.line _ _ (Readline.enable_raw_mode termios make_raw tty g r ls s) = Readline.line _ _ s.
Proof.
  unfold Readline.enable_raw_mode; destruct (Readline.raw_mode_enabled _ _ s), tty, g, r;
    reflexivity.
Qed.

Lemma reset_line_inv h e :
  forallb nonnul (kill_buffer e) = true -> inv h (reset_line h e).
Proof.
  intros Hk; unfold inv, reset_line, line_length, history_len; cbn.
  repeat split; auto; unfold LINE_BUFFER_SIZE; lia.
Qed.

Lemma readline_loop_inv termios ok h gc keys s e s' :
  inv h (Readline.line _ _ s) ->
  Readline.readline_loop termios ok editor (fun e => Z.of_nat (line_length e))
    (edit_key h gc) keys s = Some (Readline.RLLine _ e, s') ->
  inv h e.
Proof.
  revert s; induction keys as [|k keys IH]; intros s Hs H; cbn [Readline.readline_loop] in H.
  - discriminate.
  - destruct (k =? -1)%Z; [discriminate|].
    destruct (_ || _)%bool; [injection H as <- _; exact Hs|].
    destruct (_ && _)%bool; [discriminate|].
    destruct (k =? Readline.KEY_CTRL_C)%Z; [discriminate|].
    eapply IH; [|exact H]; exact (edit_key_inv h gc _ k Hs).
Qed.

(* ------------------------------------------------------------------ *)

(** Extra: in a terminal, [shell_readline] returns a line of at most
    [LINE_BUFFER_SIZE - 1] bytes with no NUL byte in it, whatever keys are
    pressed (given a kill buffer without NUL, as [readline_init] leaves it
    and every kill keeps it). *)
Theorem shell_readline_line_bounded termios make_raw tty g r ok h gc keys s e s' :
  forallb nonnul (kill_buffer (Readline.line _ _ s)) = true ->
  Readline.shell_readline termios make_raw tty g r ok editor (reset_line h)
    (fun e0 => Z.of_nat (line_length e0)) (edit_key h gc) keys s =
  Some (Readline.RLLine _ e, s') ->
  line_length e <= LINE_BUFFER_SIZE - 1 /\ forallb nonnul (line_buffer e) = true.
Proof.
  intros Hk H; unfold Readline.shell_readline in H.
  destruct tty; [|discriminate].
  apply readline_loop_inv in H; [destruct H as (_ & ? & ? & _); auto|].
  rewrite enable_raw_mode_line; apply reset_line_inv; exact Hk.
Qed.

Lemma shell_readline_line_bounded_witness :
  forallb nonnul (kill_buffer (Readline.line _ _
    (Readline.mk_tstate unit editor tt false tt (mk_editor [] 0 0 [])))) = true /\
  line_length (mk_editor ["h"%char] 1 0 []) <= LINE_BUFFER_SIZE - 1 /\
  forallb nonnul (line_buffer (mk_editor ["h"%char] 1 0 [])) = true.
Proof.
  split; [reflexivity|].
  apply (shell_readline_line_bounded unit (fun t => t) true true true true [] (fun _ _ => None)
           [104%Z; Readline.KEY_ENTER]
           (Readline.mk_tstate unit editor tt false tt (mk_editor [] 0 0 []))
           (mk_editor ["h"%char] 1 0 [])
           (Readline.mk_tstate unit editor tt false tt (mk_editor ["h"%char] 1 0 [])));
    reflexivity.
Defined.

(** Extra: in a terminal, typing printable keys (codes 32 to 126) and then
    Enter makes [shell_readline] return the typed characters, cut to the
    first [LINE_BUFFER_SIZE - 1]: keys typed into a full buffer are dropped. *)
Theorem shell_readline_typed_line termios make_raw g r ok h gc keys s :
  Forall (fun k => (32 <= k < 127)%Z) keys ->
  exists e s',
    Readline.shell_readline termios make_raw true g r ok editor (reset_line h)
      (fun e0 => Z.of_nat (line_length e0)) (edit_key h gc) (keys ++ [Readline.KEY_ENTER]) s =
    Some (Readline.RLLine _ e, s') /\
    line_buffer e = firstn (LINE_BUFFER_SIZE - 1) (map (fun k => ascii_of_nat (Z.to_nat k)) keys).
Proof.
  intros H; unfold Readline.shell_readline; cbn [negb].
  destruct (readline_loop_typed termios ok h gc keys
              (Readline.enable_raw_mode termios make_raw true g r editor
                 (Readline.with_line termios editor s (reset_line h (Readline.line _ _ s)))) H)
    as [s' Hs].
  rewrite Hs; do 2 eexists; split; [reflexivity|].
  rewrite edit_keys_printable by exact H.
  rewrite enable_raw_mode_line.
  apply type_at_end; reflexivity || (cbn; unfold LINE_BUFFER_SIZE; lia).
Qed.

Lemma shell_readline_typed_line_witness :
  Forall (fun k => (32 <= k < 127)%Z) [104%Z; 105%Z] /\
  exists e s',
    Readline.shell_readline unit (fun t => t) true true true true editor (reset_line [])
      (fun e0 => Z.of_nat (line_length e0)) (edit_key [] (fun _ _ => None))
      ([104%Z; 105%Z] ++ [Readline.KEY_ENTER])
      (Readline.mk_tstate unit editor tt false tt (mk_editor [] 0 0 [])) =
    Some (Readline.RLLine _ e, s') /\
    line_buffer e = firstn (LINE_BUFFER_SIZE - 1)
                      (map (fun k => ascii_of_nat (Z.to_nat k)) [104%Z; 105%Z]).
Proof.
  assert (H : Forall (fun k => (32 <= k < 127)%Z) [104%Z; 105%Z])
    by (repeat constructor; lia).
  split; [exact H|].
  exact (shell_readline_typed_line unit (fun t => t) true true true [] (fun _ _ => None)
           [104%Z; 105%Z] (Readline.mk_tstate unit editor tt false tt (mk_editor [] 0 0 [])) H).
Defined.

(** Extra: a printable key followed by Backspace gives back the editor state
    it started from, when the line is not full. *)
Theorem insert_then_backspace h gc e key :
  inv h e -> line_length e < LINE_BUFFER_SIZE - 1 -> (32 <= key < 127)%Z ->
  edit_key h gc (edit_key h gc e key) KEY_BACKSPACE = e.
Proof.
  intros (H1 & _) Hl Hk; rewrite (edit_key_printable h gc e key Hk).
  key_case; unfold insert_char.
  destruct (Nat.leb_spec (LINE_BUFFER_SIZE - 1) (line_length e)); [lia|].
  unfold backspace_char, delete_char, set_buffer, line_length in *;
    cbn [cursor_pos line_buffer history_index kill_buffer Nat.pred].
  assert (Hl1 : List.length (firstn (cursor_pos e) (line_buffer e)) = cursor_pos e)
    by (apply firstn_length_le; lia).
  replace (0 <? S (cursor_pos e)) with true by (symmetry; apply Nat.ltb_lt; lia).
  replace (cursor_pos e <? _) with true
    by (symmetry; apply Nat.ltb_lt; rewrite length_app; cbn [List.length]; lia).
  cbn [cursor_pos line_buffer history_index kill_buffer].
  rewrite (firstn_app_len _ _ _ Hl1), (skipn_snoc _ _ _ _ Hl1), firstn_skipn.
  destruct e; reflexivity.
Qed.

Lemma insert_then_backspace_witness :
  inv [] (mk_editor ["a"%char] 0 0 []) /\ line_length (mk_editor ["a"%char] 0 0 []) < LINE_BUFFER_SIZE - 1 /\
  (32 <= 98 < 127)%Z /\
  edit_key [] (fun _ _ => None) (edit_key [] (fun _ _ => None) (mk_editor ["a"%char] 0 0 []) 98%Z)
    KEY_BACKSPACE = mk_editor ["a"%char] 0 0 [].
Proof.
  assert (H : inv [] (mk_editor ["a"%char] 0 0 []))
    by (unfold inv, line_length, LINE_BUFFER_SIZE; cbn; repeat split; lia).
  assert (Hl : line_length (mk_editor ["a"%char] 0 0 []) < LINE_BUFFER_SIZE - 1)
    by (unfold line_length, LINE_BUFFER_SIZE; cbn; lia).
  assert (Hk : (32 <= 98 < 127)%Z) by lia.
  split; [exact H|split; [exact Hl|split; [exact Hk|]]].
  exact (insert_then_backspace [] (fun _ _ => None) _ 98%Z H Hl Hk).
Defined.

(** Extra: a kill followed by a yank (Ctrl-Y) restores the line: Ctrl-K
    (kill to end, cursor before the end) leaves the cursor at the end of the
    restored line, Ctrl-U (kill to start) and Ctrl-W (kill the word before
    the cursor) leave it where it was (cursor after the start). *)
Theorem kill_then_yank_restores h gc e :
  inv h e ->
  (cursor_pos e < line_length e ->
   let e2 := edit_key h gc (edit_key h gc e KEY_CTRL_K) KEY_CTRL_Y in
   line_buffer e2 = line_buffer e /\ cursor_pos e2 = line_length e) /\
  (0 < cursor_pos e ->
   let e2 := edit_key h gc (edit_key h gc e KEY_CTRL_U) KEY_CTRL_Y in
   line_buffer e2 = line_buffer e /\ cursor_pos e2 = cursor_pos e) /\
  (0 < cursor_pos e ->
   let e2 := edit_key h gc (edit_key h gc e KEY_CTRL_W) KEY_CTRL_Y in
   line_buffer e2 = line_buffer e /\ cursor_pos e2 = cursor_pos e).
Proof.
  intros (H1 & H2 & H3 & H4 & H5); unfold line_length in *.
  split; [|split]; intros Hc; cbv zeta; key_case.
  - replace (cursor_pos e <? line_length e) with true by (symmetry; apply Nat.ltb_lt; exact Hc).
    cbn [kill_buffer line_buffer cursor_pos]; unfold line_length.
    rewrite kill_to_end_kill by assumption.
    replace (0 <? List.length (skipn (cursor_pos e) (line_buffer e))) with true
      by (symmetry; apply Nat.ltb_lt; rewrite length_skipn; lia).
    assert (Hl1 : List.length (firstn (cursor_pos e) (line_buffer e)) = cursor_pos e)
      by (apply firstn_length_le; lia).
    destruct (yank_at (skipn (cursor_pos e) (line_buffer e))
                (mk_editor (firstn (cursor_pos e) (line_buffer e)) (cursor_pos e)
                   (history_index e) (skipn (cursor_pos e) (line_buffer e)))) as [Hb Hcur];
      unfold line_length in *; cbn [line_buffer cursor_pos] in *;
      rewrite ?Hl1, ?length_skipn; try lia.
    rewrite Hb, Hcur, length_skipn, firstn_firstn, Nat.min_id.
    rewrite (skipn_all2 (firstn (cursor_pos e) (line_buffer e))) by lia.
    rewrite app_nil_r, firstn_skipn; split; [reflexivity|lia].
  - replace (0 <? cursor_pos e) with true by (symmetry; apply Nat.ltb_lt; exact Hc).
    cbn [kill_buffer line_buffer cursor_pos].
    rewrite strncpy_slice by (auto; lia).
    replace (0 <? List.length (firstn (cursor_pos e) (line_buffer e))) with true
      by (symmetry; apply Nat.ltb_lt; rewrite firstn_length_le; lia).
    destruct (yank_at (firstn (cursor_pos e) (line_buffer e))
                (mk_editor (skipn (cursor_pos e) (line_buffer e)) 0
                   (history_index e) (firstn (cursor_pos e) (line_buffer e)))) as [Hb Hcur];
      unfold line_length in *; cbn [line_buffer cursor_pos] in *;
      rewrite ?length_skipn, ?firstn_length_le; try lia.
    rewrite Hb, Hcur, firstn_length_le by lia.
    cbn [firstn skipn app]; rewrite firstn_skipn; split; reflexivity.
  - replace (0 <? cursor_pos e) with true by (symmetry; apply Nat.ltb_lt; exact Hc).
    cbn [kill_buffer line_buffer cursor_pos].
    pose proof (kill_word_bounds (line_buffer e) (cursor_pos e) Hc) as Hp; cbn zeta in Hp.
    set (p1 := skip_back is_space_char (line_buffer e) (cursor_pos e)) in *.
    set (p := skip_back (fun c => negb (is_space_char c)) (line_buffer e) p1) in *.
    rewrite strncpy_slice by (try apply forallb_skipn; auto; rewrite length_skipn; lia).
    assert (Hk : List.length (firstn (cursor_pos e - p) (skipn p (line_buffer e))) = cursor_pos e - p)
      by (rewrite firstn_length_le; [reflexivity|rewrite length_skipn; lia]).
    replace (0 <? List.length (firstn (cursor_pos e - p) (skipn p (line_buffer e)))) with true
      by (symmetry; apply Nat.ltb_lt; lia).
    assert (Hl1 : List.length (firstn p (line_buffer e)) = p)
      by (apply firstn_length_le; lia).
    destruct (yank_at (firstn (cursor_pos e - p) (skipn p (line_buffer e)))
                (mk_editor (firstn p (line_buffer e) ++ skipn (cursor_pos e) (line_buffer e)) p
                   (history_index e) (firstn (cursor_pos e - p) (skipn p (line_buffer e)))))
      as [Hb Hcur];
      unfold line_length in *; cbn [line_buffer cursor_pos] in *;
      rewrite ?length_app, ?Hl1, ?Hk, ?length_skipn; try lia.
    rewrite Hb, Hcur, Hk, (firstn_app_len _ _ _ Hl1), (skipn_prefix _ _ _ Hl1).
    replace (skipn (cursor_pos e) (line_buffer e))
      with (skipn (cursor_pos e - p) (skipn p (line_buffer e)))
      by (rewrite skipn_skipn; f_equal; lia).
    rewrite firstn_skipn, firstn_skipn; split; [reflexivity|lia].
Qed.

Lemma kill_then_yank_restores_witness :
  inv [] (mk_editor ["a"%char; " "%char; "b"%char] 1 0 []) /\
  ((cursor_pos (mk_editor ["a"%char; " "%char; "b"%char] 1 0 []) <
    line_length (mk_editor ["a"%char; " "%char; "b"%char] 1 0 []) ->
    let e2 := edit_key [] (fun _ _ => None)
                (edit_key [] (fun _ _ => None) (mk_editor ["a"%char; " "%char; "b"%char] 1 0 [])
                   KEY_CTRL_K) KEY_CTRL_Y in
    line_buffer e2 = ["a"%char; " "%char; "b"%char] /\ cursor_pos e2 = 3) /\
   (0 < 1 ->
    let e2 := edit_key [] (fun _ _ => None)
                (edit_key [] (fun _ _ => None) (mk_editor ["a"%char; " "%char; "b"%char] 1 0 [])
                   KEY_CTRL_U) KEY_CTRL_Y in
    line_buffer e2 = ["a"%char; " "%char; "b"%char] /\ cursor_pos e2 = 1) /\
   (0 < 1 ->
    let e2 := edit_key [] (fun _ _ => None)
                (edit_key [] (fun _ _ => None) (mk_editor ["a"%char; " "%char; "b"%char] 1 0 [])
                   KEY_CTRL_W) KEY_CTRL_Y in
    line_buffer e2 = ["a"%char; " "%char; "b"%char] /\ cursor_pos e2 = 1)).
Proof.
  assert (H : inv [] (mk_editor ["a"%char; " "%char; "b"%char] 1 0 []))
    by (unfold inv, line_length, LINE_BUFFER_SIZE; cbn; repeat split; lia).
  split; [exact H|].
  exact (kill_then_yank_restores [] (fun _ _ => None) _ H).
Defined.

Lemma edit_key_ctrl_p h gc e :
  edit_key h gc e KEY_CTRL_P = edit_key h gc e KEY_ARROW_UP.
Proof. key_case. reflexivity. Qed.

Lemma edit_key_ctrl_n h gc e :
  edit_key h gc e KEY_CTRL_N = edit_key h gc e KEY_ARROW_DOWN.
Proof. key_case. reflexivity. Qed.

(** Extra: Up or Ctrl-P steps [history_index] back by one and shows that
    history entry, Down or Ctrl-N steps it forward and shows that entry, or
    an empty line once it reaches [history_len]; the entry shown is cut to
    [LINE_BUFFER_SIZE - 1] bytes and the cursor is put at its end. *)
Theorem history_up_down h gc e :
  history_index e <= List.length h ->
  (forall k, k = KEY_ARROW_UP \/ k = KEY_CTRL_P ->
   0 < history_index e ->
   let e' := edit_key h gc e k in
   history_index e' = pred (history_index e) /\
   line_buffer e' = cstr (firstn (LINE_BUFFER_SIZE - 1) (nth (pred (history_index e)) h [])) /\
   cursor_pos e' = line_length e') /\
  (forall k, k = KEY_ARROW_DOWN \/ k = KEY_CTRL_N ->
   history_index e < List.length h ->
   let e' := edit_key h gc e k in
   history_index e' = S (history_index e) /\
   line_buffer e' = (if S (history_index e) =? List.length h then []
                     else cstr (firstn (LINE_BUFFER_SIZE - 1) (nth (S (history_index e)) h []))) /\
   cursor_pos e' = line_length e').
Proof.
  intros Hh; split; intros k Hk Hc; cbv zeta.
  1: assert (edit_key h gc e k = edit_key h gc e KEY_ARROW_UP) as ->
       by (destruct Hk as [-> | ->]; [reflexivity | apply edit_key_ctrl_p]).
  2: assert (edit_key h gc e k = edit_key h gc e KEY_ARROW_DOWN) as ->
       by (destruct Hk as [-> | ->]; [reflexivity | apply edit_key_ctrl_n]).
  all: key_case.
  - replace (0 <? history_index e) with true by (symmetry; apply Nat.ltb_lt; exact Hc).
    unfold set_line_from_history, history_len; cbn [history_index].
    replace ((Z.of_nat (List.length h) - 1 - Z.of_nat (pred (history_index e)) <? 0) ||
             (Z.of_nat (List.length h) <=? Z.of_nat (List.length h) - 1 -
                                             Z.of_nat (pred (history_index e))))%Z
      with false by (symmetry; apply orb_false_iff; split; [apply Z.ltb_ge|apply Z.leb_gt]; lia).
    replace (Z.to_nat (Z.of_nat (List.length h) - 1 -
                       (Z.of_nat (List.length h) - 1 - Z.of_nat (pred (history_index e)))))
      with (pred (history_index e)) by lia.
    unfold set_buffer, line_length; cbn [history_index line_buffer cursor_pos].
    repeat split; reflexivity.
  - replace (history_index e <? history_len h) with true
      by (symmetry; apply Nat.ltb_lt; exact Hc).
    cbn [history_index]; unfold history_len.
    destruct (Nat.eqb_spec (S (history_index e)) (List.length h)) as [E|E].
    + unfold set_buffer, line_length; cbn; repeat split; reflexivity.
    + unfold set_line_from_history, history_len; cbn [history_index].
      replace ((Z.of_nat (List.length h) - 1 - Z.of_nat (S (history_index e)) <? 0) ||
               (Z.of_nat (List.length h) <=? Z.of_nat (List.length h) - 1 -
                                               Z.of_nat (S (history_index e))))%Z
        with false by (symmetry; apply orb_false_iff; split; [apply Z.ltb_ge|apply Z.leb_gt]; lia).
      replace (Z.to_nat (Z.of_nat (List.length h) - 1 -
                         (Z.of_nat (List.length h) - 1 - Z.of_nat (S (history_index e)))))
        with (S (history_index e)) by lia.
      unfold set_buffer, line_length; cbn [history_index line_buffer cursor_pos].
      repeat split; reflexivity.
Qed.

Lemma history_up_down_witness :
  let h := [["l"%char; "s"%char]; ["p"%char; "w"%char; "d"%char]; ["i"%char; "d"%char]] in
  let e := mk_editor [] 0 1 [] in
  1 <= List.length h /\
  (let e' := edit_key h (fun _ _ => None) e KEY_CTRL_P in
   history_index e' = 0 /\
   line_buffer e' = cstr (firstn (LINE_BUFFER_SIZE - 1) (nth 0 h [])) /\
   cursor_pos e' = line_length e') /\
  (let e' := edit_key h (fun _ _ => None) e KEY_ARROW_DOWN in
   history_index e' = 2 /\
   line_buffer e' = (if 2 =? List.length h then []
                     else cstr (firstn (LINE_BUFFER_SIZE - 1) (nth 2 h []))) /\
   cursor_pos e' = line_length e').
Proof.
  intros h e.
  assert (H : 1 <= List.length h) by (cbn; lia).
  destruct (history_up_down h (fun _ _ => None) e H) as [Hu Hd].
  split; [exact H | split].
  - apply (Hu KEY_CTRL_P); [right; reflexivity | cbn; lia].
  - apply (Hd KEY_ARROW_DOWN); [left; reflexivity | cbn; lia].
Defined.

(** No two neighbouring entries of the history are equal. *)
Fixpoint adj_distinct (h : list (list ascii)) : Prop :=
  match h with
  | x :: ((y :: _) as r) => x <> y /\ adj_distinct r
  | _ => True
  end.

(** The shape [history_add] keeps: at most [HISTORY_SIZE] entries, none empty
    or with a NUL byte, no entry equal to the one before it. *)
Definition hist_ok (h : list (list ascii)) : Prop :=
  List.length h <= HISTORY_SIZE /\
  Forall (fun l => l <> [] /\ forallb nonnul l = true) h /\ adj_distinct h.

Lemma adj_snoc h l :
  adj_distinct h -> (h <> [] -> last h [] <> l) -> adj_distinct (h ++ [l]).
Proof.
  induction h as [|x [|y r] IH]; cbn; auto.
  - intros _ H; split; auto; apply H; discriminate.
  - intros [Hxy Hr] Hl; split; auto.
    apply IH; auto; intros _; apply Hl; discriminate.
Qed.

Lemma adj_tl h : adj_distinct h -> adj_distinct (tl h).
Proof. destruct h as [|x [|y r]]; cbn; tauto. Qed.

Lemma last_tl (h : list (list ascii)) : 2 <= List.length h -> last (tl h) [] = last h [].
Proof. destruct h as [|x [|y r]]; cbn; intros; auto; lia. Qed.

Lemma history_add_cases h line :
  history_add h line = h \/
  (cstr line <> [] /\ (h <> [] -> last h [] <> cstr line) /\
   history_add h line = (if HISTORY_SIZE <=? List.length h then tl h else h) ++ [cstr line]).
Proof.
  unfold history_add; destruct (cstr line) as [|c l'] eqn:Ec; auto.
  destruct (0 <? List.length h) eqn:E0; cbn [andb];
    [destruct (list_eq_dec ascii_dec (last h []) (c :: l')) as [Eq|Ne]; auto|].
  - right; split; [discriminate|split; auto].
  - right; split; [discriminate|split; auto].
    intros Hn; destruct h; [congruence|cbn in E0; discriminate].
Qed.

(** Extra: [history_add] keeps the history at most [HISTORY_SIZE] entries
    long, free of empty entries and of entries with a NUL byte, and with no
    entry equal to the one just before it. *)
Theorem history_add_ok h line : hist_ok h -> hist_ok (history_add h line).
Proof.
  intros (Hl & Hf & Ha).
  destruct (history_add_cases h line) as [-> | (Hne & Hlast & ->)]; [split; auto|].
  assert (Hc : cstr line <> [] /\ forallb nonnul (cstr line) = true)
    by (split; [exact Hne|apply take_while_forallb]).
  unfold hist_ok, HISTORY_SIZE in *.
  destruct (Nat.leb_spec 1000 (List.length h)) as [Hfull|Hfull].
  - assert (E : List.length h = 1000) by lia.
    rewrite length_app, length_tl; cbn [List.length].
    split; [lia|split].
    + apply Forall_app; split; auto.
      destruct h; cbn; auto; inversion Hf; auto.
    + apply adj_snoc; [apply adj_tl; exact Ha|].
      rewrite last_tl by lia; intros _; apply Hlast.
      intros ->; cbn in E; discriminate.
  - rewrite length_app; cbn [List.length].
    split; [lia|split].
    + apply Forall_app; split; auto.
    + apply adj_snoc; auto.
Qed.

Lemma history_add_ok_witness :
  hist_ok [] /\ hist_ok (history_add [] ["l"%char; "s"%char]).
Proof.
  assert (H : hist_ok []) by (unfold hist_ok; cbn; repeat split; auto; unfold HISTORY_SIZE; lia).
  split; [exact H|exact (history_add_ok [] ["l"%char; "s"%char] H)].
Defined.

(** Extra: after [history_add] of a line that is not empty, [history_get]
    of index [history_count() - 1] gives that line; the count grows by one,
    up to [HISTORY_SIZE], unless the line equals the newest entry. *)
Theorem history_add_newest h line :
  List.length h <= HISTORY_SIZE -> cstr line <> [] ->
  let h' := history_add h line in
  history_get h' (Z.of_nat (List.length h') - 1) = Some (cstr line) /\
  List.length h' = (if (0 <? List.length h) &&
                       (if list_eq_dec ascii_dec (last h []) (cstr line) then true else false)
                    then List.length h else Nat.min (S (List.length h)) HISTORY_SIZE).
Proof.
  intros Hl Hne h'; unfold h', history_add.
  destruct (cstr line) as [|c l'] eqn:Ec; [congruence|].
  destruct ((0 <? List.length h) &&
            (if list_eq_dec ascii_dec (last h []) (c :: l') then true else false))%bool eqn:Ed.
  - apply andb_true_iff in Ed as [E0 Eq]; apply Nat.ltb_lt in E0.
    destruct (list_eq_dec ascii_dec (last h []) (c :: l')) as [Eq'|]; [|discriminate].
    split; [|reflexivity].
    unfold history_get.
    replace ((Z.of_nat (List.length h) - 1 <? 0) ||
             (Z.of_nat (List.length h) <=? Z.of_nat (List.length h) - 1))%Z
      with false by (symmetry; apply orb_false_iff; split; [apply Z.ltb_ge|apply Z.leb_gt]; lia).
    rewrite <- Eq'; f_equal.
    replace (Z.to_nat (Z.of_nat (List.length h) - 1)) with (pred (List.length h)) by lia.
    destruct h as [|x r] using rev_ind; [cbn in E0; lia|].
    rewrite last_last, length_app; cbn [List.length].
    rewrite app_nth2 by lia; replace (pred (List.length r + 1) - List.length r) with 0 by lia.
    reflexivity.
  - set (base := if HISTORY_SIZE <=? List.length h then tl h else h).
    assert (Hb : List.length base = Nat.min (S (List.length h)) HISTORY_SIZE - 1).
    { unfold base, HISTORY_SIZE in *; destruct (Nat.leb_spec 1000 (List.length h));
        [rewrite length_tl|]; lia. }
    rewrite length_app; cbn [List.length].
    split; [|unfold HISTORY_SIZE in *; lia].
    unfold history_get; rewrite length_app; cbn [List.length].
    replace ((Z.of_nat (List.length base + 1) - 1 <? 0) ||
             (Z.of_nat (List.length base + 1) <=? Z.of_nat (List.length base + 1) - 1))%Z
      with false by (symmetry; apply orb_false_iff; split; [apply Z.ltb_ge|apply Z.leb_gt]; lia).
    replace (Z.to_nat (Z.of_nat (List.length base + 1) - 1)) with (List.length base) by lia.
    rewrite app_nth2, Nat.sub_diag by lia; reflexivity.
Qed.

Lemma history_add_newest_witness :
  List.length [["l"%char; "s"%char]] <= HISTORY_SIZE /\ cstr ["p"%char; "w"%char; "d"%char] <> [] /\
  (let h' := history_add [["l"%char; "s"%char]] ["p"%char; "w"%char; "d"%char] in
   history_get h' (Z.of_nat (List.length h') - 1) = Some (cstr ["p"%char; "w"%char; "d"%char]) /\
   List.length h' = (if (0 <? List.length [["l"%char; "s"%char]]) &&
                        (if list_eq_dec ascii_dec (last [["l"%char; "s"%char]] [])
                              (cstr ["p"%char; "w"%char; "d"%char]) then true else false)
                     then List.length [["l"%char; "s"%char]]
                     else Nat.min (S (List.length [["l"%char; "s"%char]])) HISTORY_SIZE)).
Proof.
  assert (H1 : List.length [["l"%char; "s"%char]] <= HISTORY_SIZE)
    by (unfold HISTORY_SIZE; cbn; lia).
  assert (H2 : cstr ["p"%char; "w"%char; "d"%char] <> []) by (vm_compute; discriminate).
  split; [exact H1|split; [exact H2|]].
  exact (history_add_newest _ _ H1 H2).
Defined.

End LineEditorProofs.
Module VariableOpsProofs.
Import Variables VariableOps VariablesProofs.

Lemma getenv_setenv env name value : getenv (setenv env name value) name = Some value.
Proof.
  induction env as [|[n v] r IH]; cbn [setenv getenv].
  - rewrite String.eqb_refl; reflexivity.
  - destruct (String.eqb_spec n name) as [->|Hne]; cbn [getenv].
    + rewrite String.eqb_refl; reflexivity.
    + apply String.eqb_neq in Hne; rewrite Hne; exact IH.
Qed.

Lemma getenv_unsetenv env name : getenv (unsetenv env name) name = None.
Proof.
  unfold unsetenv; induction env as [|[n v] r IH]; cbn [filter getenv]; auto.
  destruct (String.eqb_spec n name) as [->|Hne]; cbn [fst negb]; auto.
  rewrite String.eqb_refl; auto.
  apply String.eqb_neq in Hne; rewrite Hne; cbn [negb getenv]; rewrite Hne; exact IH.
Qed.

(** A name [get_variable] looks up in the table: a letter or [_] followed by
    letters, digits and [_]. *)
Definition valid_name (name : string) : bool :=
  match list_ascii_of_string name with
  | c :: _ => negb (isdigit c) && forallb is_varname_char (list_ascii_of_string name)
  | [] => false
  end.

Lemma get_variable_ordinary st name :
  valid_name name = true ->
  get_variable st name = match find_variable st name with
                         | Some (_, var) => Some (var_value var)
                         | None => getenv (environ st) name
                         end.
Proof.
  intros Hv; destruct name as [|c r]; [discriminate|].
  assert (Hd : isdigit c = false)
    by (unfold valid_name in Hv; cbn [list_ascii_of_string] in Hv;
        destruct (isdigit c); [discriminate|reflexivity]).
  unfold get_variable.
  repeat match goal with
    | |- context [String.eqb (String c r) ?x] =>
        destruct (String.eqb_spec (String c r) x) as [E|_];
        [rewrite E in Hv; vm_compute in Hv; discriminate|]
    end.
  destruct r as [|c' r']; [|reflexivity].
  rewrite Hd.
  repeat match goal with
    | |- context [String.eqb (String c EmptyString) ?x] =>
        destruct (String.eqb_spec (String c EmptyString) x) as [E|_];
        [rewrite E in Hv; vm_compute in Hv; discriminate|]
    end.
  reflexivity.
Qed.


(** The table invariant: [MAX_VARIABLES] slots, and [variable_count] equal to
    the number of occupied ones. *)
Definition is_some (o : option shell_var) : bool :=
  match o with Some _ => true | None => false end.

Definition occupied (tbl : list (option shell_var)) : Z :=
  Z.of_nat (List.length (filter is_some tbl)).

Definition store_ok (st : vstate) : Prop :=
  List.length (variables st) = Z.to_nat MAX_VARIABLES /\
  variable_count st = occupied (variables st).

Lemma filter_set_slot : forall tbl i x, (i < List.length tbl)%nat ->
  (List.length (filter is_some (set_slot tbl i x)) + (if is_some (nth i tbl None) then 1 else 0)
   = List.length (filter is_some tbl) + (if is_some x then 1 else 0))%nat.
Proof.
  induction tbl as [|y r IH]; intros [|i] x H; cbn [set_slot nth List.length] in *; try lia.
  - destruct y, x; cbn [filter is_some List.length]; lia.
  - specialize (IH i x ltac:(lia)).
    destruct y; cbn [filter is_some List.length]; lia.
Qed.

Lemma occupied_set_slot tbl i x :
  List.length tbl = Z.to_nat MAX_VARIABLES -> 0 <= i < MAX_VARIABLES ->
  occupied (set_slot tbl (Z.to_nat i) x)
  = occupied tbl - (if is_some (slot tbl i) then 1 else 0) + (if is_some x then 1 else 0).
Proof.
  intros Hl Hi. unfold occupied, slot.
  assert (Hlt : (Z.to_nat i < List.length tbl)%nat) by (rewrite Hl; unfold MAX_VARIABLES in *; lia).
  pose proof (filter_set_slot tbl (Z.to_nat i) x Hlt) as E.
  destruct (is_some (nth (Z.to_nat i) tbl None)), (is_some x); lia.
Qed.

Lemma unset_loop_found : forall n tbl name idx i,
  unset_loop n tbl name idx = Some i ->
  is_some (slot tbl i) = true /\ (0 <= idx < MAX_VARIABLES -> 0 <= i < MAX_VARIABLES).
Proof.
  induction n as [| n IH]; intros tbl name idx i H; simpl in H; try discriminate.
  destruct (slot tbl idx) as [w |] eqn:Hs; try discriminate.
  destruct (String.eqb (var_name w) name).
  - injection H as <-. rewrite Hs. auto.
  - destruct (IH _ _ _ _ H) as [H1 H2]. split; auto. intros _; apply H2, next_index_range.
Qed.

(** [unset_variable]'s removal loop stops at the slot [find_variable] found. *)
Lemma find_unset_same : forall n tbl name start idx i v,
  find_loop n tbl name start idx = Some (i, v) -> unset_loop n tbl name idx = Some i.
Proof.
  induction n as [| n IH]; intros tbl name start idx i v H; simpl in H |- *; try discriminate.
  destruct (slot tbl idx) as [w |]; try discriminate.
  destruct (String.eqb (var_name w) name).
  - congruence.
  - destruct ((idx + 1) mod MAX_VARIABLES =? start); [discriminate|]. eauto.
Qed.

(** Emptying the slot [find_variable] found makes the name unreachable. *)
Lemma find_loop_remove : forall n tbl name start idx i v,
  List.length tbl = Z.to_nat MAX_VARIABLES -> 0 <= idx < MAX_VARIABLES ->
  find_loop n tbl name start idx = Some (i, v) ->
  find_loop n (set_slot tbl (Z.to_nat i) None) name start idx = None.
Proof.
  induction n as [| n IH]; intros tbl name start idx i v Hl Hidx H; [discriminate |].
  pose proof (find_loop_found _ _ _ _ _ _ _ H) as (Hsi & Hvi & Hri).
  specialize (Hri Hidx).
  simpl in H |- *.
  rewrite (slot_set_slot tbl i idx None Hl Hri Hidx).
  destruct (slot tbl idx) as [w |] eqn:Hs; try discriminate.
  destruct (String.eqb (var_name w) name) eqn:Heq.
  - injection H as <- <-. rewrite Z.eqb_refl. reflexivity.
  - destruct (Z.eqb_spec i idx) as [-> | Hne].
    + apply String.eqb_neq in Heq. congruence.
    + rewrite Heq.
      destruct ((idx + 1) mod MAX_VARIABLES =? start); [reflexivity|].
      apply (IH _ _ _ _ _ v); auto using next_index_range.
Qed.

Lemma free_loop_none : forall n tbl idx, 0 <= idx < MAX_VARIABLES ->
  free_loop n tbl idx = None ->
  forall k, (k < n)%nat -> is_some (slot tbl ((idx + Z.of_nat k) mod MAX_VARIABLES)) = true.
Proof.
  induction n as [| n IH]; intros tbl idx Hidx H k Hk; [lia|].
  simpl in H. destruct (slot tbl idx) as [w|] eqn:Hs; [|discriminate].
  destruct k as [|k].
  - rewrite Z.add_0_r, Z.mod_small by exact Hidx. rewrite Hs; reflexivity.
  - specialize (IH tbl _ (next_index_range idx) H k ltac:(lia)).
    rewrite Zplus_mod_idemp_l in IH.
    replace (idx + 1 + Z.of_nat k) with (idx + Z.of_nat (S k)) in IH by lia.
    exact IH.
Qed.

Lemma filter_all_some : forall l : list (option shell_var),
  (forall j, (j < List.length l)%nat -> is_some (nth j l None) = true) ->
  List.length (filter is_some l) = List.length l.
Proof.
  induction l as [|y r IH]; intros H; [reflexivity|].
  pose proof (H O ltac:(cbn [List.length]; lia)) as H0. cbn [nth] in H0.
  cbn [filter]. rewrite H0. cbn [List.length]. f_equal.
  apply IH. intros j Hj. apply (H (S j)). cbn [List.length]; lia.
Qed.

(** When the free-slot search finds nothing, every slot is occupied. *)
Lemma free_loop_none_full tbl idx :
  List.length tbl = Z.to_nat MAX_VARIABLES -> 0 <= idx < MAX_VARIABLES ->
  free_loop (Z.to_nat MAX_VARIABLES) tbl idx = None -> occupied tbl = MAX_VARIABLES.
Proof.
  intros Hl Hidx H. unfold occupied. rewrite filter_all_some.
  - rewrite Hl. reflexivity.
  - intros j Hj. rewrite Hl in Hj.
    set (k := Z.to_nat ((Z.of_nat j - idx) mod MAX_VARIABLES)).
    assert (Hk : (k < Z.to_nat MAX_VARIABLES)%nat).
    { unfold k, MAX_VARIABLES in *. pose proof (Z.mod_pos_bound (Z.of_nat j - idx) 1024 ltac:(lia)). lia. }
    pose proof (free_loop_none _ _ _ Hidx H k Hk) as E.
    assert (Ej : (idx + Z.of_nat k) mod MAX_VARIABLES = Z.of_nat j).
    { unfold k. rewrite Z2Nat.id by (apply Z.mod_pos_bound; unfold MAX_VARIABLES; lia).
      rewrite Zplus_mod_idemp_r. replace (idx + (Z.of_nat j - idx)) with (Z.of_nat j) by lia.
      apply Z.mod_small. unfold MAX_VARIABLES in *; lia. }
    rewrite Ej in E. unfold slot in E. rewrite Nat2Z.id in E. exact E.
Qed.

Lemma occupied_bound tbl : occupied tbl <= Z.of_nat (List.length tbl).
Proof.
  unfold occupied. pose proof (filter_length_le is_some tbl) as H. lia.
Qed.


Lemma find_variable_eq st name :
  find_variable st name
  = find_loop (Z.to_nat MAX_VARIABLES) (variables st) name (hash_name name) (hash_name name).
Proof. reflexivity. Qed.

Lemma find_variable_with_environ st e name :
  find_variable (with_environ st e) name = find_variable st name.
Proof. rewrite !find_variable_eq. reflexivity. Qed.

Lemma find_variable_veprint st m name :
  find_variable (veprint st m) name = find_variable st name.
Proof. rewrite !find_variable_eq. reflexivity. Qed.

Lemma set_variable_keeps_store_ok st name value flags rc st' :
  store_ok st -> set_variable st name value flags = Some (rc, st') -> store_ok st'.
Proof.
  intros [Hl Hc]. unfold set_variable. intros H.
  destruct (find_variable st name) as [[i ex] |] eqn:Hf.
  - destruct (has_flag (var_flags ex) VAR_FLAG_READONLY).
    + injection H as <- <-. split; cbn [veprint variables variable_count]; auto.
    + injection H as <- <-.
      rewrite find_variable_eq in Hf.
      pose proof (find_loop_found _ _ _ _ _ _ _ Hf) as (Hsi & _ & Hri).
      specialize (Hri (hash_name_range name)).
      destruct (has_flag flags VAR_FLAG_EXPORTED);
        (split; cbn [with_environ with_variables variables variable_count environ];
         [rewrite set_slot_length; exact Hl
         | rewrite occupied_set_slot by auto; rewrite Hsi; cbn [is_some]; lia]).
  - destruct (MAX_VARIABLES <=? variable_count st).
    + injection H as <- <-. split; cbn [veprint variables variable_count]; auto.
    + destruct (free_loop (Z.to_nat MAX_VARIABLES) (variables st) (hash_name name)) as [j |] eqn:Hfree;
        [| discriminate].
      injection H as <- <-.
      pose proof (free_loop_found _ _ _ _ Hfree) as [Hsj Hrj].
      specialize (Hrj (hash_name_range name)).
      destruct (has_flag flags VAR_FLAG_EXPORTED);
        (split; cbn [with_environ with_variables variables variable_count environ];
         [rewrite set_slot_length; exact Hl
         | rewrite occupied_set_slot by auto; rewrite Hsj; cbn [is_some]; lia]).
Qed.

Lemma unset_variable_keeps_store_ok st name rc st' :
  store_ok st -> unset_variable st name = (rc, st') -> store_ok st'.
Proof.
  intros [Hl Hc]. unfold unset_variable. intros H.
  destruct (find_variable st name) as [[i var] |] eqn:Hf.
  - destruct (has_flag (var_flags var) VAR_FLAG_READONLY).
    + injection H as <- <-. split; cbn [veprint variables variable_count]; auto.
    + destruct (unset_loop (Z.to_nat MAX_VARIABLES) (variables st) name (hash_name name))
        as [j |] eqn:Hu.
      * injection H as <- <-.
        pose proof (unset_loop_found _ _ _ _ _ Hu) as [Hsj Hrj].
        specialize (Hrj (hash_name_range name)).
        split; cbn [with_environ with_variables variables variable_count environ];
          [rewrite set_slot_length; exact Hl
          | rewrite occupied_set_slot by auto; rewrite Hsj; cbn [is_some]; lia].
      * injection H as <- <-. split; cbn [with_environ variables variable_count]; auto.
  - injection H as <- <-. split; cbn [with_environ variables variable_count]; auto.
Qed.


Lemma has_flag_lor_exported f :
  has_flag (Z.lor f VAR_FLAG_EXPORTED) VAR_FLAG_EXPORTED = true.
Proof.
  unfold has_flag, VAR_FLAG_EXPORTED.
  destruct (Z.eqb_spec (Z.land (Z.lor f 1) 1) 0) as [E|]; [|reflexivity].
  apply (f_equal (fun z => Z.testbit z 0)) in E.
  rewrite Z.land_spec, Z.lor_spec in E. cbn in E.
  rewrite orb_true_r in E. discriminate.
Qed.

(** [set_variable] and [unset_variable] keep the table invariant: the table
    has [MAX_VARIABLES] slots and [variable_count] is the number of occupied
    ones. *)
Theorem variable_table_invariant st :
  store_ok st ->
  (forall name value flags rc st',
     set_variable st name value flags = Some (rc, st') -> store_ok st') /\
  (forall name rc st', unset_variable st name = (rc, st') -> store_ok st').
Proof.
  intros H. split; intros.
  - eapply set_variable_keeps_store_ok; eauto.
  - eapply unset_variable_keeps_store_ok; eauto.
Qed.


(** Under the table invariant the free-slot loop of [set_variable] always
    finds a slot: [set_variable] never runs forever. *)
Theorem set_variable_terminates st name value flags :
  store_ok st -> set_variable st name value flags <> None.
Proof.
  intros [Hl Hc]. unfold set_variable. intros H.
  destruct (find_variable st name) as [[i ex] |].
  - destruct (has_flag (var_flags ex) VAR_FLAG_READONLY); discriminate.
  - destruct (Z.leb_spec MAX_VARIABLES (variable_count st)); [discriminate|].
    destruct (free_loop (Z.to_nat MAX_VARIABLES) (variables st) (hash_name name)) eqn:Hfree;
      [discriminate|].
    apply free_loop_none_full in Hfree; auto using hash_name_range. clear Hl; lia.
Qed.

(** After a successful [set_variable] of an ordinary name, [get_variable]
    returns the value just set. *)
Theorem set_then_get st name value flags st' :
  valid_name name = true ->
  List.length (variables st) = Z.to_nat MAX_VARIABLES ->
  set_variable st name value flags = Some (0, st') ->
  get_variable st' name = Some value.
Proof.
  intros Hv Hl H.
  destruct (set_variable_binds st name value flags st' Hl H) as (i & v & Hf & Hval).
  rewrite get_variable_ordinary, Hf, Hval by exact Hv. reflexivity.
Qed.

(** [unset_variable] of an ordinary name either returns 0, after which
    neither the table nor the environment has the name, or returns -1 when
    the name is bound read-only, leaving table and environment as they were. *)
Theorem unset_variable_outcome st name rc st' :
  valid_name name = true ->
  List.length (variables st) = Z.to_nat MAX_VARIABLES ->
  unset_variable st name = (rc, st') ->
  (rc = 0 /\ get_variable st' name = None /\ variable_exists st' name = false) \/
  (rc = -1 /\ variables st' = variables st /\ environ st' = environ st /\
   exists i v, find_variable st name = Some (i, v) /\
               has_flag (var_flags v) VAR_FLAG_READONLY = true).
Proof.
  intros Hv Hl.
  assert (Hgone : forall st1, find_variable st1 name = None ->
            getenv (environ st1) name = None ->
            get_variable st1 name = None /\ variable_exists st1 name = false).
  { intros st1 Hf1 He1. rewrite get_variable_ordinary by exact Hv. unfold variable_exists.
    rewrite Hf1, He1. auto. }
  unfold unset_variable. intros H.
  destruct (find_variable st name) as [[i var] |] eqn:Hf.
  - destruct (has_flag (var_flags var) VAR_FLAG_READONLY) eqn:Hr.
    + injection H as <- <-. right. cbn [veprint variables environ].
      repeat split; auto. exists i, var. auto.
    + rewrite find_variable_eq in Hf.
      rewrite (find_unset_same _ _ _ _ _ _ _ Hf) in H.
      injection H as <- <-. left. split; [reflexivity|].
      apply Hgone; [|apply getenv_unsetenv].
      rewrite find_variable_eq. cbn [with_environ with_variables variables].
      apply (find_loop_remove _ _ _ _ _ _ var); auto using hash_name_range.
  - injection H as <- <-. left. split; [reflexivity|].
    apply Hgone; [rewrite find_variable_with_environ; exact Hf | apply getenv_unsetenv].
Qed.

(** [export_variable] of an ordinary name returns 0 and leaves the name
    exported, with the same value in the table and in the environment: its
    old table value, or the empty string when the table did not have it.
    This needs a free slot when the name is not in the table yet. *)
Theorem export_variable_exports st name :
  valid_name name = true -> store_ok st ->
  (find_variable st name <> None \/ variable_count st < MAX_VARIABLES) ->
  let value := match find_variable st name with
               | Some (_, v) => var_value v
               | None => EmptyString
               end in
  exists st', export_variable st name = Some (0, st') /\
    is_variable_exported st' name = true /\
    get_variable st' name = Some value /\ getenv (environ st') name = Some value.
Proof.
  intros Hv Hok Hroom value. unfold value, export_variable.
  destruct (find_variable st name) as [[i var] |] eqn:Hf.
  - eexists; split; [reflexivity|].
    destruct Hok as [Hl _].
    set (v := mk_var (var_name var) (var_value var) (Z.lor (var_flags var) VAR_FLAG_EXPORTED)).
    set (st1 := with_variables st (set_slot (variables st) (Z.to_nat i) (Some v)) (variable_count st)).
    assert (Hf' : find_variable (with_environ st1 (setenv (environ st1) name (var_value var))) name
                  = Some (i, v)).
    { rewrite find_variable_eq in *. cbn [with_environ with_variables variables st1].
      pose proof (find_loop_found _ _ _ _ _ _ _ Hf) as (_ & Hn & _).
      apply (find_loop_update _ _ _ _ _ _ var); auto using hash_name_range. }
    unfold is_variable_exported. rewrite get_variable_ordinary by exact Hv.
    rewrite Hf'. cbn [var_flags var_value v with_environ environ].
    rewrite has_flag_lor_exported, getenv_setenv. auto.
  - destruct Hroom as [Hroom | Hroom]; [congruence|].
    destruct Hok as [Hl Hc].
    destruct (free_loop (Z.to_nat MAX_VARIABLES) (variables st) (hash_name name)) as [j |] eqn:Hfree;
      [| apply free_loop_none_full in Hfree; auto using hash_name_range; lia].
    assert (Hs : set_variable st name EmptyString VAR_FLAG_EXPORTED
                 = Some (0, with_environ
                   (with_variables st (set_slot (variables st) (Z.to_nat j)
                      (Some (mk_var name EmptyString VAR_FLAG_EXPORTED))) (variable_count st + 1))
                   (setenv (environ st) name EmptyString))).
    { unfold set_variable. rewrite Hf.
      destruct (Z.leb_spec MAX_VARIABLES (variable_count st)); [lia|].
      rewrite Hfree. reflexivity. }
    rewrite Hs.
    eexists; split; [reflexivity|].
    assert (Hf' : find_variable (with_environ
               (with_variables st (set_slot (variables st) (Z.to_nat j)
                  (Some (mk_var name EmptyString VAR_FLAG_EXPORTED))) (variable_count st + 1))
               (setenv (environ st) name EmptyString)) name
             = Some (j, mk_var name EmptyString VAR_FLAG_EXPORTED)).
    { rewrite find_variable_eq in *. cbn [with_environ with_variables variables].
      apply find_loop_insert; auto using hash_name_range.
      unfold dist, MAX_VARIABLES; rewrite Z.sub_diag, Z2Nat.id by lia; reflexivity. }
    unfold is_variable_exported. rewrite get_variable_ordinary by exact Hv.
    rewrite Hf'. cbn [var_flags var_value with_environ with_variables environ].
    rewrite getenv_setenv. auto.
Qed.


(** [export_variable] of a name the table does not have, on a full table:
    the inner [set_variable] fails, but [export_variable] still returns 0;
    nothing is exported and the environment is left as it was. *)
Theorem export_full_table_ignored st name :
  find_variable st name = None -> MAX_VARIABLES <= variable_count st ->
  exists st', export_variable st name = Some (0, st') /\
    is_variable_exported st' name = false /\
    environ st' = environ st /\ variables st' = variables st.
Proof.
  intros Hf Hfull. unfold export_variable. rewrite Hf.
  unfold set_variable. rewrite Hf.
  destruct (Z.leb_spec MAX_VARIABLES (variable_count st)); [|lia].
  eexists; split; [reflexivity|].
  unfold is_variable_exported.
  rewrite find_variable_veprint, Hf. auto.
Qed.

(** One round of the [expand_variables] loop, with the byte tests written as
    comparisons. *)
Lemma expand_loop_cons f st x r acc :
  expand_loop (S f) st (x :: r) acc =
  if Ascii.eqb x "\" then
    match r with
    | c :: r' => expand_loop f st r' (acc ++ ["\"%char; c])
    | [] => expand_loop f st [] (acc ++ ["\"%char])
    end
  else if Ascii.eqb x "$" then
    match expand_variable_reference st (x :: r) with
    | None => None
    | Some (st', Some expanded, consumed) =>
        expand_loop f st' (skipn consumed (x :: r)) (acc ++ c_bytes expanded)
    | Some (st', None, _) => expand_loop f st' r (acc ++ ["$"%char])
    end
  else expand_loop f st r (acc ++ [x]).
Proof.
  destruct x as [[] [] [] [] [] [] [] []]; try reflexivity; destruct r; reflexivity.
Qed.

Lemma expand_loop_plain : forall f st input acc,
  ~ In "$"%char input -> (List.length input < f)%nat ->
  expand_loop f st input acc = Some (st, acc ++ input).
Proof.
  induction f as [| f IH]; intros st input acc Hd Hl; [lia|].
  destruct input as [| x r].
  - rewrite app_nil_r. reflexivity.
  - rewrite expand_loop_cons.
    assert (Hx : Ascii.eqb x "$" = false)
      by (apply Ascii.eqb_neq; intros ->; apply Hd; left; reflexivity).
    rewrite Hx. cbn [List.length] in Hl.
    destruct (Ascii.eqb_spec x "\") as [-> | _].
    + destruct r as [| c r'].
      * rewrite IH by (cbn [List.length In]; auto; lia). rewrite app_nil_r. reflexivity.
      * rewrite IH by (first [intro; apply Hd; right; right; assumption
                             | cbn [List.length] in Hl; lia]).
        rewrite <- app_assoc. reflexivity.
    + rewrite IH by (first [intro; apply Hd; right; assumption | lia]).
      rewrite <- app_assoc. reflexivity.
Qed.


Lemma list_ascii_length s : List.length (list_ascii_of_string s) = String.length s.
Proof. induction s as [| c s IH]; cbn; auto. Qed.

Lemma take_while_app_stop p l rest :
  forallb p l = true ->
  match rest with c :: _ => p c = false | [] => True end ->
  take_while p (l ++ rest) = l.
Proof.
  intros Hl Hr. induction l as [| x r IH]; cbn [app take_while forallb] in *.
  - destruct rest as [| c r']; [reflexivity|]. cbn [take_while]. rewrite Hr. reflexivity.
  - apply andb_prop in Hl as [Hx Hr']. rewrite Hx, IH by exact Hr'. reflexivity.
Qed.

(** [$name] with [name] starting with a letter or [_]. *)
Lemma expand_reference_plain st c t :
  is_varname_char c = true -> isdigit c = false ->
  expand_variable_reference st ("$" :: c :: t)%char =
  let name_chars := take_while is_varname_char (c :: t) in
  let namelen := Nat.min (List.length name_chars) (MAX_VAR_NAME_LENGTH - 1) in
  Some (st, Some (match get_variable st (str (firstn namelen name_chars)) with
                  | Some v => v
                  | None => EmptyString
                  end), S namelen).
Proof.
  intros H1 H2.
  destruct c as [[] [] [] [] [] [] [] []];
    try (vm_compute in H1; discriminate H1); try (vm_compute in H2; discriminate H2);
    reflexivity.
Qed.


(** [$name] followed by text with no [$] and not continuing the name
    expands to the bytes of the value [get_variable] gives (the empty string
    for an unset name) followed by that text, and the store is left as it
    was. *)
Theorem expand_simple_reference st name rest :
  valid_name name = true -> (String.length name < MAX_VAR_NAME_LENGTH)%nat ->
  ~ In "$"%char rest ->
  match rest with c :: _ => is_varname_char c = false | [] => True end ->
  expand_variables st ("$"%char :: list_ascii_of_string name ++ rest)
  = Some (st, c_bytes (match get_variable st name with
                       | Some v => v
                       | None => EmptyString
                       end) ++ rest).
Proof.
  intros Hv Hlen Hd Hr.
  destruct name as [| c r]; [discriminate|].
  unfold valid_name in Hv. cbn [list_ascii_of_string forallb] in Hv.
  apply andb_prop in Hv as [Hdig Hv]. apply andb_prop in Hv as [Hc Hv].
  apply negb_true_iff in Hdig.
  unfold expand_variables. cbn [list_ascii_of_string app List.length].
  rewrite expand_loop_cons.
  replace (Ascii.eqb "$" "\") with false by reflexivity.
  replace (Ascii.eqb "$" "$") with true by reflexivity.
  cbv iota.
  rewrite expand_reference_plain by assumption.
  cbv zeta.
  replace (take_while is_varname_char (c :: list_ascii_of_string r ++ rest))
    with (c :: list_ascii_of_string r)
    by (symmetry; apply (take_while_app_stop _ (c :: list_ascii_of_string r)); auto;
        cbn [forallb]; rewrite Hc, Hv; reflexivity).
  cbn [String.length] in Hlen.
  assert (Hm : Nat.min (List.length (c :: list_ascii_of_string r)) (MAX_VAR_NAME_LENGTH - 1)
               = S (String.length r)).
  { cbn [List.length]. rewrite list_ascii_length. unfold MAX_VAR_NAME_LENGTH in *. lia. }
  rewrite Hm.
  replace (firstn (S (String.length r)) (c :: list_ascii_of_string r))
    with (list_ascii_of_string (String c r))
    by (rewrite firstn_all2; [reflexivity | cbn [List.length]; rewrite list_ascii_length; lia]).
  unfold str. rewrite string_of_list_ascii_of_string.
  replace (skipn (S (S (String.length r))) ("$" :: c :: list_ascii_of_string r ++ rest)%char)
    with rest
    by (cbn [skipn]; rewrite <- list_ascii_length, skipn_app, skipn_all, Nat.sub_diag;
        reflexivity).
  apply expand_loop_plain; [exact Hd|].
  rewrite length_app. lia.
Qed.


Lemma in_firstn_l (a : ascii) n l : In a (firstn n l) -> In a l.
Proof. intros H. rewrite <- (firstn_skipn n l). apply in_or_app. auto. Qed.

Lemma in_skipn_l (a : ascii) n l : In a (skipn n l) -> In a l.
Proof. intros H. rewrite <- (firstn_skipn n l). apply in_or_app. auto. Qed.

Lemma in_drop_while (a : ascii) p l : In a (drop_while p l) -> In a l.
Proof.
  induction l as [| x r IH]; cbn [drop_while]; auto.
  destruct (p x); [right; auto | auto].
Qed.

Lemma in_tl (a : ascii) l : In a (tl l) -> In a l.
Proof. destruct l; cbn [tl In]; auto. Qed.

(** The modifier of [${name...}] is [:=] only if its text has a [=]. *)
Lemma modifier_no_assign (p : list ascii) :
  ~ In "="%char p ->
  exists u d, match p with
              | ":"%char :: "-"%char :: d => (true, false, Some (str d))
              | ":"%char :: "="%char :: d => (false, true, Some (str d))
              | _ => (false, false, None)
              end = (u, false, d).
Proof.
  intros H. destruct p as [| a [| b d]]; [eauto | |].
  - destruct a as [[] [] [] [] [] [] [] []]; eauto.
  - destruct a as [[] [] [] [] [] [] [] []]; try (do 2 eexists; reflexivity).
    destruct b as [[] [] [] [] [] [] [] []]; try (do 2 eexists; reflexivity).
    exfalso; apply H; right; left; reflexivity.
Qed.


Ltac some_st :=
  repeat match goal with
         | |- context [match ?x with _ => _ end] => destruct x
         end;
  do 2 eexists; reflexivity.

(** Without a [=] in the reference, [expand_variable_reference] does not
    change the store. *)
Lemma expand_reference_no_assign st ref :
  ~ In "="%char ref ->
  exists r k, expand_variable_reference st ref = Some (st, r, k).
Proof.
  intros Hin.
  destruct ref as [| x start]; [do 2 eexists; reflexivity|].
  destruct (Ascii.eqb_spec x "$") as [-> | Hx].
  2: { destruct x as [[] [] [] [] [] [] [] []];
       try (exfalso; apply Hx; reflexivity); do 2 eexists; reflexivity. }
  destruct start as [| y s]; [do 2 eexists; reflexivity|].
  destruct (Ascii.eqb_spec y "{") as [-> | Hy].
  2: { destruct y as [[] [] [] [] [] [] [] []];
       try (exfalso; apply Hy; reflexivity); do 2 eexists; reflexivity. }
  unfold expand_variable_reference. cbv iota.
  destruct (index_of "}" s) as [e |]; [| do 2 eexists; reflexivity].
  cbv zeta.
  match goal with
  | |- context [drop_while is_varname_char ?b] => set (p := drop_while is_varname_char b)
  end.
  assert (Hp : ~ In "="%char p).
  { intros H. apply Hin. right; right.
    apply in_drop_while in H.
    destruct (match firstn e s with "#"%char :: _ => true | _ => false end);
      [apply in_tl in H|]; eapply in_firstn_l; exact H. }
  destruct (modifier_no_assign p Hp) as (u & d & Em).
  rewrite Em.
  some_st.
Qed.


Lemma expand_loop_no_assign : forall f st input acc,
  ~ In "="%char input -> exists out, expand_loop f st input acc = Some (st, out).
Proof.
  induction f as [| f IH]; intros st input acc Hin; [eexists; reflexivity|].
  destruct input as [| x r]; [eexists; reflexivity|].
  rewrite expand_loop_cons.
  destruct (Ascii.eqb x "\").
  - destruct r as [| c r']; apply IH.
    + intros [].
    + intros H; apply Hin; right; right; exact H.
  - destruct (Ascii.eqb x "$").
    + destruct (expand_reference_no_assign st (x :: r) Hin) as (e & k & E).
      rewrite E. destruct e as [e |]; apply IH.
      * intros H; apply Hin; eapply in_skipn_l; exact H.
      * intros H; apply Hin; right; exact H.
    + apply IH. intros H; apply Hin; right; exact H.
Qed.


(** Input without [$] comes out of [expand_variables] unchanged (escapes
    included), and the store is left as it was. *)
Theorem expand_without_dollar st input :
  ~ In "$"%char input -> expand_variables st input = Some (st, input).
Proof.
  intros H. unfold expand_variables. apply expand_loop_plain; [exact H | lia].
Qed.

(** Input without [=] never changes the variable store when expanded, and
    expansion ends: only [${name:=word}] assigns. *)
Theorem expand_without_equals_keeps_store st input :
  ~ In "="%char input -> exists out, expand_variables st input = Some (st, out).
Proof.
  intros H. unfold expand_variables. apply expand_loop_no_assign; exact H.
Qed.

(** Stores used by the witnesses: [X] set to [1], and a table whose
    [MAX_VARIABLES] slots are all taken. *)
Definition store_x : vstate :=
  match set_variable (empty_store []) "X" "1" 0 with
  | Some (_, s) => s
  | None => empty_store []
  end.

Definition store_y : vstate :=
  match set_variable store_x "Y" "2" 0 with
  | Some (_, s) => s
  | None => store_x
  end.

Definition full_store : vstate :=
  mk_vstate (map (fun k => Some (mk_var (Z_to_dec (Z.of_nat k)) EmptyString 0))
                 (seq 0 (Z.to_nat MAX_VARIABLES)))
            MAX_VARIABLES [] 0 0 0 0 None [].

Lemma variable_table_invariant_witness :
  store_ok (empty_store []) /\
  (forall name value flags rc st',
     set_variable (empty_store []) name value flags = Some (rc, st') -> store_ok st') /\
  (forall name rc st', unset_variable (empty_store []) name = (rc, st') -> store_ok st').
Proof.
  assert (H : store_ok (empty_store [])) by (split; vm_compute; reflexivity).
  split; [exact H | exact (variable_table_invariant _ H)].
Defined.

Lemma set_variable_terminates_witness :
  store_ok store_x /\ set_variable store_x "Y" "2" 0 <> None.
Proof.
  assert (H : store_ok store_x) by (split; vm_compute; reflexivity).
  split; [exact H | exact (set_variable_terminates store_x "Y" "2" 0 H)].
Defined.

Lemma set_then_get_witness :
  valid_name "Y" = true /\
  List.length (variables store_x) = Z.to_nat MAX_VARIABLES /\
  set_variable store_x "Y" "2" 0 = Some (0, store_y) /\
  get_variable store_y "Y" = Some "2"%string.
Proof.
  assert (H1 : valid_name "Y" = true) by reflexivity.
  assert (H2 : List.length (variables store_x) = Z.to_nat MAX_VARIABLES)
    by (vm_compute; reflexivity).
  assert (H3 : set_variable store_x "Y" "2" 0 = Some (0, store_y))
    by (vm_compute; reflexivity).
  split; [exact H1 | split; [exact H2 | split; [exact H3 |]]].
  exact (set_then_get store_x "Y" "2" 0 store_y H1 H2 H3).
Defined.


Lemma unset_variable_outcome_witness :
  valid_name "X" = true /\
  List.length (variables store_x) = Z.to_nat MAX_VARIABLES /\
  unset_variable store_x "X" = (0, snd (unset_variable store_x "X")) /\
  ((0 = 0 /\ get_variable (snd (unset_variable store_x "X")) "X" = None /\
    variable_exists (snd (unset_variable store_x "X")) "X" = false) \/
   (0 = -1 /\ variables (snd (unset_variable store_x "X")) = variables store_x /\
    environ (snd (unset_variable store_x "X")) = environ store_x /\
    exists i v, find_variable store_x "X" = Some (i, v) /\
                has_flag (var_flags v) VAR_FLAG_READONLY = true)).
Proof.
  assert (H1 : valid_name "X" = true) by reflexivity.
  assert (H2 : List.length (variables store_x) = Z.to_nat MAX_VARIABLES)
    by (vm_compute; reflexivity).
  assert (H3 : unset_variable store_x "X" = (0, snd (unset_variable store_x "X")))
    by (vm_compute; reflexivity).
  split; [exact H1 | split; [exact H2 | split; [exact H3 |]]].
  exact (unset_variable_outcome store_x "X" 0 _ H1 H2 H3).
Defined.

Lemma export_variable_exports_witness :
  valid_name "X" = true /\ store_ok store_x /\
  (find_variable store_x "X" <> None \/ variable_count store_x < MAX_VARIABLES) /\
  exists st', export_variable store_x "X" = Some (0, st') /\
    is_variable_exported st' "X" = true /\
    get_variable st' "X" = Some "1"%string /\ getenv (environ st') "X" = Some "1"%string.
Proof.
  assert (H1 : valid_name "X" = true) by reflexivity.
  assert (H2 : store_ok store_x) by (split; vm_compute; reflexivity).
  assert (H3 : find_variable store_x "X" <> None \/ variable_count store_x < MAX_VARIABLES)
    by (left; vm_compute; discriminate).
  split; [exact H1 | split; [exact H2 | split; [exact H3 |]]].
  exact (export_variable_exports store_x "X" H1 H2 H3).
Defined.

Lemma export_full_table_ignored_witness :
  find_variable full_store "X" = None /\ MAX_VARIABLES <= variable_count full_store /\
  exists st', export_variable full_store "X" = Some (0, st') /\
    is_variable_exported st' "X" = false /\
    environ st' = environ full_store /\ variables st' = variables full_store.
Proof.
  assert (H1 : find_variable full_store "X" = None) by (vm_compute; reflexivity).
  assert (H2 : MAX_VARIABLES <= variable_count full_store) by (vm_compute; discriminate).
  split; [exact H1 | split; [exact H2 |]].
  exact (export_full_table_ignored full_store "X" H1 H2).
Defined.

Lemma expand_simple_reference_witness :
  valid_name "X" = true /\ (String.length "X" < MAX_VAR_NAME_LENGTH)%nat /\
  ~ In "$"%char [" "; "y"]%char /\ is_varname_char " " = false /\
  expand_variables store_x ("$"%char :: list_ascii_of_string "X" ++ [" "; "y"]%char)
  = Some (store_x, c_bytes "1" ++ [" "; "y"]%char).
Proof.
  assert (H1 : valid_name "X" = true) by reflexivity.
  assert (H2 : (String.length "X" < MAX_VAR_NAME_LENGTH)%nat)
    by (unfold MAX_VAR_NAME_LENGTH; cbn; lia).
  assert (H3 : ~ In "$"%char [" "; "y"]%char) by (intros [H | [H | []]]; discriminate).
  assert (H4 : is_varname_char " " = false) by reflexivity.
  split; [exact H1 | split; [exact H2 | split; [exact H3 | split; [exact H4 |]]]].
  exact (expand_simple_reference store_x "X" [" "; "y"]%char H1 H2 H3 H4).
Defined.

Lemma expand_without_dollar_witness :
  ~ In "$"%char ["a"; "\"; "b"]%char /\
  expand_variables store_x ["a"; "\"; "b"]%char = Some (store_x, ["a"; "\"; "b"]%char).
Proof.
  assert (H : ~ In "$"%char ["a"; "\"; "b"]%char)
    by (intros [H | [H | [H | []]]]; discriminate).
  split; [exact H | exact (expand_without_dollar store_x _ H)].
Defined.

Lemma expand_without_equals_keeps_store_witness :
  ~ In "="%char ["$"; "{"; "Z"; ":"; "-"; "d"; "}"]%char /\
  exists out, expand_variables store_x ["$"; "{"; "Z"; ":"; "-"; "d"; "}"]%char
              = Some (store_x, out).
Proof.
  assert (H : ~ In "="%char ["$"; "{"; "Z"; ":"; "-"; "d"; "}"]%char)
    by (intros [H | [H | [H | [H | [H | [H | [H | []]]]]]]]; discriminate).
  split; [exact H | exact (expand_without_equals_keeps_store store_x _ H)].
Defined.

End VariableOpsProofs.
Module GlobMoreProofs.
Import Glob GlobProofs.

(** A pattern character that is a literal or [?]. *)
Definition simple (c : ascii) : bool := literal c || Ascii.eqb c "?".

(** The string character [d] fits the pattern character [c]. *)
Definition fits (c d : ascii) : Prop := c = "?"%char \/ c = d.

Lemma skip_stars_simple c p : simple c = true -> skip_stars (c :: p) = c :: p.
Proof.
  intros H. destruct (Ascii.eqb_spec c "*") as [-> | Hne]; [discriminate|].
  destruct c as [[] [] [] [] [] [] [] []]; try reflexivity; exfalso; apply Hne; reflexivity.
Qed.

Lemma mpf_simple_cons f c p d s : simple c = true ->
  match_pattern_fuel (S f) (c :: p) (d :: s)
  = if Ascii.eqb c "?" then match_pattern_fuel f p s
    else if Ascii.eqb c d then match_pattern_fuel f p s else false.
Proof.
  intros H. destruct (Ascii.eqb_spec c "?") as [-> | Hq]; [reflexivity|].
  unfold simple in H. apply Ascii.eqb_neq in Hq. rewrite Hq, orb_false_r in H.
  destruct (literal_inv c H) as (H1 & H2 & H3).
  simpl. rewrite H1, H2, H3. reflexivity.
Qed.

Lemma mpf_simple_nil f c p : simple c = true ->
  match_pattern_fuel (S f) (c :: p) [] = false.
Proof.
  intros H. cbn [match_pattern_fuel]. rewrite skip_stars_simple by exact H. reflexivity.
Qed.

Lemma mpf_nil_pattern f s :
  match_pattern_fuel (S f) [] s = match s with [] => true | _ => false end.
Proof. destruct s; reflexivity. Qed.

Lemma fits_dec c d : simple c = true ->
  (if Ascii.eqb c "?" then true else Ascii.eqb c d) = true <-> fits c d.
Proof.
  intros _. unfold fits.
  destruct (Ascii.eqb_spec c "?") as [-> | Hq]; [split; auto|].
  rewrite Ascii.eqb_eq. split; [auto | intros [E | E]; [contradiction | exact E]].
Qed.

Lemma simple_match_fuel : forall x f s,
  forallb simple x = true -> (List.length x < f)%nat ->
  match_pattern_fuel f x s = true <-> Forall2 fits x s.
Proof.
  induction x as [| c x IH]; intros f s Hx Hf; (destruct f as [| f]; [cbn in Hf; lia|]).
  - rewrite mpf_nil_pattern. destruct s; split; intros H; try discriminate; auto.
    inversion H.
  - cbn [forallb] in Hx. apply andb_prop in Hx as [Hc Hx]. cbn [List.length] in Hf.
    destruct s as [| d s].
    + rewrite mpf_simple_nil by exact Hc. split; intros H; [discriminate | inversion H].
    + rewrite mpf_simple_cons by exact Hc.
      pose proof (fits_dec c d Hc) as Hfd.
      split.
      * intros H. constructor.
        -- apply Hfd. destruct (Ascii.eqb c "?"), (Ascii.eqb c d); try discriminate; reflexivity.
        -- apply (IH f s Hx ltac:(lia)).
           destruct (Ascii.eqb c "?"), (Ascii.eqb c d); try discriminate; exact H.
      * intros H. inversion H as [| ? ? ? ? Hcd Hr]; subst.
        apply (IH f s Hx ltac:(lia)) in Hr. apply Hfd in Hcd.
        destruct (Ascii.eqb c "?"), (Ascii.eqb c d); try discriminate Hcd; exact Hr.
Qed.

(** Extra: a pattern made of literal characters and [?] matches exactly the
    strings of its length that agree with it at every position that is not
    [?]: with no [?], the pattern string itself only; with [?] only, every
    string of that length. *)
Theorem simple_pattern_match x s :
  forallb simple x = true ->
  match_pattern x s = true <-> Forall2 fits x s.
Proof. intros H. apply simple_match_fuel; [exact H | cbn; lia]. Qed.


Lemma mpf_star_only f s : match_pattern_fuel (S f) ["*"%char] s = true.
Proof. destruct s; reflexivity. Qed.

Lemma simple_star_fuel : forall x f s,
  forallb simple x = true -> (List.length x < f)%nat ->
  match_pattern_fuel f (x ++ ["*"%char]) s = true <->
  exists u t, s = u ++ t /\ Forall2 fits x u.
Proof.
  induction x as [| c x IH]; intros f s Hx Hf; (destruct f as [| f]; [cbn in Hf; lia|]).
  - cbn [app]. rewrite mpf_star_only. split; [intros _; exists [], s; auto | auto].
  - cbn [forallb] in Hx. apply andb_prop in Hx as [Hc Hx]. cbn [List.length] in Hf.
    cbn [app]. pose proof (IH f) as IHf.
    destruct s as [| d s].
    + rewrite mpf_simple_nil by exact Hc. split; [discriminate|].
      intros (u & t & Hu & Hf2). destruct u; [inversion Hf2 | discriminate].
    + rewrite mpf_simple_cons by exact Hc.
      pose proof (fits_dec c d Hc) as Hfd.
      split.
      * intros H.
        assert (Hcd : fits c d)
          by (apply Hfd; destruct (Ascii.eqb c "?"), (Ascii.eqb c d); try discriminate; reflexivity).
        assert (Hr : match_pattern_fuel f (x ++ ["*"%char]) s = true)
          by (destruct (Ascii.eqb c "?"), (Ascii.eqb c d); try discriminate; exact H).
        apply (IH f s Hx ltac:(lia)) in Hr as (u & t & -> & Hu).
        exists (d :: u), t. split; [reflexivity | constructor; auto].
      * intros (u & t & Hs & Hu). destruct u as [| d' u]; [inversion Hu|].
        injection Hs as <- Hs. inversion Hu as [| ? ? ? ? Hcd Hr]; subst.
        assert (Hm : match_pattern_fuel f (x ++ ["*"%char]) (u ++ t) = true)
          by (apply (IH f _ Hx ltac:(lia)); exists u, t; auto).
        apply Hfd in Hcd.
        destruct (Ascii.eqb c "?"), (Ascii.eqb c d); try discriminate Hcd; exact Hm.
Qed.

(** Extra: a pattern of literal characters and [?] followed by one [*]
    matches exactly the strings that begin with a prefix fitting the
    pattern before the star; the star takes any rest, [/] included. *)
Theorem simple_prefix_star_match x s :
  forallb simple x = true ->
  match_pattern (x ++ ["*"%char]) s = true <->
  exists u t, s = u ++ t /\ Forall2 fits x u.
Proof.
  intros H. apply simple_star_fuel; [exact H|].
  rewrite length_app. cbn [List.length]. lia.
Qed.

Lemma simple_pattern_match_witness :
  forallb simple ["a"; "?"; "c"]%char = true /\
  (match_pattern ["a"; "?"; "c"]%char ["a"; "/"; "c"]%char = true <->
   Forall2 fits ["a"; "?"; "c"]%char ["a"; "/"; "c"]%char).
Proof.
  assert (H : forallb simple ["a"; "?"; "c"]%char = true) by reflexivity.
  split; [exact H | exact (simple_pattern_match _ _ H)].
Defined.

Lemma simple_prefix_star_match_witness :
  forallb simple ["a"; "?"]%char = true /\
  (match_pattern (["a"; "?"] ++ ["*"])%char ["a"; "b"; "/"; "c"]%char = true <->
   exists u t, ["a"; "b"; "/"; "c"]%char = u ++ t /\ Forall2 fits ["a"; "?"]%char u).
Proof.
  assert (H : forallb simple ["a"; "?"]%char = true) by reflexivity.
  split; [exact H | exact (simple_prefix_star_match _ _ H)].
Defined.


(** A character with no meaning inside a bracket expression. *)
Definition class_char (c : ascii) : bool :=
  negb (Ascii.eqb c "]" || Ascii.eqb c "-" || Ascii.eqb c "!" || Ascii.eqb c "^").

Lemma class_step d c x r m :
  Ascii.eqb c "]" = false -> Ascii.eqb x "-" = false ->
  class_loop d (c :: x :: r) m = class_loop d (x :: r) (m || Ascii.eqb d c).
Proof.
  intros Hc Hx. cbn [class_loop]. rewrite Hc.
  destruct x as [[] [] [] [] [] [] [] []]; try reflexivity; discriminate Hx.
Qed.

Lemma class_loop_list d cs p m :
  forallb class_char cs = true ->
  class_loop d (cs ++ "]"%char :: p) m = (m || existsb (Ascii.eqb d) cs, "]"%char :: p).
Proof.
  revert m; induction cs as [| c cs IH]; intros m H.
  - rewrite orb_false_r. reflexivity.
  - cbn [forallb] in H. apply andb_prop in H as [Hc H].
    unfold class_char in Hc. apply negb_true_iff in Hc.
    apply orb_false_iff in Hc as [Hc _]. apply orb_false_iff in Hc as [Hc _].
    apply orb_false_iff in Hc as [Hc _].
    assert (Hx : Ascii.eqb (hd "]"%char (cs ++ "]"%char :: p)) "-" = false).
    { destruct cs as [| c' cs]; [reflexivity|].
      cbn [forallb] in H. apply andb_prop in H as [Hc' _].
      unfold class_char in Hc'. apply negb_true_iff in Hc'.
      apply orb_false_iff in Hc' as [Hc' _]. apply orb_false_iff in Hc' as [Hc' _].
      apply orb_false_iff in Hc' as [_ Hc']. exact Hc'. }
    assert (Hs : class_loop d (c :: cs ++ "]"%char :: p) m
                 = class_loop d (cs ++ "]"%char :: p) (m || Ascii.eqb d c)).
    { destruct (cs ++ "]"%char :: p) as [| x r] eqn:E; [destruct cs; discriminate E|].
      apply class_step; assumption. }
    cbn [app]. rewrite Hs, IH by exact H. cbn [existsb]. rewrite orb_assoc. reflexivity.
Qed.


Lemma mpf_class f (neg : bool) cs p d s :
  forallb class_char cs = true ->
  match_pattern_fuel (S f)
    ("["%char :: (if neg then ["!"%char] else []) ++ cs ++ "]"%char :: p) (d :: s)
  = if xorb neg (existsb (Ascii.eqb d) cs) then match_pattern_fuel f p s else false.
Proof.
  intros H.
  cbn [match_pattern_fuel].
  replace (Ascii.eqb "[" "*") with false by reflexivity.
  replace (Ascii.eqb "[" "?") with false by reflexivity.
  replace (Ascii.eqb "[" "[") with true by reflexivity.
  cbv iota beta.
  destruct neg.
  - cbn [app]. replace (Ascii.eqb "!" "!" || Ascii.eqb "!" "^")%bool with true by reflexivity.
    rewrite class_loop_list by exact H. cbn [xorb orb]. destruct (existsb (Ascii.eqb d) cs); reflexivity.
  - cbn [app].
    destruct cs as [| c cs].
    + cbn [app]. reflexivity.
    + cbn [forallb] in H. pose proof H as H'. apply andb_prop in H' as [Hc _].
      unfold class_char in Hc. apply negb_true_iff in Hc.
      apply orb_false_iff in Hc as [Hc H4]. apply orb_false_iff in Hc as [_ H3].
      cbn [app]. rewrite H3, H4. cbn [orb].
      pose proof (class_loop_list d (c :: cs) p false H) as Hcl. cbn [app] in Hcl.
      rewrite Hcl. cbn [xorb orb].
      destruct (existsb (Ascii.eqb d) (c :: cs)); reflexivity.
Qed.


Lemma existsb_eqb_in d cs : existsb (Ascii.eqb d) cs = true <-> In d cs.
Proof.
  rewrite existsb_exists. split.
  - intros (x & Hx & E). apply Ascii.eqb_eq in E. subst. exact Hx.
  - intros Hd. exists d. split; [exact Hd | apply Ascii.eqb_refl].
Qed.

(** Extra: a bracket expression of plain characters (no [\]], [-], [!] or
    [^] inside) matches one character that is in the list, or with a
    leading [!] one that is not; an empty string never matches.  The rest
    of the pattern, of literals and [?], then has to fit the rest of the
    string. *)
Theorem bracket_class_match (neg : bool) cs p s :
  forallb class_char cs = true -> forallb simple p = true ->
  match_pattern ("["%char :: (if neg then ["!"%char] else []) ++ cs ++ "]"%char :: p) s = true
  <-> exists d s', s = d :: s' /\ (if neg then ~ In d cs else In d cs) /\ Forall2 fits p s'.
Proof.
  intros Hcs Hp. unfold match_pattern.
  destruct s as [| d s].
  - cbn [match_pattern_fuel skip_stars]. split; [discriminate|].
    intros (d & s' & E & _); discriminate.
  - rewrite mpf_class by exact Hcs.
    pose proof (simple_match_fuel p
      (List.length ("["%char :: (if neg then ["!"%char] else []) ++ cs ++ "]"%char :: p)) s Hp
      ltac:(cbn [List.length]; rewrite !length_app; cbn [List.length]; lia)) as Hm.
    pose proof (existsb_eqb_in d cs) as Hin.
    split.
    + intros H. exists d, s. split; [reflexivity|].
      destruct neg, (existsb (Ascii.eqb d) cs) eqn:E; cbn [xorb negb] in H; try discriminate H.
      * split; [intros Hd; apply Hin in Hd; congruence | apply Hm; exact H].
      * split; [apply Hin; reflexivity | apply Hm; exact H].
    + intros (d' & s' & Hs & Hd & Hf). injection Hs as <- <-. apply Hm in Hf.
      destruct neg, (existsb (Ascii.eqb d) cs) eqn:E; cbn [xorb negb]; auto.
      * exfalso. apply Hd, Hin. reflexivity.
      * apply Hin in Hd. congruence.
Qed.

Lemma bracket_class_match_witness :
  forallb class_char ["a"; "b"]%char = true /\ forallb simple ["x"]%char = true /\
  (match_pattern ("["%char :: (if true then ["!"%char] else []) ++ ["a"; "b"] ++ "]" :: ["x"])%char
     ["c"; "x"]%char = true
   <-> exists d s', ["c"; "x"]%char = d :: s' /\
       (if true then ~ In d ["a"; "b"]%char else In d ["a"; "b"]%char) /\
       Forall2 fits ["x"]%char s').
Proof.
  assert (H1 : forallb class_char ["a"; "b"]%char = true) by reflexivity.
  assert (H2 : forallb simple ["x"]%char = true) by reflexivity.
  split; [exact H1 | split; [exact H2 | exact (bracket_class_match true _ _ _ H1 H2)]].
Defined.

End GlobMoreProofs.

Module TokenizerMoreProofs.
Import Token Tokenizer.

Lemma tok_loop_count : forall fuel m cnt acc l,
  cnt = List.length acc -> (cnt <= m - 1)%nat ->
  fst (tok_loop fuel m cnt acc l) = List.length (snd (tok_loop fuel m cnt acc l)) /\
  (fst (tok_loop fuel m cnt acc l) <= m - 1)%nat.
Proof.
  induction fuel as [| fuel IH]; intros m cnt acc l Hc Hm; [cbn; split; assumption|].
  cbn [tok_loop].
  destruct (Ascii.eqb (peek l) NUL || negb (cnt <? m - 1)%nat) eqn:G; [cbn [fst snd]; split; assumption|].
  apply orb_false_iff in G as [_ G]. apply negb_false_iff, Nat.ltb_lt in G.
  cbv zeta.
  repeat match goal with
         | |- context [if ?b then _ else _] => destruct b
         | |- context [let '(_, _) := ?x in _] => destruct x
         end;
  first [ cbn [fst snd]; split; assumption
        | apply IH; cbn [List.length]; lia ].
Qed.

(** Extra: [tokenize_input] returns the number of tokens it produced, never
    more than [max_tokens]; with room for at least one token the last one
    is the end marker [TOKEN_EOF]. *)
Theorem tokenize_input_bounded input m :
  let '(cnt, toks) := tokenize_input input m in
  cnt = List.length toks /\ (cnt <= m)%nat /\
  ((0 < m)%nat -> exists body, toks = body ++ [mk_token TOKEN_EOF EmptyString false]).
Proof.
  unfold tokenize_input.
  destruct (tok_loop_count (S (String.length input)) m 0 [] (list_ascii_of_string input)
              eq_refl ltac:(lia)) as [H1 H2].
  destruct (tok_loop (S (String.length input)) m 0 [] (list_ascii_of_string input))
    as [cnt acc] eqn:E.
  cbn [fst snd] in H1, H2.
  destruct (Nat.ltb_spec cnt m).
  - cbn [rev]. rewrite length_app, length_rev. cbn [List.length].
    split; [lia | split; [lia | intros _; eexists; reflexivity]].
  - rewrite length_rev. split; [lia | split; [lia | intros; lia]].
Qed.


(** Characters an unquoted word may hold without being split, escaped or
    quoted: not NUL, blank, an operator or [#], a backslash or a quote. *)
Definition plain (c : ascii) : bool :=
  negb (Ascii.eqb c NUL || isspace c || is_word_stop c || Ascii.eqb c BSLASH
        || Ascii.eqb c DQUOTE || Ascii.eqb c SQUOTE).

Definition word_token (w : string) : token := mk_token TOKEN_WORD w false.

Lemma las_app s1 s2 :
  list_ascii_of_string (s1 ++ s2) = list_ascii_of_string s1 ++ list_ascii_of_string s2.
Proof. induction s1 as [| c s1 IH]; cbn; [reflexivity | now rewrite IH]. Qed.

Lemma las_length s : List.length (list_ascii_of_string s) = String.length s.
Proof. induction s as [| c s IH]; cbn; congruence. Qed.

Lemma plain_cases c : plain c = true ->
  Ascii.eqb c NUL = false /\ isspace c = false /\ is_word_stop c = false /\
  Ascii.eqb c BSLASH = false /\ Ascii.eqb c DQUOTE = false /\ Ascii.eqb c SQUOTE = false.
Proof.
  unfold plain. intros H. apply negb_true_iff in H.
  repeat rewrite orb_false_iff in H. tauto.
Qed.

Lemma word_loop_plain : forall w rest fuel len acc,
  forallb plain w = true -> (len + List.length w <= MAX_TOKEN_LENGTH - 1)%nat ->
  (List.length w <= fuel)%nat -> (rest = [] \/ isspace (peek rest) = true) ->
  word_loop fuel len acc (w ++ rest) = (rev w ++ acc, rest).
Proof.
  induction w as [| c w IH]; intros rest fuel len acc Hp Hl Hf Hr.
  - destruct fuel as [| fuel]; [reflexivity|]. cbn [app].
    destruct Hr as [-> | Hr]; [reflexivity|].
    destruct rest as [| d r]; [reflexivity|]. cbn in Hr. cbn [word_loop].
    rewrite Hr. rewrite andb_false_r, andb_false_l. reflexivity.
  - cbn [forallb] in Hp. apply andb_true_iff in Hp as [Hc Hp].
    destruct (plain_cases c Hc) as (H1 & H2 & H3 & H4 & _).
    cbn [List.length] in Hl, Hf.
    destruct fuel as [| fuel]; [lia|]. cbn [app word_loop].
    rewrite H1, H2, H3, H4. cbn [negb andb].
    replace (len <? MAX_TOKEN_LENGTH - 1)%nat with true
      by (symmetry; apply Nat.ltb_lt; lia).
    rewrite IH by (auto; lia). cbn [rev]. rewrite <- app_assoc. reflexivity.
Qed.

Lemma skip_blanks_plain c r : plain c = true -> skip_blanks (c :: r) = c :: r.
Proof. intros H. destruct (plain_cases c H) as (_ & H2 & _). cbn. now rewrite H2. Qed.

(** One word, possibly after a single space, is one [TOKEN_WORD]. *)
Lemma tok_loop_word fuel m cnt acc sp w rest :
  (sp = [] \/ sp = [" "%char]) -> w <> [] -> forallb plain w = true ->
  (List.length w <= MAX_TOKEN_LENGTH - 1)%nat -> (cnt < m - 1)%nat ->
  (rest = [] \/ isspace (peek rest) = true) ->
  tok_loop (S fuel) m cnt acc (sp ++ w ++ rest)
  = tok_loop fuel m (S cnt) (word_token (string_of_list_ascii w) :: acc) rest.
Proof.
  intros Hsp Hw Hp Hl Hc Hr.
  destruct w as [| c w']; [congruence|].
  pose proof Hp as Hp'. cbn [forallb] in Hp'. apply andb_true_iff in Hp' as [Hcp _].
  destruct (plain_cases c Hcp) as (H1 & H2 & H3 & H4 & H5 & H6).
  assert (Hsk : skip_blanks (sp ++ (c :: w') ++ rest) = (c :: w') ++ rest).
  { destruct Hsp as [-> | ->]; cbn [app]; [now apply skip_blanks_plain|].
    cbn [skip_blanks]. change (isspace " " && negb (is_newline " ")) with true.
    now apply skip_blanks_plain. }
  assert (Hpk : Ascii.eqb (peek (sp ++ (c :: w') ++ rest)) NUL = false)
    by (destruct Hsp as [-> | ->]; cbn; [exact H1 | reflexivity]).
  cbn [tok_loop]. rewrite Hpk.
  replace (cnt <? m - 1)%nat with true by (symmetry; apply Nat.ltb_lt; lia).
  cbn [negb orb]. rewrite Hsk. cbn [app peek].
  unfold is_word_stop in H3. repeat rewrite orb_false_iff in H3.
  destruct H3 as (((((((Ha & Hb) & Hd) & He) & Hf) & Hg) & Hh) & Hi).
  assert (Hn : is_newline c = false).
  { unfold is_newline. destruct (Ascii.eqb_spec c "010"); [subst; discriminate|reflexivity]. }
  rewrite H1, Hn, Hi, Ha, Hb, Hd, Hg, Hh, He, Hf, H5, H6, H2. cbn [orb negb].
  change (c :: w' ++ rest) with ((c :: w') ++ rest).
  rewrite word_loop_plain; [| exact Hp | cbn [List.length] in *; lia
                           | rewrite length_app; cbn [List.length]; lia | exact Hr].
  rewrite app_nil_r, rev_involutive. reflexivity.
Qed.

Definition good_word (w : string) : Prop :=
  w <> EmptyString /\ forallb plain (list_ascii_of_string w) = true /\
  (String.length w <= MAX_TOKEN_LENGTH - 1)%nat.

Lemma tok_loop_spaced : forall ws fuel m cnt acc,
  Forall good_word ws -> (cnt + List.length ws <= m - 1)%nat ->
  (List.length ws <= fuel)%nat ->
  tok_loop fuel m cnt acc (List.concat (map (fun w => " "%char :: list_ascii_of_string w) ws))
  = (cnt + List.length ws, rev (map word_token ws) ++ acc)%nat.
Proof.
  induction ws as [| w ws IH]; intros fuel m cnt acc Hg Hc Hf.
  - destruct fuel; cbn; now rewrite Nat.add_0_r.
  - inversion Hg as [| ? ? [Hne [Hp Hl]] Hg']; subst.
    cbn [List.length] in Hc, Hf. destruct fuel as [| fuel]; [lia|].
    cbn [map List.concat]. change ((" "%char :: ?x) ++ ?y) with ([" "%char] ++ x ++ y).
    rewrite tok_loop_word; [| right; reflexivity
      | destruct w; [congruence | discriminate] | exact Hp | rewrite las_length; exact Hl
      | lia | ].
    + rewrite string_of_list_ascii_of_string, IH by (auto; lia).
      cbn [map rev List.length]. rewrite <- app_assoc. cbn [app]. f_equal. lia.
    + destruct ws as [| w' ws']; [left; reflexivity | right; reflexivity].
Qed.

Lemma concat_spaced w ws :
  list_ascii_of_string (String.concat " " (w :: ws))
  = list_ascii_of_string w ++ List.concat (map (fun w => " "%char :: list_ascii_of_string w) ws).
Proof.
  revert w. induction ws as [| w' ws IH]; intros w.
  - cbn [String.concat map List.concat]. now rewrite app_nil_r.
  - change (String.concat " " (w :: w' :: ws)) with (w ++ " " ++ String.concat " " (w' :: ws))%string.
    rewrite las_app. cbn [String.append list_ascii_of_string]. rewrite IH.
    reflexivity.
Qed.

Lemma spaced_length : forall ws, Forall good_word ws ->
  (List.length ws <= List.length (List.concat (map (fun w => " "%char :: list_ascii_of_string w) ws)))%nat.
Proof.
  induction 1 as [| w ws [Hne _] _ IH]; cbn [List.length map List.concat]; [lia|].
  rewrite length_app. cbn [List.length]. lia.
Qed.

(** Extra: words of plain characters joined by single spaces are split at
    the spaces: one unquoted [TOKEN_WORD] per word, then [TOKEN_EOF], as long
    as fewer words than [max_tokens] are given and none exceeds the token
    length limit. *)
Theorem tokenize_plain_words ws m :
  Forall good_word ws -> (List.length ws < m)%nat ->
  tokenize_input (String.concat " " ws) m
  = (S (List.length ws), map word_token ws ++ [mk_token TOKEN_EOF EmptyString false]).
Proof.
  intros Hg Hm. unfold tokenize_input.
  destruct ws as [| w ws].
  - cbn. destruct m as [| m]; [lia|]. reflexivity.
  - inversion Hg as [| ? ? [Hne [Hp Hl]] Hg']; subst.
    assert (Hlen : (List.length ws <= String.length (String.concat " " (w :: ws)))%nat).
    { rewrite <- las_length, concat_spaced, length_app.
      pose proof (spaced_length ws Hg'). lia. }
    rewrite concat_spaced.
    change (list_ascii_of_string w ++ ?r) with ([] ++ list_ascii_of_string w ++ r).
    rewrite tok_loop_word; [| left; reflexivity
      | destruct w; [congruence | discriminate] | exact Hp | rewrite las_length; exact Hl
      | cbn [List.length] in Hm; lia
      | destruct ws; [left; reflexivity | right; reflexivity]].
    rewrite tok_loop_spaced; [| exact Hg' | cbn [List.length] in Hm; lia | exact Hlen].
    destruct (Nat.ltb_spec (1 + List.length ws) m); [| cbn [List.length] in Hm; lia].
    rewrite string_of_list_ascii_of_string. cbn [rev]. rewrite rev_app_distr, rev_involutive. reflexivity.
Qed.

Lemma tokenize_input_bounded_witness :
  tokenize_input "ls | wc" 2 = (2%nat, [op TOKEN_WORD "ls"; mk_token TOKEN_EOF EmptyString false]) /\
  (let '(cnt, toks) := tokenize_input "ls | wc" 2 in
   cnt = List.length toks /\ (cnt <= 2)%nat /\
   ((0 < 2)%nat -> exists body, toks = body ++ [mk_token TOKEN_EOF EmptyString false])).
Proof.
  split; [vm_compute; reflexivity | apply (tokenize_input_bounded "ls | wc" 2)].
Defined.

Lemma tokenize_plain_words_witness :
  Forall good_word ["ls"; "-la"; "/tmp"]%string /\ (3 < MAX_TOKENS)%nat /\
  tokenize_input "ls -la /tmp" MAX_TOKENS
  = (4%nat, [word_token "ls"; word_token "-la"; word_token "/tmp";
         mk_token TOKEN_EOF EmptyString false]).
Proof.
  assert (Hg : Forall good_word ["ls"; "-la"; "/tmp"]%string).
  { repeat apply Forall_cons; try apply Forall_nil;
      (split; [discriminate | split; [reflexivity | cbn; lia]]). }
  split; [exact Hg | split; [unfold MAX_TOKENS; lia |]].
  exact (tokenize_plain_words ["ls"; "-la"; "/tmp"]%string MAX_TOKENS Hg
           ltac:(unfold MAX_TOKENS; cbn; lia)).
Defined.

End TokenizerMoreProofs.

Module AliasTableProofs.
Import AliasTable.

Lemma nth_set_aslot_same : forall tbl i x,
  (i < List.length tbl)%nat -> nth i (set_aslot tbl i x) None = x.
Proof.
  induction tbl as [| y r IH]; intros [| i] x H; cbn [set_aslot nth List.length] in *;
    try lia; auto.
  apply IH; lia.
Qed.

Lemma nth_set_aslot_other : forall tbl i j x,
  i <> j -> nth j (set_aslot tbl i x) None = nth j tbl None.
Proof.
  induction tbl as [| y r IH]; intros [| i] [| j] x H; cbn [set_aslot nth]; auto; try congruence.
Qed.

Lemma set_aslot_length : forall tbl i x, List.length (set_aslot tbl i x) = List.length tbl.
Proof. induction tbl as [| y r IH]; intros [| i] x; cbn [set_aslot List.length]; auto. Qed.

Lemma next_alias_range : forall idx, 0 <= (idx + 1) mod MAX_ALIASES < MAX_ALIASES.
Proof. intros; apply Z.mod_pos_bound; unfold MAX_ALIASES; lia. Qed.

Lemma hash_alias_range : forall name, 0 <= hash_alias name < MAX_ALIASES.
Proof. intros; apply Z.mod_pos_bound; unfold MAX_ALIASES; lia. Qed.

Lemma aslot_set_aslot : forall tbl i j x,
  List.length tbl = Z.to_nat MAX_ALIASES ->
  0 <= i < MAX_ALIASES -> 0 <= j < MAX_ALIASES ->
  aslot (set_aslot tbl (Z.to_nat i) x) j = if i =? j then x else aslot tbl j.
Proof.
  intros tbl i j x Hl Hi Hj. unfold aslot.
  destruct (Z.eqb_spec i j) as [-> | Hne].
  - apply nth_set_aslot_same. rewrite Hl. unfold MAX_ALIASES in *; lia.
  - apply nth_set_aslot_other. lia.
Qed.

Lemma aslot_repeat_none : forall n i, aslot (repeat None n) i = None.
Proof.
  intros n i. unfold aslot. generalize (Z.to_nat i). clear i.
  induction n as [| n IH]; intros [| k]; cbn [repeat nth]; auto.
Qed.

Lemma probe_found : forall n tbl name start idx i a,
  probe_loop n tbl name start idx = Some (i, a) ->
  aslot tbl i = Some a /\ alias_name a = name /\
  (0 <= idx < MAX_ALIASES -> 0 <= i < MAX_ALIASES).
Proof.
  induction n as [| n IH]; intros tbl name start idx i a H; cbn [probe_loop] in H;
    [discriminate|].
  destruct (aslot tbl idx) as [w |] eqn:Hs; [|discriminate].
  destruct (String.eqb (alias_name w) name) eqn:Heq.
  - injection H as <- <-. apply String.eqb_eq in Heq. auto.
  - destruct ((idx + 1) mod MAX_ALIASES =? start); [discriminate|].
    destruct (IH _ _ _ _ _ _ H) as (H1 & H2 & H3).
    split; [exact H1 | split; [exact H2 | intros _; apply H3, next_alias_range]].
Qed.

Lemma insert_found : forall n tbl idx j,
  insert_loop n tbl idx = Some j ->
  aslot tbl j = None /\ (0 <= idx < MAX_ALIASES -> 0 <= j < MAX_ALIASES).
Proof.
  induction n as [| n IH]; intros tbl idx j H; cbn [insert_loop] in H; [discriminate|].
  destruct (aslot tbl idx) eqn:Hs.
  - destruct (IH _ _ _ H) as [H1 H2]. split; auto. intros _; apply H2, next_alias_range.
  - injection H as <-. auto.
Qed.

(** Rewriting the entry the probe reached keeps it reachable. *)
Lemma probe_update : forall n tbl name start idx i a a',
  List.length tbl = Z.to_nat MAX_ALIASES -> 0 <= idx < MAX_ALIASES ->
  probe_loop n tbl name start idx = Some (i, a) -> alias_name a' = name ->
  probe_loop n (set_aslot tbl (Z.to_nat i) (Some a')) name start idx = Some (i, a').
Proof.
  induction n as [| n IH]; intros tbl name start idx i a a' Hl Hidx H Hn; [discriminate|].
  pose proof (probe_found _ _ _ _ _ _ _ H) as (Hsi & Hai & Hri).
  specialize (Hri Hidx).
  cbn [probe_loop] in H |- *.
  rewrite (aslot_set_aslot tbl i idx (Some a') Hl Hri Hidx).
  destruct (aslot tbl idx) as [w |] eqn:Hs; [|discriminate].
  destruct (String.eqb (alias_name w) name) eqn:Heq.
  - injection H as <- <-. rewrite Z.eqb_refl, Hn, String.eqb_refl. reflexivity.
  - destruct (Z.eqb_spec i idx) as [-> | Hne].
    + rewrite Hsi in Hs. injection Hs as ->. rewrite Hai, String.eqb_refl in Heq. discriminate.
    + rewrite Heq.
      destruct ((idx + 1) mod MAX_ALIASES =? start); [discriminate|].
      apply (IH _ _ _ _ _ a); auto using next_alias_range.
Qed.

(** Emptying the slot the probe reached cuts the probe there: the probe
    for the same name now stops at that slot. *)
Lemma probe_remove : forall n tbl name start idx i a,
  List.length tbl = Z.to_nat MAX_ALIASES -> 0 <= idx < MAX_ALIASES ->
  probe_loop n tbl name start idx = Some (i, a) ->
  probe_loop n (set_aslot tbl (Z.to_nat i) None) name start idx = None.
Proof.
  induction n as [| n IH]; intros tbl name start idx i a Hl Hidx H; [discriminate|].
  pose proof (probe_found _ _ _ _ _ _ _ H) as (_ & _ & Hri).
  specialize (Hri Hidx).
  cbn [probe_loop] in H |- *.
  rewrite (aslot_set_aslot tbl i idx None Hl Hri Hidx).
  destruct (Z.eqb_spec i idx) as [-> | Hne]; [reflexivity|].
  destruct (aslot tbl idx) as [w |] eqn:Hs; [|discriminate].
  destruct (String.eqb (alias_name w) name) eqn:Heq.
  - injection H as <- <-. congruence.
  - destruct ((idx + 1) mod MAX_ALIASES =? start); [reflexivity|].
    apply (IH _ _ _ _ _ a); auto using next_alias_range.
Qed.

(** Steps left before the probe index comes back to [start]. *)
Definition adist (idx start : Z) : Z := (start - idx - 1) mod MAX_ALIASES + 1.

Lemma adist_next : forall idx start,
  0 <= idx < MAX_ALIASES -> 0 <= start < MAX_ALIASES ->
  (idx + 1) mod MAX_ALIASES <> start ->
  adist ((idx + 1) mod MAX_ALIASES) start = adist idx start - 1 /\ 1 < adist idx start.
Proof.
  unfold adist, MAX_ALIASES. intros idx start Hi Hs Hne.
  Z.to_euclidean_division_equations. lia.
Qed.

(** A new entry put in the first free slot of its probe sequence is found
    by the next lookup. *)
Lemma probe_insert : forall n tbl name start idx j x,
  List.length tbl = Z.to_nat MAX_ALIASES ->
  0 <= idx < MAX_ALIASES -> 0 <= start < MAX_ALIASES ->
  Z.of_nat n <= adist idx start ->
  probe_loop n tbl name start idx = None ->
  insert_loop n tbl idx = Some j -> alias_name x = name ->
  probe_loop n (set_aslot tbl (Z.to_nat j) (Some x)) name start idx = Some (j, x).
Proof.
  induction n as [| n IH]; intros tbl name start idx j x Hl Hidx Hst Hd Hf Hfree Hn;
    [discriminate |].
  pose proof (insert_found _ _ _ _ Hfree) as [Hsj Hrj]. specialize (Hrj Hidx).
  cbn [probe_loop insert_loop] in Hf, Hfree |- *.
  rewrite (aslot_set_aslot tbl j idx (Some x) Hl Hrj Hidx).
  destruct (aslot tbl idx) as [w |] eqn:Hs.
  - destruct (Z.eqb_spec j idx) as [-> | Hne]; [congruence |].
    destruct (String.eqb (alias_name w) name) eqn:Heq; [discriminate |].
    destruct (Z.eqb_spec ((idx + 1) mod MAX_ALIASES) start) as [He | He].
    + exfalso. destruct n; [discriminate |].
      unfold adist in Hd. rewrite <- He in Hd.
      unfold MAX_ALIASES in *. Z.to_euclidean_division_equations. lia.
    + destruct (adist_next idx start Hidx Hst He) as [Hd1 Hd2].
      apply IH; auto using next_alias_range. lia.
  - injection Hfree as <-. rewrite Z.eqb_refl, Hn, String.eqb_refl. reflexivity.
Qed.

(** The store invariant: [MAX_ALIASES] slots, and [alias_count] equal to the
    number of occupied ones. *)
Definition is_entry (o : option alias_t) : bool :=
  match o with Some _ => true | None => false end.

Definition entries (tbl : list (option alias_t)) : Z :=
  Z.of_nat (List.length (filter is_entry tbl)).

Definition alias_ok (st : astate) : Prop :=
  List.length (aliases st) = Z.to_nat MAX_ALIASES /\ alias_count st = entries (aliases st).

Lemma filter_set_aslot : forall tbl i x, (i < List.length tbl)%nat ->
  (List.length (filter is_entry (set_aslot tbl i x)) + (if is_entry (nth i tbl None) then 1 else 0)
   = List.length (filter is_entry tbl) + (if is_entry x then 1 else 0))%nat.
Proof.
  induction tbl as [|y r IH]; intros [|i] x H; cbn [set_aslot nth List.length] in *; try lia.
  - destruct y, x; cbn [filter is_entry List.length]; lia.
  - specialize (IH i x ltac:(lia)).
    destruct y; cbn [filter is_entry List.length]; lia.
Qed.

Lemma entries_set_aslot tbl i x :
  List.length tbl = Z.to_nat MAX_ALIASES -> 0 <= i < MAX_ALIASES ->
  entries (set_aslot tbl (Z.to_nat i) x)
  = entries tbl - (if is_entry (aslot tbl i) then 1 else 0) + (if is_entry x then 1 else 0).
Proof.
  intros Hl Hi. unfold entries, aslot.
  assert (Hlt : (Z.to_nat i < List.length tbl)%nat) by (rewrite Hl; unfold MAX_ALIASES in *; lia).
  pose proof (filter_set_aslot tbl (Z.to_nat i) x Hlt) as E.
  destruct (is_entry (nth (Z.to_nat i) tbl None)), (is_entry x); lia.
Qed.

Lemma insert_loop_none : forall n tbl idx, 0 <= idx < MAX_ALIASES ->
  insert_loop n tbl idx = None ->
  forall k, (k < n)%nat -> is_entry (aslot tbl ((idx + Z.of_nat k) mod MAX_ALIASES)) = true.
Proof.
  induction n as [| n IH]; intros tbl idx Hidx H k Hk; [lia|].
  cbn [insert_loop] in H. destruct (aslot tbl idx) as [w|] eqn:Hs; [|discriminate].
  destruct k as [|k].
  - rewrite Z.add_0_r, Z.mod_small by exact Hidx. rewrite Hs; reflexivity.
  - specialize (IH tbl _ (next_alias_range idx) H k ltac:(lia)).
    rewrite Zplus_mod_idemp_l in IH.
    replace (idx + 1 + Z.of_nat k) with (idx + Z.of_nat (S k)) in IH by lia.
    exact IH.
Qed.

Lemma filter_all_entries : forall l : list (option alias_t),
  (forall j, (j < List.length l)%nat -> is_entry (nth j l None) = true) ->
  List.length (filter is_entry l) = List.length l.
Proof.
  induction l as [|y r IH]; intros H; [reflexivity|].
  pose proof (H O ltac:(cbn [List.length]; lia)) as H0. cbn [nth] in H0.
  cbn [filter]. rewrite H0. cbn [List.length]. f_equal.
  apply IH. intros j Hj. apply (H (S j)). cbn [List.length]; lia.
Qed.

(** When the insertion loop finds no [NULL] slot, every slot is taken. *)
Lemma insert_loop_none_full tbl idx :
  List.length tbl = Z.to_nat MAX_ALIASES -> 0 <= idx < MAX_ALIASES ->
  insert_loop (Z.to_nat MAX_ALIASES) tbl idx = None -> entries tbl = MAX_ALIASES.
Proof.
  intros Hl Hidx H. unfold entries. rewrite filter_all_entries.
  - rewrite Hl. reflexivity.
  - intros j Hj. rewrite Hl in Hj.
    set (k := Z.to_nat ((Z.of_nat j - idx) mod MAX_ALIASES)).
    assert (Hk : (k < Z.to_nat MAX_ALIASES)%nat).
    { unfold k, MAX_ALIASES in *. pose proof (Z.mod_pos_bound (Z.of_nat j - idx) 256 ltac:(lia)). lia. }
    pose proof (insert_loop_none _ _ _ Hidx H k Hk) as E.
    assert (Ej : (idx + Z.of_nat k) mod MAX_ALIASES = Z.of_nat j).
    { unfold k. rewrite Z2Nat.id by (apply Z.mod_pos_bound; unfold MAX_ALIASES; lia).
      rewrite Zplus_mod_idemp_r. replace (idx + (Z.of_nat j - idx)) with (Z.of_nat j) by lia.
      apply Z.mod_small. unfold MAX_ALIASES in *; lia. }
    rewrite Ej in E. unfold aslot in E. rewrite Nat2Z.id in E. exact E.
Qed.

Lemma find_alias_eq st name :
  find_alias st name
  = probe_loop (Z.to_nat MAX_ALIASES) (aliases st) name (hash_alias name) (hash_alias name).
Proof. reflexivity. Qed.

Lemma set_alias_keeps_ok st name value rc st' :
  alias_ok st -> set_alias st name value = Some (rc, st') -> alias_ok st'.
Proof.
  intros [Hl Hc]. unfold set_alias. rewrite find_alias_eq. intros H.
  destruct (probe_loop _ (aliases st) name _ _) as [[i ex] |] eqn:Hf.
  - injection H as <- <-.
    pose proof (probe_found _ _ _ _ _ _ _ Hf) as (Hsi & _ & Hri).
    specialize (Hri (hash_alias_range name)).
    split; cbn [with_aliases aliases alias_count];
      [rewrite set_aslot_length; exact Hl
      | rewrite entries_set_aslot by auto; rewrite Hsi; cbn [is_entry]; lia].
  - destruct (MAX_ALIASES <=? alias_count st).
    + injection H as <- <-. split; cbn [aeprint aliases alias_count]; auto.
    + destruct (insert_loop (Z.to_nat MAX_ALIASES) (aliases st) (hash_alias name)) as [j |] eqn:Hfree;
        [| discriminate].
      injection H as <- <-.
      pose proof (insert_found _ _ _ _ Hfree) as [Hsj Hrj].
      specialize (Hrj (hash_alias_range name)).
      split; cbn [with_aliases aliases alias_count];
        [rewrite set_aslot_length; exact Hl
        | rewrite entries_set_aslot by auto; rewrite Hsj; cbn [is_entry]; lia].
Qed.

Lemma set_alias_some st name value :
  alias_ok st -> set_alias st name value <> None.
Proof.
  intros [Hl Hc]. unfold set_alias. rewrite find_alias_eq.
  destruct (probe_loop _ (aliases st) name _ _) as [[i ex] |]; [discriminate|].
  destruct (Z.leb_spec MAX_ALIASES (alias_count st)); [discriminate|].
  destruct (insert_loop (Z.to_nat MAX_ALIASES) (aliases st) (hash_alias name)) eqn:Hfree;
    [discriminate|].
  apply insert_loop_none_full in Hfree; auto using hash_alias_range. lia.
Qed.

Lemma unset_alias_keeps_ok st name rc st' :
  alias_ok st -> unset_alias st name = (rc, st') -> alias_ok st'.
Proof.
  intros [Hl Hc]. unfold unset_alias. intros H.
  destruct (probe_loop _ (aliases st) name _ _) as [[i a] |] eqn:Hf.
  - injection H as <- <-.
    pose proof (probe_found _ _ _ _ _ _ _ Hf) as (Hsi & _ & Hri).
    specialize (Hri (hash_alias_range name)).
    split; cbn [with_aliases aliases alias_count];
      [rewrite set_aslot_length; exact Hl
      | rewrite entries_set_aslot by auto; rewrite Hsi; cbn [is_entry]; lia].
  - injection H as <- <-. split; auto.
Qed.

(** Extra: [alias_init] sets up the store invariant (the table has
    [MAX_ALIASES] slots and [alias_count] is the number of occupied ones);
    [set_alias] and [unset_alias] keep it, and under it [set_alias] never
    runs forever. *)
Theorem alias_table_invariant st0 :
  alias_ok (alias_init st0) /\
  forall st, alias_ok st ->
  (forall name value, set_alias st name value <> None) /\
  (forall name value rc st', set_alias st name value = Some (rc, st') -> alias_ok st') /\
  (forall name rc st', unset_alias st name = (rc, st') -> alias_ok st').
Proof.
  split.
  - split; cbn [alias_init with_aliases aliases alias_count].
    + apply repeat_length.
    + unfold entries. generalize (Z.to_nat MAX_ALIASES) as n.
      induction n as [| n IH]; [reflexivity|]. cbn [repeat filter is_entry]. exact IH.
  - intros st H. split; [|split]; intros.
    + apply set_alias_some; exact H.
    + eapply set_alias_keeps_ok; eauto.
    + eapply unset_alias_keeps_ok; eauto.
Qed.


(** Extra: [set_alias] returns 0 and leaves [get_alias] answering the new
    value, or returns -1, printing an error, only when the name is not in
    the table and [alias_count] has reached [MAX_ALIASES]; the table is then
    unchanged. *)
Theorem set_alias_outcome st name value rc st' :
  List.length (aliases st) = Z.to_nat MAX_ALIASES ->
  set_alias st name value = Some (rc, st') ->
  (rc = 0 /\ get_alias st' name = Some value) \/
  (rc = -1 /\ get_alias st name = None /\ MAX_ALIASES <= alias_count st /\
   aliases st' = aliases st /\
   aerr st' = aerr st ++ ["alias: too many aliases" ++ String "010" EmptyString]%string).
Proof.
  intros Hl. unfold set_alias, get_alias. rewrite !find_alias_eq. intros H.
  destruct (probe_loop _ (aliases st) name _ _) as [[i ex] |] eqn:Hf.
  - injection H as <- <-. left. split; [reflexivity|].
    pose proof (probe_found _ _ _ _ _ _ _ Hf) as (_ & Hn & _).
    cbn [with_aliases aliases].
    rewrite (probe_update _ _ _ _ _ _ ex); auto using hash_alias_range.
  - destruct (Z.leb_spec MAX_ALIASES (alias_count st)).
    + injection H as <- <-. right. repeat split; auto.
    + destruct (insert_loop (Z.to_nat MAX_ALIASES) (aliases st) (hash_alias name)) as [j |] eqn:Hfree;
        [| discriminate].
      injection H as <- <-. left. split; [reflexivity|].
      cbn [with_aliases aliases].
      rewrite probe_insert; auto using hash_alias_range.
      unfold adist, MAX_ALIASES. rewrite Z.sub_diag, Z2Nat.id by lia. reflexivity.
Qed.

(** Extra: after [unset_alias(name)] the name is gone: [get_alias] has no
    value for it, even when the table held it more than once.  The call
    returns 0 and decrements [alias_count] when [get_alias] had a value for
    the name before; otherwise it returns -1 and changes nothing. *)
Theorem unset_alias_removes st name rc st' :
  List.length (aliases st) = Z.to_nat MAX_ALIASES ->
  unset_alias st name = (rc, st') ->
  get_alias st' name = None /\
  ((rc = 0 /\ get_alias st name <> None /\ alias_count st' = alias_count st - 1) \/
   (rc = -1 /\ get_alias st name = None /\ st' = st)).
Proof.
  intros Hl. unfold unset_alias, get_alias. rewrite !find_alias_eq. intros H.
  destruct (probe_loop _ (aliases st) name _ _) as [[i a] |] eqn:Hf.
  - injection H as <- <-. cbn [with_aliases aliases alias_count].
    rewrite (probe_remove _ _ _ _ _ _ a Hl (hash_alias_range name) Hf).
    split; [reflexivity|]. left. repeat split; discriminate.
  - injection H as <- <-. rewrite Hf. auto.
Qed.

Lemma probe_first_empty n tbl name start idx :
  aslot tbl idx = None -> probe_loop (S n) tbl name start idx = None.
Proof. intros H. cbn [probe_loop]. rewrite H. reflexivity. Qed.

Lemma probe_hit n tbl name start idx w :
  aslot tbl idx = Some w -> alias_name w = name ->
  probe_loop (S n) tbl name start idx = Some (idx, w).
Proof. intros H Hn. cbn [probe_loop]. rewrite H, Hn, String.eqb_refl. reflexivity. Qed.

Lemma probe_skip n tbl name start idx w :
  aslot tbl idx = Some w -> alias_name w <> name ->
  (idx + 1) mod MAX_ALIASES <> start ->
  probe_loop (S n) tbl name start idx = probe_loop n tbl name start ((idx + 1) mod MAX_ALIASES).
Proof.
  intros H Hn Hs. cbn [probe_loop]. rewrite H.
  apply String.eqb_neq in Hn. apply Z.eqb_neq in Hs. rewrite Hn, Hs. reflexivity.
Qed.

Lemma insert_first_empty n tbl idx :
  aslot tbl idx = None -> insert_loop (S n) tbl idx = Some idx.
Proof. intros H. cbn [insert_loop]. rewrite H. reflexivity. Qed.

Lemma insert_skip n tbl idx w :
  aslot tbl idx = Some w ->
  insert_loop (S n) tbl idx = insert_loop n tbl ((idx + 1) mod MAX_ALIASES).
Proof. intros H. cbn [insert_loop]. rewrite H. reflexivity. Qed.

Lemma MAX_ALIASES_nat : Z.to_nat MAX_ALIASES = S (S 254).
Proof. reflexivity. Qed.

Lemma collision_general tbl cnt err a b va vb st1 st2 rc st3 :
  a <> b -> hash_alias a = hash_alias b ->
  List.length tbl = Z.to_nat MAX_ALIASES -> cnt + 1 < MAX_ALIASES ->
  aslot tbl (hash_alias a) = None -> aslot tbl ((hash_alias a + 1) mod MAX_ALIASES) = None ->
  set_alias (mk_astate tbl cnt err) a va = Some (0, st1) ->
  set_alias st1 b vb = Some (0, st2) ->
  unset_alias st2 a = (rc, st3) ->
  rc = 0 /\ get_alias st2 b = Some vb /\ get_alias st3 b = None /\
  alias_count st3 = cnt + 1 /\
  aslot (aliases st3) ((hash_alias b + 1) mod MAX_ALIASES) = Some (mk_alias b vb).
Proof.
  intros Hab Hh Hl0 Hc E0 E0' H1 H2 H3.
  unfold get_alias. rewrite !find_alias_eq.
  unfold set_alias in H1, H2. rewrite find_alias_eq in H1, H2.
  unfold unset_alias in H3. rewrite <- Hh in H2 |- *.
  remember (hash_alias a) as h eqn:Eh.
  assert (Hr : 0 <= h < MAX_ALIASES) by (subst h; apply hash_alias_range).
  remember ((h + 1) mod MAX_ALIASES) as h' eqn:Eh'.
  assert (Hr' : 0 <= h' < MAX_ALIASES) by (subst h'; apply next_alias_range).
  assert (Hne : h' <> h).
  { subst h'. unfold MAX_ALIASES in *. Z.to_euclidean_division_equations. lia. }
  (* first insertion: slot [h] *)
  cbn [aliases alias_count] in H1. rewrite MAX_ALIASES_nat in H1.
  rewrite probe_first_empty in H1 by exact E0.
  destruct (Z.leb_spec MAX_ALIASES cnt) as [Hf|_]; [lia|].
  rewrite insert_first_empty in H1 by exact E0.
  injection H1 as E1. subst st1. cbn [with_aliases aliases alias_count aerr] in H2.
  remember (set_aslot tbl (Z.to_nat h) (Some (mk_alias a va))) as t1 eqn:Et1.
  assert (Hl1 : List.length t1 = Z.to_nat MAX_ALIASES) by (subst t1; rewrite set_aslot_length; exact Hl0).
  assert (S1h : aslot t1 h = Some (mk_alias a va)).
  { subst t1. rewrite aslot_set_aslot, Z.eqb_refl by auto. reflexivity. }
  assert (S1h' : aslot t1 h' = None).
  { subst t1. rewrite aslot_set_aslot by auto.
    destruct (Z.eqb_spec h h'); [congruence|]. exact E0'. }
  (* second insertion: slot [h + 1] *)
  rewrite MAX_ALIASES_nat in H2.
  rewrite (probe_skip _ _ _ _ _ _ S1h) in H2 by (cbn [alias_name]; congruence).
  rewrite <- Eh', probe_first_empty in H2 by exact S1h'.
  destruct (Z.leb_spec MAX_ALIASES (cnt + 1)) as [Hf|_]; [lia|].
  rewrite (insert_skip _ _ _ _ S1h), <- Eh' in H2.
  rewrite insert_first_empty in H2 by exact S1h'.
  injection H2 as E2. subst st2. cbn [with_aliases aliases alias_count] in H3 |- *.
  remember (set_aslot t1 (Z.to_nat h') (Some (mk_alias b vb))) as t2 eqn:Et2.
  assert (Hl2 : List.length t2 = Z.to_nat MAX_ALIASES) by (subst t2; rewrite set_aslot_length; exact Hl1).
  assert (S2h : aslot t2 h = Some (mk_alias a va)).
  { subst t2. rewrite aslot_set_aslot by auto.
    destruct (Z.eqb_spec h' h); [congruence|]. exact S1h. }
  assert (S2h' : aslot t2 h' = Some (mk_alias b vb)).
  { subst t2. rewrite aslot_set_aslot, Z.eqb_refl by auto. reflexivity. }
  (* the unset empties slot [h] *)
  rewrite MAX_ALIASES_nat in H3.
  rewrite (probe_hit _ _ _ _ _ _ S2h) in H3 by reflexivity.
  injection H3 as E3 E4. subst rc st3. cbn [with_aliases aliases alias_count].
  remember (set_aslot t2 (Z.to_nat h) None) as t3 eqn:Et3.
  assert (S3h : aslot t3 h = None).
  { subst t3. rewrite aslot_set_aslot, Z.eqb_refl by auto. reflexivity. }
  assert (S3h' : aslot t3 h' = Some (mk_alias b vb)).
  { subst t3. rewrite aslot_set_aslot by auto.
    destruct (Z.eqb_spec h h'); [congruence|]. exact S2h'. }
  rewrite MAX_ALIASES_nat.
  split; [reflexivity|]. split; [|split; [|split]].
  - rewrite (probe_skip _ _ _ _ _ _ S2h) by (cbn [alias_name]; congruence).
    rewrite <- Eh'. rewrite (probe_hit _ _ _ _ _ _ S2h') by reflexivity. reflexivity.
  - rewrite probe_first_empty by exact S3h. reflexivity.
  - lia.
  - exact S3h'.
Qed.

(** Extra: [unset_alias] empties a slot without a marker, so it cuts the
    probe sequence of the names stored after it.  Two different names with
    the same hash set one after the other in a fresh store: once the first
    is unset, [get_alias] no longer finds the second, although its entry is
    still in the table and still counted. *)
Theorem unset_alias_hides_collision st0 a b va vb st1 st2 rc st3 :
  a <> b -> hash_alias a = hash_alias b ->
  set_alias (alias_init st0) a va = Some (0, st1) ->
  set_alias st1 b vb = Some (0, st2) ->
  unset_alias st2 a = (rc, st3) ->
  rc = 0 /\ get_alias st2 b = Some vb /\ get_alias st3 b = None /\
  alias_count st3 = 1 /\
  aslot (aliases st3) ((hash_alias b + 1) mod MAX_ALIASES) = Some (mk_alias b vb).
Proof.
  intros Hab Hh H1 H2 H3. unfold alias_init, with_aliases in H1.
  exact (collision_general (repeat None (Z.to_nat MAX_ALIASES)) 0 (aerr st0) a b va vb st1 st2 rc st3
           Hab Hh (repeat_length _ _)
           ltac:(reflexivity) (aslot_repeat_none _ _) (aslot_repeat_none _ _) H1 H2 H3).
Qed.

Lemma set_alias_zero_get st name value st' :
  List.length (aliases st) = Z.to_nat MAX_ALIASES ->
  set_alias st name value = Some (0, st') -> get_alias st' name = Some value.
Proof.
  intros Hl. unfold set_alias, get_alias. rewrite !find_alias_eq. intros H.
  destruct (probe_loop _ (aliases st) name _ _) as [[i ex] |] eqn:Hf.
  - injection H as <-.
    pose proof (probe_found _ _ _ _ _ _ _ Hf) as (_ & Hn & _).
    cbn [with_aliases aliases].
    rewrite (probe_update _ _ _ _ _ _ ex); auto using hash_alias_range.
  - destruct (MAX_ALIASES <=? alias_count st); [discriminate|].
    destruct (insert_loop (Z.to_nat MAX_ALIASES) (aliases st) (hash_alias name)) as [j |] eqn:Hfree;
      [| discriminate].
    injection H as <-. cbn [with_aliases aliases].
    rewrite probe_insert; auto using hash_alias_range.
    unfold adist, MAX_ALIASES. rewrite Z.sub_diag, Z2Nat.id by lia. reflexivity.
Qed.

(** Extra: once [set_alias(name, value)] has returned 0, [expand_aliases]
    replaces [name] at the start of a line by [value], keeping the rest of
    the line, when [name] is a nonempty word without blanks and the rest is
    empty or starts with a blank. *)
Theorem set_alias_then_expand st name value st' rest :
  List.length (aliases st) = Z.to_nat MAX_ALIASES ->
  set_alias st name value = Some (0, st') ->
  name <> EmptyString ->
  forallb (fun c => negb (Tokenizer.isspace c)) (list_ascii_of_string name) = true ->
  (rest = EmptyString \/ exists c r, rest = String c r /\ Tokenizer.isspace c = true) ->
  Aliases.expand_aliases (get_alias st') (name ++ rest) = (value ++ rest)%string.
Proof.
  intros Hl Hs Hne Hw Hr.
  pose proof (set_alias_zero_get st name value st' Hl Hs) as Hg.
  unfold Aliases.expand_aliases. rewrite TokenizerMoreProofs.las_app.
  destruct name as [| c0 name']; [congruence|].
  cbn [list_ascii_of_string] in Hw |- *.
  pose proof Hw as Hw0. cbn [forallb] in Hw0. apply andb_true_iff in Hw0 as [Hc0 _].
  apply negb_true_iff in Hc0.
  pose proof (AliasesProofs.split_blanks_app [] (c0 :: list_ascii_of_string name' ++ list_ascii_of_string rest)
                eq_refl ltac:(right; exists c0, (list_ascii_of_string name' ++ list_ascii_of_string rest); auto))
    as Hsb.
  cbn [app] in Hsb |- *. rewrite Hsb. cbv beta iota.
  change (c0 :: list_ascii_of_string name' ++ list_ascii_of_string rest)
    with ((c0 :: list_ascii_of_string name') ++ list_ascii_of_string rest).
  rewrite AliasesProofs.split_word_app; [| exact Hw |].
  - change (c0 :: list_ascii_of_string name') with (list_ascii_of_string (String c0 name')).
    rewrite string_of_list_ascii_of_string, Hg. cbn [app].
    rewrite <- TokenizerMoreProofs.las_app. apply string_of_list_ascii_of_string.
  - destruct Hr as [-> | (c & r & -> & Hc)]; [left; reflexivity | right; exists c, (list_ascii_of_string r); auto].
Qed.

Lemma alias_table_invariant_witness :
  alias_ok (alias_init (mk_astate [] 0 [])) /\
  set_alias (alias_init (mk_astate [] 0 [])) "ll" "ls -l" <> None.
Proof.
  destruct (alias_table_invariant (mk_astate [] 0 [])) as [H0 H].
  split; [exact H0 | apply (H _ H0)].
Defined.

Lemma set_alias_outcome_witness :
  exists st', set_alias (alias_init (mk_astate [] 0 [])) "ll" "ls -l" = Some (0, st') /\
              get_alias st' "ll" = Some "ls -l"%string.
Proof.
  destruct (set_alias (alias_init (mk_astate [] 0 [])) "ll" "ls -l") as [[rc st'] |] eqn:E;
    [| vm_compute in E; discriminate E].
  assert (Hrc : rc = 0) by (vm_compute in E; congruence). subst rc.
  exists st'. split; [reflexivity|].
  destruct (set_alias_outcome (alias_init (mk_astate [] 0 [])) "ll" "ls -l" 0 st'
              ltac:(reflexivity) E) as [[_ G] | [C _]]; [exact G | discriminate C].
Defined.

Lemma unset_alias_removes_witness :
  exists st1 st2,
    set_alias (alias_init (mk_astate [] 0 [])) "ll" "ls -l" = Some (0, st1) /\
    unset_alias st1 "ll" = (0, st2) /\
    get_alias st1 "ll" <> None /\ get_alias st2 "ll" = None.
Proof.
  destruct (set_alias (alias_init (mk_astate [] 0 [])) "ll" "ls -l") as [[r1 st1] |] eqn:E1;
    [| vm_compute in E1; discriminate E1].
  assert (r1 = 0) by (vm_compute in E1; congruence). subst r1.
  assert (Hl : List.length (aliases st1) = Z.to_nat MAX_ALIASES)
    by (vm_compute in E1; injection E1 as <-; vm_compute; reflexivity).
  destruct (unset_alias st1 "ll") as [rc st2] eqn:E2.
  destruct (unset_alias_removes st1 "ll" rc st2 Hl E2)
    as [G2 [(-> & G1 & _) | (-> & G1 & _)]].
  - exists st1, st2. repeat split; assumption.
  - exfalso. vm_compute in E1. injection E1 as <-. vm_compute in G1. discriminate G1.
Defined.

Lemma unset_alias_hides_collision_witness :
  hash_alias "az" = hash_alias "bY" /\
  exists st1 st2 st3,
    set_alias (alias_init (mk_astate [] 0 [])) "az" "x" = Some (0, st1) /\
    set_alias st1 "bY" "y" = Some (0, st2) /\
    unset_alias st2 "az" = (0, st3) /\
    get_alias st2 "bY" = Some "y"%string /\ get_alias st3 "bY" = None.
Proof.
  assert (Hh : hash_alias "az" = hash_alias "bY") by (vm_compute; reflexivity).
  split; [exact Hh|].
  destruct (set_alias (alias_init (mk_astate [] 0 [])) "az" "x") as [[r1 st1] |] eqn:E1;
    [| vm_compute in E1; discriminate E1].
  assert (r1 = 0) by (vm_compute in E1; congruence). subst r1.
  destruct (set_alias st1 "bY" "y") as [[r2 st2] |] eqn:E2;
    [| vm_compute in E1; injection E1 as <-; vm_compute in E2; discriminate E2].
  assert (r2 = 0) by (vm_compute in E1; injection E1 as <-; vm_compute in E2; congruence). subst r2.
  destruct (unset_alias st2 "az") as [rc st3] eqn:E3.
  destruct (unset_alias_hides_collision (mk_astate [] 0 []) "az" "bY" "x" "y" st1 st2 rc st3
              ltac:(discriminate) Hh E1 E2 E3) as (-> & G2 & G3 & _).
  exists st1, st2, st3. auto.
Defined.

Lemma set_alias_then_expand_witness :
  exists st', set_alias (alias_init (mk_astate [] 0 [])) "ll" "ls -l" = Some (0, st') /\
    Aliases.expand_aliases (get_alias st') "ll /tmp" = "ls -l /tmp"%string.
Proof.
  destruct (set_alias (alias_init (mk_astate [] 0 [])) "ll" "ls -l") as [[rc st'] |] eqn:E;
    [| vm_compute in E; discriminate E].
  assert (Hrc : rc = 0) by (vm_compute in E; congruence). subst rc.
  exists st'. split; [reflexivity|].
  exact (set_alias_then_expand (alias_init (mk_astate [] 0 [])) "ll" "ls -l" st' " /tmp"
           ltac:(reflexivity) E ltac:(discriminate) ltac:(reflexivity)
           ltac:(right; exists " "%char, "/tmp"%string; split; reflexivity)).
Defined.

End AliasTableProofs.

Module QuoteProofs.
Import Token Tokenizer TokenizerMoreProofs.

Lemma quoted_loop_single : forall body rest fuel len acc,
  forallb (fun c => negb (Ascii.eqb c NUL || Ascii.eqb c SQUOTE)) body = true ->
  (len + List.length body <= MAX_TOKEN_LENGTH - 1)%nat ->
  (List.length body <= fuel)%nat -> (rest = [] \/ peek rest = SQUOTE) ->
  quoted_loop fuel SQUOTE false len acc (body ++ rest) = (rev body ++ acc, rest).
Proof.
  induction body as [| c body IH]; intros rest fuel len acc Hb Hl Hf Hr.
  - destruct fuel as [| fuel]; [reflexivity|]. cbn [app].
    destruct rest as [| d r]; [reflexivity|].
    destruct Hr as [Hr | Hr]; [discriminate|]. cbn [peek] in Hr. subst d.
    reflexivity.
  - cbn [forallb] in Hb. apply andb_true_iff in Hb as [Hc Hb].
    apply negb_true_iff, orb_false_iff in Hc as [H1 H2].
    cbn [List.length] in Hl, Hf.
    destruct fuel as [| fuel]; [lia|]. cbn [app quoted_loop].
    rewrite H1, H2. cbn [negb andb].
    replace (len <? MAX_TOKEN_LENGTH - 1)%nat with true
      by (symmetry; apply Nat.ltb_lt; lia).
    rewrite andb_false_r.
    rewrite IH by (auto; lia). cbn [rev]. rewrite <- app_assoc. reflexivity.
Qed.

Lemma tok_loop_squote fuel m cnt acc l :
  (cnt < m - 1)%nat ->
  tok_loop (S fuel) m cnt acc (SQUOTE :: l)
  = let '(v, rest) := quoted_loop (S (List.length l)) SQUOTE false 0 [] l in
    let rest := if Ascii.eqb (peek rest) SQUOTE then tail rest else rest in
    tok_loop fuel m (S cnt) (mk_token TOKEN_WORD (string_of_list_ascii (rev v)) true :: acc) rest.
Proof.
  intros H. cbn [tok_loop].
  replace (cnt <? m - 1)%nat with true by (symmetry; apply Nat.ltb_lt; lia).
  reflexivity.
Qed.

(** Extra: a single-quoted argument is one quoted [TOKEN_WORD] holding the
    characters between the quotes as they are (blanks, operators, [#],
    backslashes and double quotes included), then [TOKEN_EOF]; a missing
    closing quote gives the same token. *)
Theorem tokenize_single_quoted body close m :
  forallb (fun c => negb (Ascii.eqb c NUL || Ascii.eqb c SQUOTE)) (list_ascii_of_string body) = true ->
  (String.length body <= MAX_TOKEN_LENGTH - 1)%nat ->
  (close = EmptyString \/ close = String SQUOTE EmptyString) -> (2 <= m)%nat ->
  tokenize_input (String SQUOTE (body ++ close)) m
  = (2%nat, [mk_token TOKEN_WORD body true; mk_token TOKEN_EOF EmptyString false]).
Proof.
  intros Hb Hl Hc Hm. unfold tokenize_input.
  cbn [String.length list_ascii_of_string]. rewrite las_app.
  rewrite tok_loop_squote by lia.
  set (rest := list_ascii_of_string close).
  rewrite quoted_loop_single.
  - assert (Hr : (if Ascii.eqb (peek rest) SQUOTE then tail rest else rest) = []).
    { destruct Hc as [-> | ->]; reflexivity. }
    rewrite Hr.
    rewrite app_nil_r, rev_involutive, string_of_list_ascii_of_string.
    destruct m as [| [| m']]; [lia | lia |].
    destruct (String.length (body ++ close)); reflexivity.
  - exact Hb.
  - rewrite las_length. exact Hl.
  - cbn [List.length]. rewrite length_app, las_length. lia.
  - unfold rest. destruct Hc as [-> | ->]; [left | right]; reflexivity.
Qed.

Lemma tokenize_single_quoted_witness :
  tokenize_input "'a | b # c'" MAX_TOKENS
  = (2%nat, [mk_token TOKEN_WORD "a | b # c" true; mk_token TOKEN_EOF EmptyString false]).
Proof.
  exact (tokenize_single_quoted "a | b # c" "'" MAX_TOKENS ltac:(reflexivity)
           ltac:(unfold MAX_TOKEN_LENGTH; cbn; lia) ltac:(right; reflexivity)
           ltac:(unfold MAX_TOKENS; lia)).
Defined.

End QuoteProofs.

Module UnterminatedQuoteProofs.
Import Token Tokenizer TokenizerMoreProofs.

(** Characters a quoted body runs over up to the end of the line: not NUL,
    not the opening quote, not a backslash. *)
Definition quote_plain (q c : ascii) : bool :=
  negb (Ascii.eqb c NUL || Ascii.eqb c q || Ascii.eqb c BSLASH).

Lemma quoted_loop_open : forall body fuel q d len acc,
  forallb (quote_plain q) body = true ->
  (len + List.length body <= MAX_TOKEN_LENGTH - 1)%nat ->
  (List.length body <= fuel)%nat ->
  quoted_loop fuel q d len acc body = (rev body ++ acc, []).
Proof.
  induction body as [| c body IH]; intros fuel q d len acc Hb Hl Hf.
  - destruct fuel; reflexivity.
  - cbn [forallb] in Hb. apply andb_true_iff in Hb as [Hc Hb].
    unfold quote_plain in Hc. apply negb_true_iff in Hc.
    repeat rewrite orb_false_iff in Hc. destruct Hc as [[H1 H2] H3].
    cbn [List.length] in Hl, Hf.
    destruct fuel as [| fuel]; [lia|]. cbn [quoted_loop].
    rewrite H1, H2, H3. cbn [negb andb].
    replace (len <? MAX_TOKEN_LENGTH - 1)%nat with true
      by (symmetry; apply Nat.ltb_lt; lia).
    rewrite IH by (auto; lia). cbn [rev]. rewrite <- app_assoc. reflexivity.
Qed.

Definition spaced_words (ws : list string) : list ascii :=
  List.concat (map (fun w => list_ascii_of_string w ++ [" "%char]) ws).

Lemma las_spaced ws tl :
  list_ascii_of_string (fold_right (fun w s => w ++ String " " s)%string tl ws)
  = spaced_words ws ++ list_ascii_of_string tl.
Proof.
  induction ws as [| w ws IH]; [reflexivity|].
  cbn [fold_right]. rewrite las_app. cbn [list_ascii_of_string]. rewrite IH.
  unfold spaced_words. cbn [map List.concat]. rewrite <- !app_assoc. reflexivity.
Qed.

Lemma spaced_words_length ws : (List.length ws <= List.length (spaced_words ws))%nat.
Proof.
  induction ws as [| w ws IH]; [cbn; lia|].
  unfold spaced_words in *. cbn [map List.concat List.length].
  rewrite !length_app. cbn [List.length]. lia.
Qed.

(** Words each followed by one space, then a line [tl] that starts with a
    character other than a blank: one [TOKEN_WORD] per word. *)
Lemma tok_loop_words_then : forall ws sp fuel m cnt acc tl,
  (sp = [] \/ sp = [" "%char]) -> Forall good_word ws ->
  (cnt + List.length ws <= m - 1)%nat ->
  tok_loop (fuel + List.length ws) m cnt acc (sp ++ spaced_words ws ++ tl)
  = tok_loop fuel m (cnt + List.length ws) (rev (map word_token ws) ++ acc)
      ((match ws with [] => sp | _ => [" "%char] end) ++ tl).
Proof.
  induction ws as [| w ws IH]; intros sp fuel m cnt acc tl Hsp Hg Hc.
  - cbn. rewrite Nat.add_0_r, Nat.add_0_r. reflexivity.
  - inversion Hg as [| ? ? [Hne [Hp Hl]] Hg']; subst.
    cbn [List.length] in Hc |- *.
    replace (fuel + S (List.length ws))%nat with (S (fuel + List.length ws)) by lia.
    replace (sp ++ spaced_words (w :: ws) ++ tl)
      with (sp ++ list_ascii_of_string w ++ (" "%char :: spaced_words ws ++ tl))
      by (unfold spaced_words; cbn [map List.concat]; rewrite <- !app_assoc; reflexivity).
    rewrite tok_loop_word; [| exact Hsp
      | destruct w; [congruence | discriminate] | exact Hp | rewrite las_length; exact Hl
      | lia | right; reflexivity].
    rewrite string_of_list_ascii_of_string.
    change (" "%char :: spaced_words ws ++ tl) with ([" "%char] ++ spaced_words ws ++ tl).
    rewrite IH by (auto; lia).
    cbn [map rev]. rewrite <- app_assoc. cbn [app].
    replace (S cnt + List.length ws)%nat with (cnt + S (List.length ws))%nat by lia.
    destruct ws; reflexivity.
Qed.

Lemma tok_loop_open_quote fuel m cnt acc sp q body :
  (sp = [] \/ sp = [" "%char]) -> (q = DQUOTE \/ q = SQUOTE) -> (cnt < m - 1)%nat ->
  tok_loop (S fuel) m cnt acc (sp ++ q :: body)
  = let '(v, rest) := quoted_loop (S (List.length body)) q (Ascii.eqb q DQUOTE) 0 [] body in
    let rest := if Ascii.eqb (peek rest) q then tail rest else rest in
    tok_loop fuel m (S cnt) (mk_token TOKEN_WORD (string_of_list_ascii (rev v)) true :: acc) rest.
Proof.
  intros Hsp Hq H.
  destruct Hsp as [-> | ->], Hq as [-> | ->]; cbn [tok_loop];
    (replace (cnt <? m - 1)%nat with true by (symmetry; apply Nat.ltb_lt; lia));
    reflexivity.
Qed.

(** Claim C4 (amended): tokenizing has no error outcome, and a quote that is
    never closed is accepted.  For a line made of plain words, each followed
    by one space, then a single or double quote that is never closed and a
    body of at most 1023 characters without that quote, a backslash or NUL,
    the tokens are the words, then the body as one quoted [TOKEN_WORD], then
    [TOKEN_EOF], as long as [max_tokens] leaves room for them. *)
Theorem unterminated_quote_tokens ws q body m :
  Forall good_word ws -> (q = DQUOTE \/ q = SQUOTE) ->
  forallb (quote_plain q) (list_ascii_of_string body) = true ->
  (String.length body <= MAX_TOKEN_LENGTH - 1)%nat ->
  (List.length ws + 2 <= m)%nat ->
  tokenize_input (fold_right (fun w s => w ++ String " " s)%string (String q body) ws) m
  = (List.length ws + 2,
     map word_token ws ++ [mk_token TOKEN_WORD body true; mk_token TOKEN_EOF EmptyString false])%nat.
Proof.
  intros Hg Hq Hb Hl Hm. unfold tokenize_input.
  rewrite <- las_length, las_spaced. cbn [list_ascii_of_string].
  set (n := List.length (spaced_words ws ++ q :: list_ascii_of_string body)).
  assert (Hn : (List.length ws < n)%nat).
  { unfold n. rewrite length_app. cbn [List.length]. pose proof (spaced_words_length ws). lia. }
  replace (S n) with (S (n - List.length ws) + List.length ws)%nat by lia.
  change (spaced_words ws ++ q :: list_ascii_of_string body)
    with ([] ++ spaced_words ws ++ q :: list_ascii_of_string body).
  rewrite tok_loop_words_then by (auto; lia).
  rewrite tok_loop_open_quote;
    [| destruct ws; auto | exact Hq | lia].
  rewrite quoted_loop_open; [| exact Hb | rewrite las_length; exact Hl | lia].
  rewrite !app_nil_r, rev_involutive, string_of_list_ascii_of_string.
  assert (Hnul : Ascii.eqb (peek []) q = false) by (destruct Hq as [-> | ->]; reflexivity).
  rewrite Hnul.
  assert (Hend : forall f c a, tok_loop f m c a [] = (c, a)) by (intros [|f] c a; reflexivity).
  rewrite Hend.
  replace (0 + List.length ws)%nat with (List.length ws) by lia.
  replace (S (List.length ws) <? m)%nat with true by (symmetry; apply Nat.ltb_lt; lia).
  cbn [rev]. rewrite rev_involutive, <- app_assoc. cbn [app]. f_equal. lia.
Qed.

(** C4 witness: the line [echo], blank, double quote, [abc]. *)
Lemma unterminated_quote_tokens_witness :
  Forall good_word ["echo"%string] /\
  tokenize_input (fold_right (fun w s => w ++ String " " s)%string (String DQUOTE "abc") ["echo"%string])
    MAX_TOKENS
  = (List.length ["echo"%string] + 2,
     map word_token ["echo"%string] ++
     [mk_token TOKEN_WORD "abc" true; mk_token TOKEN_EOF EmptyString false])%nat.
Proof.
  assert (Hg : Forall good_word ["echo"%string]).
  { apply Forall_cons; [| apply Forall_nil].
    split; [discriminate | split; [reflexivity | unfold MAX_TOKEN_LENGTH; cbn; lia]]. }
  split; [exact Hg|].
  apply (unterminated_quote_tokens ["echo"%string] DQUOTE "abc" MAX_TOKENS Hg).
  - left; reflexivity.
  - reflexivity.
  - unfold MAX_TOKEN_LENGTH; cbn; lia.
  - unfold MAX_TOKENS; cbn; lia.
Defined.

End UnterminatedQuoteProofs.
